(** * The k-way merge iterator of badger's table package

    A shallow embedding of [table/merge_iterator.go]: the cursor [node], the
    two-way [MergeIterator] with its tournament step [fix], and the tree
    builder [NewMergeIterator]; followed by the properties of the
    specification that are stated over them. *)

From Stdlib Require Import List ZArith Lia Bool String Sorted PeanoNat
  Permutation.
From Stdlib.Strings Require Import Byte.
Import ListNotations.
Local Open Scope Z_scope.

Set Implicit Arguments.
#[local] Set Warnings "-register-all,-notation-for-abbreviation".

(** ** Outcomes of a call

    A Go call either returns, or panics; the nested calls of [Next] and the
    loop of [fix] are cut off by a step budget, whose exhaustion is a third
    outcome of the model (never of the program). *)

Inductive result (A : Type) : Type :=
| Ok (a : A)
| Panic (msg : string)
| OutOfFuel.

Arguments Ok {A} a.
Arguments Panic {A} msg.
Arguments OutOfFuel {A}.

Definition bind {A B : Type} (r : result A) (k : A -> result B) : result B :=
  match r with
  | Ok a => k a
  | Panic m => Panic m
  | OutOfFuel => OutOfFuel
  end.

Notation "x <- r ;; k" := (bind r (fun x => k))
  (at level 61, r at next level, right associativity).

Definition is_ok {A : Type} (r : result A) : bool :=
  match r with Ok _ => true | _ => false end.

(** The panic of the Go runtime for a method call through a nil interface. *)
Definition nil_dereference : string :=
  "invalid memory address or nil pointer dereference".

(** The assertion of [fix] (line 117). *)
Definition second_invalid : string := "mi.second invalid".

(** ** Data *)

Definition bytes : Type := list byte.

(** The address of an iterator object: [mi.second == mi.small.iter] compares
    two interface values holding pointers. *)
Definition ptr : Type := nat.

(** A Go [error] value: [None] is nil. *)
Definition error : Type := option string.

(** [errors.Wrap] of github.com/pkg/errors: nil for a nil error, else the
    error annotated with the message. *)
Definition Wrap (err : error) (message : string) : error :=
  match err with
  | None => None
  | Some e => Some (message ++ ": " ++ e)%string
  end.

(** The interface [y.Iterator], for the implementations other than
    [MergeIterator] itself; [V] is [y.ValueStruct], which the merge logic
    never inspects. [Close] answers with the error of the call. *)
Class YIterator (V T : Type) : Type := {
  Next : T -> T;
  Rewind : T -> T;
  Seek : bytes -> T -> T;
  Valid : T -> bool;
  Key : T -> bytes;
  Value : T -> V;
  Close : T -> error
}.

Record node_ (I : Type) : Type := mkNode {
  valid : bool;
  key : bytes;
  iter : option I
}.

Record MergeIterator_ (I : Type) : Type := mkMergeIterator {
  small : node_ I;
  big : node_ I;
  second : option ptr;
  reverse : bool
}.

(** Modelled from the spec: the contract of section 6 for a source, whose
    code is outside this file. Its cursor stands on a finite sequence of
    entries, [stream] being what remains from the cursor on; [Next] moves it
    one entry on. *)
Class Lawful (V T : Type) {I : YIterator V T} : Type := {
  stream : T -> list (bytes * V);
  Valid_stream :
    forall t, Valid t = match stream t with [] => false | _ :: _ => true end;
  Key_stream : forall t e s, stream t = e :: s -> Key t = fst e;
  Value_stream : forall t e s, stream t = e :: s -> Value t = snd e;
  Next_stream : forall t e s, stream t = e :: s -> stream (Next t) = s
}.

(** Modelled from the spec: the contract of section 6 for [y.CompareKeys],
    whose code is outside this file: a total order on the raw keys. *)
Class KeyOrder (cmp : bytes -> bytes -> Z) : Prop := {
  cmp_eq : forall a b, cmp a b = 0 <-> a = b;
  cmp_flip : forall a b, cmp a b < 0 <-> cmp b a > 0;
  cmp_trans : forall a b c, cmp a b < 0 -> cmp b c < 0 -> cmp a c < 0
}.

Section Model.

(** [ValueStruct], the iterators of the tables ([Src]: any implementation
    that is neither of the two below) and [ConcatIterator] are declared
    outside this file; so is the comparator [y.CompareKeys]. *)
Context {ValueStruct Src ConcatIterator : Type}.
Context {SrcI : YIterator ValueStruct Src}.
Context {ConcatI : YIterator ValueStruct ConcatIterator}.
Variable CompareKeys : bytes -> bytes -> Z.

(** An iterator object lives at an address and has one of three dynamic
    types. A [MergeIterator] owns its two children (ownership is exclusive:
    no object is reachable twice), so the tree holds them by value, and the
    address stands for the identity of the object. *)
Inductive Iterator : Type :=
| PSource (p : ptr) (s : Src)
| PConcat (p : ptr) (c : ConcatIterator)
| PMerge (p : ptr) (mi : MergeIterator_ Iterator).

Definition node : Type := node_ Iterator.
Definition MergeIterator : Type := MergeIterator_ Iterator.

(** A value of the interface type [y.Iterator]: nil or an object. *)
Definition y_Iterator : Type := option Iterator.

Definition entry : Type := (bytes * ValueStruct)%type.

Definition ptr_of (it : Iterator) : ptr :=
  match it with
  | PSource p _ => p
  | PConcat p _ => p
  | PMerge p _ => p
  end.

Definition y_ptr (it : y_Iterator) : option ptr := option_map ptr_of it.

(** [a == b] on two interface values. *)
Definition same_object (a b : option ptr) : bool :=
  match a, b with
  | None, None => true
  | Some p, Some q => Nat.eqb p q
  | _, _ => false
  end.

(** ** node *)

(** The fields [merge] and [concat] are the type assertions of [iter]: the
    same object, seen under its concrete type. *)
Definition node_merge (n : node) : option MergeIterator :=
  match iter n with
  | Some (PMerge _ mi) => Some mi
  | _ => None
  end.

Definition node_concat (n : node) : option ConcatIterator :=
  match iter n with
  | Some (PConcat _ c) => Some c
  | _ => None
  end.

Definition zero_node : node := mkNode false [] None.

Definition node_setIterator (n : node) (it : y_Iterator) : node :=
  mkNode (valid n) (key n) it.

Definition MergeIterator_Valid (mi : MergeIterator) : bool := valid (small mi).

Definition MergeIterator_Key (mi : MergeIterator) : bytes := key (small mi).

(** [it.Valid()] and [it.Key()] through the interface. *)
Definition call_Valid (it : y_Iterator) : result bool :=
  match it with
  | None => Panic nil_dereference
  | Some (PSource _ s) => Ok (Valid s)
  | Some (PConcat _ c) => Ok (Valid c)
  | Some (PMerge _ mi) => Ok (MergeIterator_Valid mi)
  end.

Definition call_Key (it : y_Iterator) : result bytes :=
  match it with
  | None => Panic nil_dereference
  | Some (PSource _ s) => Ok (Key s)
  | Some (PConcat _ c) => Ok (Key c)
  | Some (PMerge _ mi) => Ok (MergeIterator_Key mi)
  end.

Definition node_setKey (n : node) : result node :=
  match node_merge n with
  | Some m =>
      let v := valid (small m) in
      Ok (mkNode v (if v then key (small m) else key n) (iter n))
  | None =>
      match node_concat n with
      | Some c =>
          let v := Valid c in
          Ok (mkNode v (if v then Key c else key n) (iter n))
      | None =>
          v <- call_Valid (iter n) ;;
          if v then k <- call_Key (iter n) ;; Ok (mkNode v k (iter n))
          else Ok (mkNode v (key n) (iter n))
      end
  end.

Section Calls.

(** The methods of a nested [MergeIterator], as far as the budget reaches. *)
Variable mNext : MergeIterator -> result MergeIterator.
Variable mRewind : MergeIterator -> result MergeIterator.
Variable mSeek : bytes -> MergeIterator -> result MergeIterator.

(** [it.Next()], [it.Rewind()] and [it.Seek(key)] through the interface; the
    object is updated in place, its address stays. *)
Definition call_Next (it : y_Iterator) : result y_Iterator :=
  match it with
  | None => Panic nil_dereference
  | Some (PSource p s) => Ok (Some (PSource p (Next s)))
  | Some (PConcat p c) => Ok (Some (PConcat p (Next c)))
  | Some (PMerge p mi) => mi' <- mNext mi ;; Ok (Some (PMerge p mi'))
  end.

Definition call_Rewind (it : y_Iterator) : result y_Iterator :=
  match it with
  | None => Panic nil_dereference
  | Some (PSource p s) => Ok (Some (PSource p (Rewind s)))
  | Some (PConcat p c) => Ok (Some (PConcat p (Rewind c)))
  | Some (PMerge p mi) => mi' <- mRewind mi ;; Ok (Some (PMerge p mi'))
  end.

Definition call_Seek (k : bytes) (it : y_Iterator) : result y_Iterator :=
  match it with
  | None => Panic nil_dereference
  | Some (PSource p s) => Ok (Some (PSource p (Seek k s)))
  | Some (PConcat p c) => Ok (Some (PConcat p (Seek k c)))
  | Some (PMerge p mi) => mi' <- mSeek k mi ;; Ok (Some (PMerge p mi'))
  end.

Definition node_next (n : node) : result node :=
  match iter n with
  | Some (PMerge p m) =>
      m' <- mNext m ;;
      node_setKey (mkNode (valid n) (key n) (Some (PMerge p m')))
  | Some (PConcat p c) =>
      node_setKey (mkNode (valid n) (key n) (Some (PConcat p (Next c))))
  | _ =>
      it' <- call_Next (iter n) ;;
      node_setKey (mkNode (valid n) (key n) it')
  end.

Definition node_rewind (n : node) : result node :=
  it' <- call_Rewind (iter n) ;;
  node_setKey (mkNode (valid n) (key n) it').

Definition node_seek (k : bytes) (n : node) : result node :=
  it' <- call_Seek k (iter n) ;;
  node_setKey (mkNode (valid n) (key n) it').

(** ** MergeIterator *)

Definition MergeIterator_swap (mi : MergeIterator) : MergeIterator :=
  mkMergeIterator (big mi) (small mi) (second mi) (reverse mi).

Definition with_small (mi : MergeIterator) (n : node) : MergeIterator :=
  mkMergeIterator n (big mi) (second mi) (reverse mi).

Definition with_big (mi : MergeIterator) (n : node) : MergeIterator :=
  mkMergeIterator (small mi) n (second mi) (reverse mi).

Definition with_iter (n : node) (it : y_Iterator) : node :=
  mkNode (valid n) (key n) it.

(** [mi.second.Next()]: the object [second] points to advances. The children
    are held by value, so the child that is this object is the one updated;
    an object that is neither child lies outside the node. *)
Definition second_Next (mi : MergeIterator) : result MergeIterator :=
  match second mi with
  | None => Panic nil_dereference
  | Some _ =>
      if same_object (second mi) (y_ptr (iter (small mi))) then
        it' <- call_Next (iter (small mi)) ;;
        Ok (with_small mi (with_iter (small mi) it'))
      else if same_object (second mi) (y_ptr (iter (big mi))) then
        it' <- call_Next (iter (big mi)) ;;
        Ok (with_big mi (with_iter (big mi) it'))
      else Ok mi
  end.

(** The [for mi.small.valid] loop of [fix] (lines 103 to 140), one budget
    unit per iteration. *)
Fixpoint fix_loop (fuel : nat) (mi : MergeIterator) : result MergeIterator :=
  match fuel with
  | O => OutOfFuel
  | S fuel' =>
      if valid (small mi) then
        let cmp := CompareKeys (key (small mi)) (key (big mi)) in
        if cmp =? 0 then
          mi1 <- second_Next mi ;;
          r <- (if same_object (second mi1) (y_ptr (iter (small mi1))) then
                  n <- node_setKey (small mi1) ;;
                  Ok (with_small mi1 n, valid n)
                else if same_object (second mi1) (y_ptr (iter (big mi1))) then
                  n <- node_setKey (big mi1) ;;
                  Ok (with_big mi1 n, valid n)
                else Panic second_invalid) ;;
          let (mi2, secondValid) := r in
          if negb secondValid then
            if same_object (second mi2) (y_ptr (iter (small mi2)))
               && valid (big mi2)
            then Ok (MergeIterator_swap mi2)
            else Ok mi2
          else fix_loop fuel' mi2
        else if reverse mi then
          if cmp <? 0 then Ok (MergeIterator_swap mi) else Ok mi
        else
          if cmp >? 0 then Ok (MergeIterator_swap mi) else Ok mi
      else Ok (MergeIterator_swap mi)
  end.

Definition MergeIterator_fix (fuel : nat) (mi : MergeIterator)
  : result MergeIterator :=
  if negb (valid (big mi)) then Ok mi else fix_loop fuel mi.

End Calls.

(** [Next]: the budget bounds the depth of the nested calls and the
    iterations of each [fix]. *)
Fixpoint MergeIterator_Next (fuel : nat) (mi : MergeIterator)
  : result MergeIterator :=
  match fuel with
  | O => OutOfFuel
  | S fuel' =>
      n <- node_next (MergeIterator_Next fuel') (small mi) ;;
      MergeIterator_fix (MergeIterator_Next fuel') fuel' (with_small mi n)
  end.

Fixpoint MergeIterator_Rewind (fuel : nat) (mi : MergeIterator)
  : result MergeIterator :=
  match fuel with
  | O => OutOfFuel
  | S fuel' =>
      s <- node_rewind (MergeIterator_Rewind fuel') (small mi) ;;
      b <- node_rewind (MergeIterator_Rewind fuel') (big mi) ;;
      MergeIterator_fix (MergeIterator_Next fuel') fuel'
        (mkMergeIterator s b (second mi) (reverse mi))
  end.

Fixpoint MergeIterator_Seek (fuel : nat) (k : bytes) (mi : MergeIterator)
  : result MergeIterator :=
  match fuel with
  | O => OutOfFuel
  | S fuel' =>
      s <- node_seek (MergeIterator_Seek fuel') k (small mi) ;;
      b <- node_seek (MergeIterator_Seek fuel') k (big mi) ;;
      MergeIterator_fix (MergeIterator_Next fuel') fuel'
        (mkMergeIterator s b (second mi) (reverse mi))
  end.

(** The interface calls on a whole tree. *)
Definition Next_at (fuel : nat) : y_Iterator -> result y_Iterator :=
  call_Next (MergeIterator_Next fuel).

Definition Rewind_at (fuel : nat) : y_Iterator -> result y_Iterator :=
  call_Rewind (MergeIterator_Rewind fuel).

Definition Seek_at (fuel : nat) : bytes -> y_Iterator -> result y_Iterator :=
  call_Seek (MergeIterator_Seek fuel).

(** [Value]: the value under the cursor of [small]'s iterator. *)
Fixpoint Iterator_Value (it : Iterator) : result ValueStruct :=
  match it with
  | PSource _ s => Ok (Value s)
  | PConcat _ c => Ok (Value c)
  | PMerge _ mi =>
      match iter (small mi) with
      | None => Panic nil_dereference
      | Some c => Iterator_Value c
      end
  end.

Definition call_Value (it : y_Iterator) : result ValueStruct :=
  match it with
  | None => Panic nil_dereference
  | Some i => Iterator_Value i
  end.

Definition MergeIterator_Value (mi : MergeIterator) : result ValueStruct :=
  call_Value (iter (small mi)).

(** [Close]: the answer is the error; the trace lists, in call order, the
    addresses of the iterators outside this file whose [Close] ran. *)
Fixpoint Iterator_Close (it : Iterator) : result (list ptr * error) :=
  match it with
  | PSource p s => Ok ([p], Close s)
  | PConcat p c => Ok ([p], Close c)
  | PMerge _ mi =>
      r1 <- match iter (small mi) with
            | None => Panic nil_dereference
            | Some c => Iterator_Close c
            end ;;
      r2 <- match iter (big mi) with
            | None => Panic nil_dereference
            | Some c => Iterator_Close c
            end ;;
      let (t1, err1) := r1 in
      let (t2, err2) := r2 in
      match err1 with
      | Some _ => Ok ((t1 ++ t2)%list, Wrap err1 "MergeIterator")
      | None => Ok ((t1 ++ t2)%list, Wrap err2 "MergeIterator")
      end
  end.

Definition call_Close (it : y_Iterator) : result (list ptr * error) :=
  match it with
  | None => Panic nil_dereference
  | Some i => Iterator_Close i
  end.

Definition MergeIterator_Close (mi : MergeIterator)
  : result (list ptr * error) :=
  r1 <- call_Close (iter (small mi)) ;;
  r2 <- call_Close (iter (big mi)) ;;
  let (t1, err1) := r1 in
  let (t2, err2) := r2 in
  match err1 with
  | Some _ => Ok ((t1 ++ t2)%list, Wrap err1 "MergeIterator")
  | None => Ok ((t1 ++ t2)%list, Wrap err2 "MergeIterator")
  end.

(** ** NewMergeIterator

    [&MergeIterator{...}] takes the next free address [next]; the answer
    carries the next free address after the call. The recursion is on the
    halves of the list: the budget is its length. *)
Fixpoint NewMergeIterator_rec (fuel : nat) (iters : list y_Iterator)
  (reverse : bool) (next : ptr) : y_Iterator * ptr :=
  match iters with
  | [] => (None, next)
  | [a] => (a, next)
  | [a; b] =>
      let mi := mkMergeIterator zero_node zero_node (y_ptr b) reverse in
      let mi := with_small mi (node_setIterator (small mi) a) in
      let mi := with_big mi (node_setIterator (big mi) b) in
      (Some (PMerge next mi), S next)
  | _ =>
      match fuel with
      | O => (None, next)
      | S fuel' =>
          let mid := Nat.div (List.length iters) 2 in
          let (l, next1) :=
            NewMergeIterator_rec fuel' (firstn mid iters) reverse next in
          let (r, next2) :=
            NewMergeIterator_rec fuel' (skipn mid iters) reverse next1 in
          NewMergeIterator_rec fuel' [l; r] reverse next2
      end
  end.

Definition NewMergeIterator (iters : list y_Iterator) (reverse : bool)
  (next : ptr) : y_Iterator * ptr :=
  NewMergeIterator_rec (List.length iters) iters reverse next.

(** ** The driver loop

    [for it.Rewind(); it.Valid(); it.Next()], collecting the key and the
    value at each position. *)
Fixpoint collect (steps fuel : nat) (it : y_Iterator) : result (list entry) :=
  match steps with
  | O => OutOfFuel
  | S steps' =>
      v <- call_Valid it ;;
      if v then
        k <- call_Key it ;;
        x <- call_Value it ;;
        it' <- Next_at fuel it ;;
        rest <- collect steps' fuel it' ;;
        Ok ((k, x) :: rest)
      else Ok []
  end.

Definition traverse (fuel : nat) (it : y_Iterator) : result (list entry) :=
  it0 <- Rewind_at fuel it ;;
  collect fuel fuel it0.

(** ** The generic path of [node]

    What [setKey] and [next] are without the two fast paths: every call goes
    through the interface. *)
Definition node_setKey_generic (n : node) : result node :=
  v <- call_Valid (iter n) ;;
  if v then k <- call_Key (iter n) ;; Ok (mkNode v k (iter n))
  else Ok (mkNode v (key n) (iter n)).

Definition node_next_generic (mNext : MergeIterator -> result MergeIterator)
  (n : node) : result node :=
  it' <- call_Next mNext (iter n) ;;
  node_setKey_generic (mkNode (valid n) (key n) it').

(** ** Invariants *)

(** [a] stands before [b] in the direction, strictly. *)
Definition before (rev : bool) (cmp : Z) : bool :=
  if rev then 0 <? cmp else cmp <? 0.

(** Invariant I1 of the specification. *)
Definition I1 (mi : MergeIterator) : Prop :=
  valid (small mi) = true -> valid (big mi) = true ->
  if reverse mi
  then CompareKeys (key (small mi)) (key (big mi)) >= 0
  else CompareKeys (key (small mi)) (key (big mi)) <= 0.

Definition I1_strict (mi : MergeIterator) : Prop :=
  valid (small mi) = true -> valid (big mi) = true ->
  if reverse mi
  then CompareKeys (key (small mi)) (key (big mi)) > 0
  else CompareKeys (key (small mi)) (key (big mi)) < 0.

(** [second] is one of the two children, at every node of the tree. *)
Definition second_is_child (mi : MergeIterator) : bool :=
  same_object (second mi) (y_ptr (iter (small mi)))
  || same_object (second mi) (y_ptr (iter (big mi))).

Inductive second_ok : Iterator -> Prop :=
| second_ok_source : forall p s, second_ok (PSource p s)
| second_ok_concat : forall p c, second_ok (PConcat p c)
| second_ok_merge : forall p mi,
    second_is_child mi = true ->
    (forall c, iter (small mi) = Some c -> second_ok c) ->
    (forall c, iter (big mi) = Some c -> second_ok c) ->
    second_ok (PMerge p mi).

Definition y_second_ok (it : y_Iterator) : Prop :=
  forall c, it = Some c -> second_ok c.

Definition children_ok (mi : MergeIterator) : Prop :=
  second_is_child mi = true
  /\ y_second_ok (iter (small mi)) /\ y_second_ok (iter (big mi)).

(** ** Streams

    The entries a positioned tree still has to yield. Two streams merge as
    [fix] merges its children: of two equal keys the one of the second stream
    is dropped, else the one that stands before the other comes first. *)
Fixpoint merge_streams (rev : bool) (F : list entry) : list entry -> list entry :=
  fix against (R : list entry) : list entry :=
    match F, R with
    | [], _ => R
    | _, [] => F
    | f :: F', r :: R' =>
        let cmp := CompareKeys (fst f) (fst r) in
        if cmp =? 0 then against R'
        else if before rev cmp then f :: merge_streams rev F' R
        else r :: against R'
    end.

Section Streams.

Variable of_source : Src -> list entry.
Variable of_concat : ConcatIterator -> list entry.

Fixpoint tree_stream (it : Iterator) : list entry :=
  match it with
  | PSource _ s => of_source s
  | PConcat _ c => of_concat c
  | PMerge _ mi =>
      match iter (small mi), iter (big mi) with
      | Some a, Some b =>
          if same_object (second mi) (Some (ptr_of a))
          then merge_streams (reverse mi) (tree_stream b) (tree_stream a)
          else merge_streams (reverse mi) (tree_stream a) (tree_stream b)
      | _, _ => []
      end
  end.

(** A budget that suffices for any call on the tree. *)
Fixpoint tree_weight (it : Iterator) : nat :=
  match it with
  | PSource _ s => List.length (of_source s)
  | PConcat _ c => List.length (of_concat c)
  | PMerge _ mi =>
      match iter (small mi), iter (big mi) with
      | Some a, Some b => S (S (tree_weight a + tree_weight b))
      | _, _ => O
      end
  end.

End Streams.

Context {SrcL : Lawful (I := SrcI)} {ConcatL : Lawful (I := ConcatI)}.

(** What remains from the current position on, and what a [Rewind] is
    followed by. *)
Definition istream : Iterator -> list entry := tree_stream stream stream.

Definition content : Iterator -> list entry :=
  tree_stream (fun s => stream (Rewind s)) (fun c => stream (Rewind c)).

Definition weight : Iterator -> nat := tree_weight stream stream.

Definition content_weight : Iterator -> nat :=
  tree_weight (fun s => stream (Rewind s)) (fun c => stream (Rewind c)).

(** A budget that suffices for [Seek] to [k]. *)
Definition sought_weight (k : bytes) : Iterator -> nat :=
  tree_weight (fun s => stream (Seek k s)) (fun c => stream (Seek k c)).

Definition nonempty (l : list entry) : bool :=
  match l with [] => false | _ :: _ => true end.

(** The cache of a node agrees with the position of its child. *)
Definition synced (n : node) (c : Iterator) : Prop :=
  iter n = Some c
  /\ valid n = match istream c with [] => false | _ :: _ => true end
  /\ forall e s, istream c = e :: s -> key n = fst e.

(** The shape [NewMergeIterator] builds: two distinct children, [second] one
    of them. *)
Inductive shaped : Iterator -> Prop :=
| shaped_source : forall p s, shaped (PSource p s)
| shaped_concat : forall p c, shaped (PConcat p c)
| shaped_merge : forall p mi a b,
    iter (small mi) = Some a -> iter (big mi) = Some b ->
    ptr_of a <> ptr_of b ->
    second mi = Some (ptr_of a) \/ second mi = Some (ptr_of b) ->
    shaped a -> shaped b ->
    shaped (PMerge p mi).

(** The state every public operation leaves the tree in. *)
Inductive positioned : Iterator -> Prop :=
| positioned_source : forall p s, positioned (PSource p s)
| positioned_concat : forall p c, positioned (PConcat p c)
| positioned_merge : forall p mi a b,
    ptr_of a <> ptr_of b ->
    second mi = Some (ptr_of a) \/ second mi = Some (ptr_of b) ->
    positioned a -> positioned b ->
    synced (small mi) a -> synced (big mi) b ->
    (valid (small mi) = false -> valid (big mi) = false) ->
    I1_strict mi ->
    positioned (PMerge p mi).

(** The two children a node is in step with, before [fix] has ordered them,
    and the stream the pair stands for. *)
Definition linked (mi : MergeIterator) (a b : Iterator) : Prop :=
  synced (small mi) a /\ synced (big mi) b
  /\ positioned a /\ positioned b
  /\ ptr_of a <> ptr_of b
  /\ (second mi = Some (ptr_of a) \/ second mi = Some (ptr_of b)).

Definition pair_stream (mi : MergeIterator) (a b : Iterator) : list entry :=
  if same_object (second mi) (Some (ptr_of a))
  then merge_streams (reverse mi) (istream b) (istream a)
  else merge_streams (reverse mi) (istream a) (istream b).

(** What the child [second] points to still has to yield. *)
Definition second_stream (mi : MergeIterator) (a b : Iterator) : list entry :=
  if same_object (second mi) (Some (ptr_of a)) then istream a else istream b.

(** ** Sources and what a traversal must yield *)

Definition is_source (it : y_Iterator) : Prop :=
  match it with
  | Some (PSource _ _) | Some (PConcat _ _) => True
  | _ => False
  end.

(** The entries of a source, in the order it yields them from [Rewind]. *)
Definition y_content (it : y_Iterator) : list entry :=
  match it with
  | Some i => content i
  | None => []
  end.

Definition y_ptrs (iters : list y_Iterator) : list ptr :=
  flat_map (fun it => match it with Some i => [ptr_of i] | None => [] end)
    iters.

(** Distinct source objects, allocated before the tree is built. *)
Definition sources (iters : list y_Iterator) (next : ptr) : Prop :=
  Forall is_source iters /\ NoDup (y_ptrs iters)
  /\ Forall (fun p => (p < next)%nat) (y_ptrs iters).

Definition key_le (rev : bool) (a b : bytes) : Prop :=
  if rev then CompareKeys a b >= 0 else CompareKeys a b <= 0.

Definition key_lt (rev : bool) (a b : bytes) : Prop :=
  before rev (CompareKeys a b) = true.

Definition entry_le (rev : bool) (e1 e2 : entry) : Prop :=
  key_le rev (fst e1) (fst e2).

Definition entry_lt (rev : bool) (e1 e2 : entry) : Prop :=
  key_lt rev (fst e1) (fst e2).

Definition same_key (k : bytes) (e : entry) : bool :=
  CompareKeys (fst e) k =? 0.

(** The entry for [k] of the earliest source of the list that has one. *)
Fixpoint first_entry (k : bytes) (streams : list (list entry))
  : option entry :=
  match streams with
  | [] => None
  | s :: rest =>
      match find (same_key k) s with
      | Some e => Some e
      | None => first_entry k rest
      end
  end.

(** ** The tree as a whole *)

(** The iterators under the tree that are no merge nodes, from [small] to
    [big] at every node; a nil child counts as one. *)
Fixpoint leaves (it : Iterator) : list y_Iterator :=
  match it with
  | PMerge _ mi =>
      (match iter (small mi) with Some a => leaves a | None => [None] end)
      ++ (match iter (big mi) with Some b => leaves b | None => [None] end)
  | _ => [Some it]
  end.

Definition y_leaves (it : y_Iterator) : list y_Iterator :=
  match it with
  | Some i => leaves i
  | None => [None]
  end.

(** The number of merge nodes above the deepest leaf. *)
Fixpoint depth (it : Iterator) : nat :=
  match it with
  | PMerge _ mi =>
      S (Nat.max
           (match iter (small mi) with Some a => depth a | None => O end)
           (match iter (big mi) with Some b => depth b | None => O end))
  | _ => O
  end.

(** What [Close] on a leaf answers. *)
Definition leaf_error (it : y_Iterator) : error :=
  match it with
  | Some (PSource _ s) => Close s
  | Some (PConcat _ c) => Close c
  | _ => None
  end.

(** The first non-nil error of a list. *)
Fixpoint first_error (errs : list error) : error :=
  match errs with
  | [] => None
  | Some e :: _ => Some e
  | None :: rest => first_error rest
  end.

(** [errors.Wrap(_, "MergeIterator")], [k] times. *)
Fixpoint wraps (k : nat) (e : string) : string :=
  match k with
  | O => e
  | S k' => ("MergeIterator" ++ ": " ++ wraps k' e)%string
  end.

(** The tree [NewMergeIterator] makes of a list of sources: a source for a
    list of one, else a fresh node over the trees of the two halves. *)
Inductive built (rev : bool) : list y_Iterator -> Iterator -> Prop :=
| built_source : forall it : Iterator,
    is_source (Some it) -> built rev [Some it] it
| built_merge : forall (l1 l2 : list y_Iterator) (t1 t2 : Iterator) (p : ptr),
    built rev l1 t1 -> built rev l2 t2 ->
    List.length l1 = Nat.div (List.length (l1 ++ l2)) 2 ->
    ptr_of t1 <> ptr_of t2 ->
    built rev (l1 ++ l2)
      (PMerge p
         (mkMergeIterator (mkNode false [] (Some t1))
            (mkNode false [] (Some t2)) (Some (ptr_of t2)) rev)).

(** The entries a source yields once [f] (or [g], for a [ConcatIterator]) has
    repositioned it: [Rewind] or [Seek]. *)
Definition y_moved (f : Src -> Src) (g : ConcatIterator -> ConcatIterator)
  (it : y_Iterator) : list entry :=
  match it with
  | Some i => tree_stream (fun s => stream (f s)) (fun c => stream (g c)) i
  | None => []
  end.

Definition y_sought (k : bytes) : y_Iterator -> list entry :=
  y_moved (Seek k) (Seek k).

(** [for it.Seek(k); it.Valid(); it.Next()], collecting the key and the value
    at each position. *)
Definition seek_traverse (fuel : nat) (k : bytes) (it : y_Iterator)
  : result (list entry) :=
  it0 <- Seek_at fuel k it ;;
  collect fuel fuel it0.


(** Two trees over the same objects: the same leaves and merge nodes at the
    same addresses, every node with its [second] and its [reverse], the two
    children of a node in either order. The positions of the leaves and the
    cached [valid] and [key] of the nodes are free. *)
Inductive same_tree : y_Iterator -> y_Iterator -> Prop :=
| same_nil : same_tree None None
| same_source : forall (p : ptr) (s s' : Src),
    same_tree (Some (PSource p s)) (Some (PSource p s'))
| same_concat : forall (p : ptr) (c c' : ConcatIterator),
    same_tree (Some (PConcat p c)) (Some (PConcat p c'))
| same_kept : forall (p : ptr) (mi mi' : MergeIterator),
    second mi' = second mi -> reverse mi' = reverse mi ->
    same_tree (iter (small mi)) (iter (small mi')) ->
    same_tree (iter (big mi)) (iter (big mi')) ->
    same_tree (Some (PMerge p mi)) (Some (PMerge p mi'))
| same_swapped : forall (p : ptr) (mi mi' : MergeIterator),
    second mi' = second mi -> reverse mi' = reverse mi ->
    same_tree (iter (small mi)) (iter (big mi')) ->
    same_tree (iter (big mi)) (iter (small mi')) ->
    same_tree (Some (PMerge p mi)) (Some (PMerge p mi')).

Definition y_depth (it : y_Iterator) : nat :=
  match it with
  | Some i => depth i
  | None => O
  end.


(** A tree in which a call that visits the leaves from left to right comes
    to a nil iterator before anything else can fail: what lies to the left of
    that leaf, under each node above it, is well formed. *)
Inductive reaches_nil : y_Iterator -> Prop :=
| reaches_nil_here : reaches_nil None
| reaches_nil_small : forall (p : ptr) (mi : MergeIterator),
    reaches_nil (iter (small mi)) -> reaches_nil (Some (PMerge p mi))
| reaches_nil_big : forall (p : ptr) (mi : MergeIterator) (a : Iterator),
    iter (small mi) = Some a -> shaped a -> reaches_nil (iter (big mi)) ->
    reaches_nil (Some (PMerge p mi)).

End Model.

(** ** A concrete instance *)

(** Modelled from the spec: [y.CompareKeys] is not in this file; section 6
    asks of it a total order on the raw bytes, of which the lexicographic
    order is the plainest. *)
Fixpoint bytes_Compare (a b : bytes) : Z :=
  match a, b with
  | [], [] => 0
  | [], _ :: _ => -1
  | _ :: _, [] => 1
  | x :: a', y :: b' =>
      match N.compare (Byte.to_N x) (Byte.to_N y) with
      | Lt => -1
      | Gt => 1
      | Eq => bytes_Compare a' b'
      end
  end.

(** Modelled from the spec: the leaf iterators are not in this file; section
    6 asks of a source that it is positioned on a sequence of entries held in
    traversal order: [Rewind] to its first entry, [Next] one entry on, [Seek]
    to the first entry at or after the key in the direction, [Close] with the
    error of the source. *)
Record Cursor : Type := mkCursor {
  entries : list (bytes * string);
  pos : nat;
  reversed : bool;
  close_error : error
}.

Fixpoint seek_index (k : bytes) (rev : bool) (l : list (bytes * string))
  : nat :=
  match l with
  | [] => O
  | e :: l' =>
      if (if rev then bytes_Compare (fst e) k <=? 0
          else bytes_Compare (fst e) k >=? 0)
      then O else S (seek_index k rev l')
  end.

#[export] Instance Cursor_YIterator : YIterator string Cursor := {
  Next c := mkCursor (entries c) (S (pos c)) (reversed c) (close_error c);
  Rewind c := mkCursor (entries c) O (reversed c) (close_error c);
  Seek k c :=
    mkCursor (entries c) (seek_index k (reversed c) (entries c))
      (reversed c) (close_error c);
  Valid c := Nat.ltb (pos c) (List.length (entries c));
  Key c := fst (nth (pos c) (entries c) ([], EmptyString));
  Value c := snd (nth (pos c) (entries c) ([], EmptyString));
  Close c := close_error c
}.

Definition bs (s : string) : bytes := list_byte_of_string s.

(** A forward source at address [p] holding [keys], each with value [tag]. *)
Definition source (p : ptr) (tag : string) (rev : bool) (keys : list string)
  : y_Iterator (Src := Cursor) (ConcatIterator := Cursor) :=
  Some (PSource p (mkCursor (map (fun k => (bs k, tag)) keys) O rev None)).

(** What a cursor still has to yield. *)
Definition Cursor_stream (c : Cursor) : list (bytes * string) :=
  skipn (pos c) (entries c).

#[export] Instance Cursor_Lawful : Lawful (I := Cursor_YIterator).
Proof.
  refine {| stream := Cursor_stream |}.
  - intros [l n r e]. unfold Cursor_stream; simpl.
    revert n. induction l as [ | x l IH]; intros [ | n]; try reflexivity.
    apply (IH n).
  - intros [l n r e0] e s. unfold Cursor_stream; simpl.
    revert n. induction l as [ | x l IH]; intros [ | n] H; simpl in *;
      try discriminate.
    + inversion H; reflexivity.
    + apply (IH n H).
  - intros [l n r e0] e s. unfold Cursor_stream; simpl.
    revert n. induction l as [ | x l IH]; intros [ | n] H; simpl in *;
      try discriminate.
    + inversion H; reflexivity.
    + apply (IH n H).
  - intros [l n r e0] e s. unfold Cursor_stream; simpl.
    revert n. induction l as [ | x l IH]; intros [ | n] H; simpl in *;
      try discriminate.
    + inversion H; reflexivity.
    + apply (IH n H).
Defined.

(** ** Example trees

    The sources of the examples of section 8, and nodes standing on them. *)
Local Open Scope string_scope.

Definition tree : Type := y_Iterator (Src := Cursor) (ConcatIterator := Cursor).

Definition example_A : tree := source 1%nat "A" false ["a"; "b"; "d"].
Definition example_B : tree := source 2%nat "B" false ["b"; "c"].
Definition example_C : tree := source 3%nat "C" false ["b"; "e"].

(** The node [NewMergeIterator] builds of the two sources. *)
Definition example_fresh : MergeIterator_ (Iterator (Src := Cursor)
                                            (ConcatIterator := Cursor)) :=
  mkMergeIterator (mkNode false [] example_A) (mkNode false [] example_B)
    (y_ptr example_B) false.

(** Two children standing on the same key "b", each node in step with its
    child, before [fix] has run. *)
Definition example_left : Iterator (Src := Cursor) (ConcatIterator := Cursor) :=
  PSource 1%nat
    (mkCursor [(bs "a", "A"); (bs "b", "A"); (bs "d", "A")] 1%nat false None).

Definition example_right : Iterator (Src := Cursor) (ConcatIterator := Cursor) :=
  PSource 2%nat (mkCursor [(bs "b", "B"); (bs "c", "B")] 0%nat false None).

Definition example_equal : MergeIterator_ (Iterator (Src := Cursor)
                                            (ConcatIterator := Cursor)) :=
  mkMergeIterator (mkNode true (bs "b") (Some example_left))
    (mkNode true (bs "b") (Some example_right)) (Some 2%nat) false.

(** The same, with a [second] that is neither child. *)
Definition example_stray : MergeIterator_ (Iterator (Src := Cursor)
                                            (ConcatIterator := Cursor)) :=
  mkMergeIterator (mkNode true (bs "b") (Some example_left))
    (mkNode true (bs "b") (Some example_right)) (Some 7%nat) false.

(** Two children whose [Close] fails, resp. succeeds. *)
Definition example_closing : MergeIterator_ (Iterator (Src := Cursor)
                                              (ConcatIterator := Cursor)) :=
  mkMergeIterator
    (mkNode false []
       (Some (PSource 1%nat (mkCursor [] 0%nat false (Some "disk"%string)))))
    (mkNode false [] (Some (PSource 2%nat (mkCursor [] 0%nat false None))))
    (Some 2%nat) false.

(** The node of the two sources as [Rewind] leaves it, at an address. *)
Definition example_placed : Iterator (Src := Cursor) (ConcatIterator := Cursor) :=
  PMerge 10%nat
    (mkMergeIterator
       (mkNode true (bs "a")
          (Some (PSource 1%nat
                   (mkCursor [(bs "a", "A"); (bs "b", "A"); (bs "d", "A")]
                      0%nat false None))))
       (mkNode true (bs "b") (Some example_right)) (Some 2%nat) false).

(** The fresh node of the two sources, at an address. *)
Definition example_tree : Iterator (Src := Cursor) (ConcatIterator := Cursor) :=
  PMerge 10%nat example_fresh.

(** A list with a nil iterator between two sources. *)
Definition example_holed : list tree := [example_A; None; example_C].

Local Close Scope string_scope.

(** * Properties *)

Unset Implicit Arguments.

Section Theory.

Context {ValueStruct Src ConcatIterator : Type}.
Context {SrcI : YIterator ValueStruct Src}.
Context {ConcatI : YIterator ValueStruct ConcatIterator}.
Variable CompareKeys : bytes -> bytes -> Z.

Notation Iterator := (@Iterator Src ConcatIterator).
Notation MergeIterator := (@MergeIterator Src ConcatIterator).
Notation node := (@node Src ConcatIterator).
Notation y_Iterator := (@y_Iterator Src ConcatIterator).

Lemma bind_Ok : forall (A B : Type) (r : result A) (k : A -> result B) b,
  bind r k = Ok b -> exists a, r = Ok a /\ k a = Ok b.
Proof.
  intros A B [a | m | ] k b H; simpl in H; try discriminate.
  exists a; split; [reflexivity | exact H].
Qed.

Lemma bind_Panic : forall (A B : Type) (r : result A) (k : A -> result B) m,
  bind r k = Panic m ->
  r = Panic m \/ exists a, r = Ok a /\ k a = Panic m.
Proof.
  intros A B [a | m' | ] k m H; simpl in H; try discriminate.
  - right; exists a; split; [reflexivity | exact H].
  - left; inversion H; reflexivity.
Qed.

Ltac inv_bind H :=
  let a := fresh "a" in
  let Ha := fresh "Ha" in
  apply bind_Ok in H; destruct H as [a [Ha H]].

Lemma same_object_refl : forall p, same_object p p = true.
Proof. intros [p | ]; simpl; [apply Nat.eqb_refl | reflexivity]. Qed.

(** ** The fast paths of [node] *)

Lemma node_setKey_fast : forall n : node,
  node_setKey n = node_setKey_generic n.
Proof.
  intros [v k [[p s | p c | p m] | ]];
    unfold node_setKey, node_setKey_generic, node_merge, node_concat; simpl;
    try reflexivity.
  - destruct (Valid c); reflexivity.
  - unfold MergeIterator_Valid, MergeIterator_Key.
    destruct (valid (small m)); reflexivity.
Qed.

Lemma node_next_call :
  forall (mNext : MergeIterator -> result MergeIterator) (n : node),
    node_next mNext n
    = (it' <- call_Next mNext (iter n) ;;
       node_setKey (mkNode (valid n) (key n) it')).
Proof.
  intros mNext [v k [[p s | p c | p m] | ]]; unfold node_next; simpl;
    try reflexivity.
  destruct (mNext m); reflexivity.
Qed.

Lemma node_next_fast :
  forall (mNext : MergeIterator -> result MergeIterator) (n : node),
    node_next mNext n = node_next_generic mNext n.
Proof.
  intros mNext n. rewrite node_next_call. unfold node_next_generic.
  destruct (call_Next mNext (iter n)); simpl;
    [apply node_setKey_fast | reflexivity ..].
Qed.

(** C8. The fast paths of [node] are an optimisation only: for every child,
    [setKey] caches the validity and the key that the calls through the
    interface give, and [next] moves the child to the position the call
    through the interface moves it to. *)
Theorem node_fast_path_generic :
  forall (mNext : MergeIterator -> result MergeIterator) (n : node),
    node_setKey n = node_setKey_generic n
    /\ node_next mNext n = node_next_generic mNext n.
Proof.
  intros mNext n. split; [apply node_setKey_fast | apply node_next_fast].
Qed.

(** ** The order of the two nodes after [fix] *)

Lemma setKey_iter : forall n n' : node,
  node_setKey n = Ok n' -> iter n' = iter n.
Proof.
  intros n n' H. rewrite node_setKey_fast in H.
  unfold node_setKey_generic in H. inv_bind H.
  destruct a; [inv_bind H | ]; inversion H; reflexivity.
Qed.

Section OneNode.

Variable mNext : MergeIterator -> result MergeIterator.

Lemma fix_loop_strict `{KeyOrder CompareKeys} :
  forall fuel (mi mi' : MergeIterator),
    fix_loop CompareKeys mNext fuel mi = Ok mi' -> I1_strict CompareKeys mi'.
Proof.
  induction fuel as [ | fuel IH]; intros mi mi' Hfix; simpl in Hfix;
    [discriminate | ].
  destruct (valid (small mi)) eqn:Hs.
  - destruct (CompareKeys (key (small mi)) (key (big mi)) =? 0) eqn:Hc.
    + inv_bind Hfix. rename a into mi1. inv_bind Hfix.
      destruct a as [mi2 secondValid].
      destruct secondValid; simpl in Hfix; [eapply IH; eassumption | ].
      assert (Hinv : valid (small mi2) = false \/
                     (same_object (second mi2) (y_ptr (iter (small mi2)))
                        = false /\ valid (big mi2) = false)).
      { destruct (same_object (second mi1) (y_ptr (iter (small mi1)))) eqn:E1.
        - inv_bind Ha0. injection Ha0 as Hmi Hv. subst mi2. left. exact Hv.
        - destruct (same_object (second mi1) (y_ptr (iter (big mi1)))) eqn:E2;
            [ | discriminate].
          inv_bind Ha0. injection Ha0 as Hmi Hv. subst mi2. right.
          simpl. split; [exact E1 | exact Hv]. }
      intros Hv1 Hv2.
      destruct (same_object (second mi2) (y_ptr (iter (small mi2)))) eqn:E;
        simpl in Hfix.
      * destruct (valid (big mi2)) eqn:Hb; inversion Hfix; subst;
          simpl in *; destruct Hinv as [? | [? ?]]; congruence.
      * inversion Hfix; subst.
        destruct Hinv as [? | [? ?]]; congruence.
    + apply Z.eqb_neq in Hc. intros Hv1 Hv2.
      destruct (reverse mi) eqn:Hr.
      * destruct (CompareKeys (key (small mi)) (key (big mi)) <? 0) eqn:Hlt;
          inversion Hfix; subst; simpl; rewrite Hr.
        -- apply Z.ltb_lt in Hlt. apply cmp_flip. exact Hlt.
        -- apply Z.ltb_ge in Hlt. lia.
      * destruct (CompareKeys (key (small mi)) (key (big mi)) >? 0) eqn:Hgt;
          inversion Hfix; subst; simpl; rewrite Hr.
        -- apply Z.gtb_lt in Hgt. apply cmp_flip. lia.
        -- rewrite Z.gtb_ltb in Hgt. apply Z.ltb_ge in Hgt. lia.
  - inversion Hfix; subst. intros Hv1 Hv2. simpl in Hv2. congruence.
Qed.

Lemma fix_strict `{KeyOrder CompareKeys} :
  forall fuel (mi mi' : MergeIterator),
    MergeIterator_fix CompareKeys mNext fuel mi = Ok mi' ->
    I1_strict CompareKeys mi'.
Proof.
  intros fuel mi mi' Hfix. unfold MergeIterator_fix in Hfix.
  destruct (valid (big mi)) eqn:Hb; simpl in Hfix.
  - eapply fix_loop_strict; eassumption.
  - inversion Hfix; subst. intros _ Hv. congruence.
Qed.

End OneNode.

Lemma I1_strict_I1 : forall mi : MergeIterator,
  I1_strict CompareKeys mi -> I1 CompareKeys mi.
Proof.
  intros mi H Hs Hb. specialize (H Hs Hb).
  destruct (reverse mi); lia.
Qed.

(** C10. Whenever [fix] returns with both nodes valid, their keys are
    strictly ordered, never equal: the small one strictly below the big one
    in forward mode, strictly above it in reverse mode. *)
Theorem fix_leaves_keys_strictly_ordered :
  forall (Hord : KeyOrder CompareKeys)
    (mNext : MergeIterator -> result MergeIterator) (fuel : nat)
    (mi mi' : MergeIterator),
    MergeIterator_fix CompareKeys mNext fuel mi = Ok mi' ->
    valid (small mi') = true -> valid (big mi') = true ->
    (reverse mi' = false ->
       CompareKeys (key (small mi')) (key (big mi')) < 0)
    /\ (reverse mi' = true ->
       CompareKeys (key (small mi')) (key (big mi')) > 0).
Proof.
  intros Hord mNext fuel mi mi' Hfix Hs Hb.
  pose proof (fix_strict mNext _ _ _ Hfix Hs Hb) as H.
  split; intro Hr; rewrite Hr in H; exact H.
Qed.

Lemma public_operations_keep_I1 `{KeyOrder CompareKeys} :
  forall (fuel : nat) (mi mi' : MergeIterator),
    (MergeIterator_Rewind CompareKeys fuel mi = Ok mi'
     \/ (exists k, MergeIterator_Seek CompareKeys fuel k mi = Ok mi')
     \/ MergeIterator_Next CompareKeys fuel mi = Ok mi') ->
    I1 CompareKeys mi'.
Proof.
  intros fuel mi mi' Hop.
  apply I1_strict_I1.
  destruct fuel as [ | fuel];
    [simpl in Hop; destruct Hop as [H0 | [[k H0] | H0]]; discriminate | ].
  destruct Hop as [H0 | [[k H0] | H0]]; simpl in H0.
  - inv_bind H0. inv_bind H0. eapply fix_strict; eassumption.
  - inv_bind H0. inv_bind H0. eapply fix_strict; eassumption.
  - inv_bind H0. eapply fix_strict; eassumption.
Qed.

(** ** The assertion of [fix] *)

Lemma call_Next_ptr :
  forall (mNext : MergeIterator -> result MergeIterator) (it it' : y_Iterator),
    call_Next mNext it = Ok it' -> y_ptr it' = y_ptr it.
Proof.
  intros mNext [[p s | p c | p m] | ] it' H; simpl in H;
    try discriminate; try (inversion H; reflexivity).
  inv_bind H. inversion H; reflexivity.
Qed.

Lemma fix_mismatch_panics :
  forall (mNext : MergeIterator -> result MergeIterator) (fuel : nat)
    (mi : MergeIterator),
    valid (big mi) = true -> valid (small mi) = true ->
    CompareKeys (key (small mi)) (key (big mi)) = 0 ->
    second_is_child mi = false ->
    MergeIterator_fix CompareKeys mNext (S fuel) mi
    = Panic (match second mi with
             | Some _ => second_invalid
             | None => nil_dereference
             end).
Proof.
  intros mNext fuel mi Hb Hs Hc Hsec.
  unfold second_is_child in Hsec. apply orb_false_elim in Hsec.
  destruct Hsec as [H1 H2].
  unfold MergeIterator_fix. rewrite Hb. simpl. rewrite Hs, Hc. simpl.
  unfold second_Next. destruct (second mi) eqn:E; [ | reflexivity].
  rewrite H1, H2. simpl. rewrite E, H1, H2. reflexivity.
Qed.

Section SecondIsChild.

Variable mNext : MergeIterator -> result MergeIterator.
Hypothesis mNext_ok : forall (mi mi' : MergeIterator) p,
  second_ok (PMerge p mi) -> mNext mi = Ok mi' -> second_ok (PMerge p mi').
Hypothesis mNext_no_assert : forall (mi : MergeIterator) p,
  second_ok (PMerge p mi) -> mNext mi <> Panic second_invalid.

Lemma call_Next_second_ok : forall it it' : y_Iterator,
  y_second_ok it -> call_Next mNext it = Ok it' -> y_second_ok it'.
Proof.
  intros [[p s | p c | p m] | ] it' Hok H; simpl in H; try discriminate.
  - inversion H; subst. intros c Hc; inversion Hc; constructor.
  - inversion H; subst. intros c' Hc; inversion Hc; constructor.
  - inv_bind H. inversion H; subst. intros c Hc; inversion Hc; subst.
    eapply mNext_ok; [apply Hok; reflexivity | eassumption].
Qed.

Lemma call_Next_no_assert : forall it : y_Iterator,
  y_second_ok it -> call_Next mNext it <> Panic second_invalid.
Proof.
  intros [[p s | p c | p m] | ] Hok H; simpl in H; try discriminate.
  apply bind_Panic in H. destruct H as [H | [a [_ H]]]; [ | discriminate].
  eapply mNext_no_assert; [apply Hok; reflexivity | eassumption].
Qed.

Lemma setKey_no_assert : forall n : node,
  node_setKey n <> Panic second_invalid.
Proof.
  intros [v k [[p s | p c | p m] | ]];
    unfold node_setKey, node_merge, node_concat; simpl; try discriminate.
  destruct (Valid s); simpl; discriminate.
Qed.

Lemma second_ok_children : forall p (mi : MergeIterator),
  second_ok (PMerge p mi) <-> children_ok mi.
Proof.
  intros p mi; split.
  - intro H; inversion H; subst. repeat split; assumption.
  - intros [H1 [H2 H3]]. constructor; assumption.
Qed.

Lemma swap_children_ok : forall mi : MergeIterator,
  children_ok mi -> children_ok (MergeIterator_swap mi).
Proof.
  intros mi [H1 [H2 H3]]. unfold children_ok, second_is_child in *; simpl.
  rewrite orb_comm. tauto.
Qed.

Lemma with_small_children_ok : forall (mi : MergeIterator) (n : node),
  children_ok mi -> y_ptr (iter n) = y_ptr (iter (small mi)) ->
  y_second_ok (iter n) -> children_ok (with_small mi n).
Proof.
  intros mi n [H1 [H2 H3]] Hp Hn.
  unfold children_ok, second_is_child in *; simpl. rewrite Hp. tauto.
Qed.

Lemma with_big_children_ok : forall (mi : MergeIterator) (n : node),
  children_ok mi -> y_ptr (iter n) = y_ptr (iter (big mi)) ->
  y_second_ok (iter n) -> children_ok (with_big mi n).
Proof.
  intros mi n [H1 [H2 H3]] Hp Hn.
  unfold children_ok, second_is_child in *; simpl. rewrite Hp. tauto.
Qed.

Lemma second_Next_children_ok : forall mi mi' : MergeIterator,
  children_ok mi -> second_Next mNext mi = Ok mi' -> children_ok mi'.
Proof.
  intros mi mi' Hok H. unfold second_Next in H.
  pose proof Hok as [Hc [Hs Hb]].
  destruct (second mi); [ | discriminate].
  destruct (same_object _ _).
  - inv_bind H. inversion H; subst.
    apply with_small_children_ok; simpl; trivial.
    + eapply call_Next_ptr; eassumption.
    + eapply call_Next_second_ok; [exact Hs | eassumption].
  - destruct (same_object _ _).
    + inv_bind H. inversion H; subst.
      apply with_big_children_ok; simpl; trivial.
      * eapply call_Next_ptr; eassumption.
      * eapply call_Next_second_ok; [exact Hb | eassumption].
    + inversion H; subst; exact Hok.
Qed.

Lemma second_Next_no_assert : forall mi : MergeIterator,
  children_ok mi -> second_Next mNext mi <> Panic second_invalid.
Proof.
  intros mi Hok H. unfold second_Next in H.
  pose proof Hok as [Hc [Hs Hb]].
  destruct (second mi); [ | discriminate].
  destruct (same_object _ _).
  - apply bind_Panic in H. destruct H as [H | [a [_ H]]]; [ | discriminate].
    eapply call_Next_no_assert; [exact Hs | eassumption].
  - destruct (same_object _ _); [ | discriminate].
    apply bind_Panic in H. destruct H as [H | [a [_ H]]]; [ | discriminate].
    eapply call_Next_no_assert; [exact Hb | eassumption].
Qed.

Lemma fix_loop_children_ok : forall fuel (mi : MergeIterator),
  children_ok mi ->
  fix_loop CompareKeys mNext fuel mi <> Panic second_invalid
  /\ forall mi', fix_loop CompareKeys mNext fuel mi = Ok mi' -> children_ok mi'.
Proof.
  induction fuel as [ | fuel IH]; intros mi Hok; simpl;
    [split; [discriminate | intros; discriminate] | ].
  destruct (valid (small mi));
    [ | split; [discriminate | ];
        intros mi' H; inversion H; subst; apply swap_children_ok, Hok].
  destruct (CompareKeys (key (small mi)) (key (big mi)) =? 0).
  - destruct (second_Next mNext mi) as [mi1 | m | ] eqn:E1; simpl;
      [ | split; [ | intros; discriminate] .. ].
    + pose proof (second_Next_children_ok _ _ Hok E1) as Hok1.
      destruct Hok1 as [Hc1 [Hs1 Hb1]].
      unfold second_is_child in Hc1.
      destruct (same_object (second mi1) (y_ptr (iter (small mi1)))) eqn:E2.
      * destruct (node_setKey (small mi1)) as [n | m | ] eqn:E3; simpl;
          [ | split; [ | intros; discriminate] .. ].
        -- assert (Hok2 : children_ok (with_small mi1 n)).
           { pose proof (setKey_iter _ _ E3) as Hi.
             apply with_small_children_ok;
               [repeat split; trivial; unfold second_is_child;
                rewrite E2; reflexivity | rewrite Hi; reflexivity
               | rewrite Hi; exact Hs1]. }
           destruct (valid n); simpl; [apply IH, Hok2 | ].
           rewrite (setKey_iter _ _ E3), E2. simpl.
           split; [destruct (valid (big mi1)); discriminate | ].
           intros mi' H.
           destruct (valid (big mi1)); inversion H; subst;
             [apply swap_children_ok | ]; exact Hok2.
        -- intro H; inversion H. eapply setKey_no_assert.
           rewrite E3, H1. reflexivity.
        -- discriminate.
      * simpl in Hc1. rewrite Hc1.
        destruct (node_setKey (big mi1)) as [n | m | ] eqn:E3; simpl;
          [ | split; [ | intros; discriminate] .. ].
        -- assert (Hok2 : children_ok (with_big mi1 n)).
           { pose proof (setKey_iter _ _ E3) as Hi.
             apply with_big_children_ok;
               [repeat split; trivial; unfold second_is_child;
                rewrite E2, Hc1; reflexivity | rewrite Hi; reflexivity
               | rewrite Hi; exact Hb1]. }
           destruct (valid n); simpl; [apply IH, Hok2 | ].
           rewrite E2. simpl.
           split; [discriminate | ].
           intros mi' H. inversion H; subst. exact Hok2.
        -- intro H; inversion H. eapply setKey_no_assert.
           rewrite E3, H1. reflexivity.
        -- discriminate.
    + intro H. eapply second_Next_no_assert; [exact Hok | ].
      rewrite E1. exact H.
    + discriminate.
  - destruct (reverse mi).
    + destruct (_ <? 0); split; try discriminate;
        intros mi' H; inversion H; subst;
        [apply swap_children_ok | ]; exact Hok.
    + destruct (_ >? 0); split; try discriminate;
        intros mi' H; inversion H; subst;
        [apply swap_children_ok | ]; exact Hok.
Qed.

Lemma fix_children_ok : forall fuel (mi : MergeIterator),
  children_ok mi ->
  MergeIterator_fix CompareKeys mNext fuel mi <> Panic second_invalid
  /\ forall mi',
       MergeIterator_fix CompareKeys mNext fuel mi = Ok mi' -> children_ok mi'.
Proof.
  intros fuel mi Hok. unfold MergeIterator_fix.
  destruct (valid (big mi)); simpl; [apply fix_loop_children_ok, Hok | ].
  split; [discriminate | intros mi' H; inversion H; subst; exact Hok].
Qed.

End SecondIsChild.

Lemma call_second_ok :
  forall (m : MergeIterator -> result MergeIterator)
    (f : Src -> Src) (g : ConcatIterator -> ConcatIterator)
    (call : y_Iterator -> result y_Iterator),
    (forall (mi mi' : MergeIterator) p,
       second_ok (PMerge p mi) -> m mi = Ok mi' -> second_ok (PMerge p mi')) ->
    (forall (mi : MergeIterator) p,
       second_ok (PMerge p mi) -> m mi <> Panic second_invalid) ->
    (forall it, call it = match it with
                          | None => Panic nil_dereference
                          | Some (PSource p s) => Ok (Some (PSource p (f s)))
                          | Some (PConcat p c) => Ok (Some (PConcat p (g c)))
                          | Some (PMerge p mi) =>
                              mi' <- m mi ;; Ok (Some (PMerge p mi'))
                          end) ->
    forall (n : node), y_second_ok (iter n) ->
    (it' <- call (iter n) ;; node_setKey (mkNode (valid n) (key n) it'))
      <> Panic second_invalid
    /\ forall n',
         (it' <- call (iter n) ;; node_setKey (mkNode (valid n) (key n) it'))
           = Ok n' ->
         y_ptr (iter n') = y_ptr (iter n) /\ y_second_ok (iter n').
Proof.
  intros m f g call Hok Hno Hcall n Hn. rewrite Hcall.
  destruct (iter n) as [[p s | p c | p mi] | ] eqn:E; simpl.
  - split; [apply setKey_no_assert | ].
    intros n' H. apply setKey_iter in H. rewrite H; simpl.
    split; [reflexivity | intros c Hc; inversion Hc; constructor].
  - split; [apply setKey_no_assert | ].
    intros n' H. apply setKey_iter in H. rewrite H; simpl.
    split; [reflexivity | intros c' Hc; inversion Hc; constructor].
  - assert (Hmi : second_ok (PMerge p mi)) by (apply Hn; reflexivity).
    destruct (m mi) as [mi' | msg | ] eqn:Em; simpl.
    + split; [apply setKey_no_assert | ].
      intros n' H. apply setKey_iter in H. rewrite H; simpl.
      split; [reflexivity | ].
      intros c Hc; inversion Hc; subst. eapply Hok; eassumption.
    + split; [ | intros; discriminate].
      intro H; inversion H; subst. eapply Hno; eassumption.
    + split; [discriminate | intros; discriminate].
  - split; [discriminate | intros; discriminate].
Qed.

Lemma Next_second_ok : forall fuel p (mi : MergeIterator),
  second_ok (PMerge p mi) ->
  MergeIterator_Next CompareKeys fuel mi <> Panic second_invalid
  /\ forall mi',
       MergeIterator_Next CompareKeys fuel mi = Ok mi' ->
       second_ok (PMerge p mi').
Proof.
  induction fuel as [ | fuel IH]; intros p mi Hok; simpl;
    [split; [discriminate | intros; discriminate] | ].
  assert (Hm1 : forall (mi mi' : MergeIterator) p, second_ok (PMerge p mi) ->
                  MergeIterator_Next CompareKeys fuel mi = Ok mi' ->
                  second_ok (PMerge p mi'))
    by (intros m m' q Hq; apply (IH q m Hq)).
  assert (Hm2 : forall (mi : MergeIterator) p, second_ok (PMerge p mi) ->
                  MergeIterator_Next CompareKeys fuel mi
                  <> Panic second_invalid)
    by (intros m q Hq; apply (IH q m Hq)).
  apply second_ok_children in Hok. pose proof Hok as [Hc [Hs Hb]].
  destruct (call_second_ok (MergeIterator_Next CompareKeys fuel) Next Next
              (call_Next (MergeIterator_Next CompareKeys fuel))
              Hm1 Hm2 (fun it => eq_refl) (small mi) Hs) as [Hn1 Hn2].
  rewrite node_next_call.
  destruct (it' <- call_Next _ (iter (small mi)) ;; _) as [n | msg | ] eqn:E;
    simpl.
  - destruct (Hn2 n eq_refl) as [Hp Hy].
    pose proof (with_small_children_ok _ _ Hok Hp Hy) as Hok'.
    destruct (fix_children_ok _ Hm1 Hm2 fuel _ Hok') as [Hf1 Hf2].
    split; [exact Hf1 | ].
    intros mi' H. apply second_ok_children. apply Hf2. exact H.
  - split; [ | intros; discriminate].
    intro H; inversion H; subst. apply Hn1; reflexivity.
  - split; [discriminate | intros; discriminate].
Qed.

Lemma Rewind_second_ok : forall fuel p (mi : MergeIterator),
  second_ok (PMerge p mi) ->
  MergeIterator_Rewind CompareKeys fuel mi <> Panic second_invalid
  /\ forall mi',
       MergeIterator_Rewind CompareKeys fuel mi = Ok mi' ->
       second_ok (PMerge p mi').
Proof.
  induction fuel as [ | fuel IH]; intros p mi Hok; simpl;
    [split; [discriminate | intros; discriminate] | ].
  assert (Hm1 : forall (mi mi' : MergeIterator) p, second_ok (PMerge p mi) ->
                  MergeIterator_Rewind CompareKeys fuel mi = Ok mi' ->
                  second_ok (PMerge p mi'))
    by (intros m m' q Hq; apply (IH q m Hq)).
  assert (Hm2 : forall (mi : MergeIterator) p, second_ok (PMerge p mi) ->
                  MergeIterator_Rewind CompareKeys fuel mi
                  <> Panic second_invalid)
    by (intros m q Hq; apply (IH q m Hq)).
  apply second_ok_children in Hok. pose proof Hok as [Hc [Hs Hb]].
  pose proof (call_second_ok (MergeIterator_Rewind CompareKeys fuel)
                Rewind Rewind
                (call_Rewind (MergeIterator_Rewind CompareKeys fuel))
                Hm1 Hm2 (fun it => eq_refl)) as Hcall.
  destruct (Hcall (small mi) Hs) as [Hs1 Hs2].
  destruct (Hcall (big mi) Hb) as [Hb1 Hb2].
  unfold node_rewind.
  destruct (it' <- call_Rewind _ (iter (small mi)) ;; _)
    as [s | msg | ] eqn:Es; simpl.
  - destruct (it' <- call_Rewind _ (iter (big mi)) ;; _)
      as [b | msg | ] eqn:Eb; simpl.
    + destruct (Hs2 s eq_refl) as [Hps Hys].
      destruct (Hb2 b eq_refl) as [Hpb Hyb].
      assert (Hok' : children_ok
                       (mkMergeIterator s b (second mi) (reverse mi))).
      { unfold children_ok, second_is_child in *; simpl.
        rewrite Hps, Hpb. tauto. }
      destruct (fix_children_ok _
                  (fun m m' q Hq => proj2 (Next_second_ok fuel q m Hq) m')
                  (fun m q Hq => proj1 (Next_second_ok fuel q m Hq))
                  fuel _ Hok') as [Hf1 Hf2].
      split; [exact Hf1 | ].
      intros mi' H. apply second_ok_children. apply Hf2. exact H.
    + split; [ | intros; discriminate].
      intro H; inversion H; subst. apply Hb1; reflexivity.
    + split; [discriminate | intros; discriminate].
  - split; [ | intros; discriminate].
    intro H; inversion H; subst. apply Hs1; reflexivity.
  - split; [discriminate | intros; discriminate].
Qed.

Lemma Seek_second_ok : forall fuel k p (mi : MergeIterator),
  second_ok (PMerge p mi) ->
  MergeIterator_Seek CompareKeys fuel k mi <> Panic second_invalid
  /\ forall mi',
       MergeIterator_Seek CompareKeys fuel k mi = Ok mi' ->
       second_ok (PMerge p mi').
Proof.
  induction fuel as [ | fuel IH]; intros k p mi Hok; simpl;
    [split; [discriminate | intros; discriminate] | ].
  assert (Hm1 : forall (mi mi' : MergeIterator) p, second_ok (PMerge p mi) ->
                  MergeIterator_Seek CompareKeys fuel k mi = Ok mi' ->
                  second_ok (PMerge p mi'))
    by (intros m m' q Hq; apply (IH k q m Hq)).
  assert (Hm2 : forall (mi : MergeIterator) p, second_ok (PMerge p mi) ->
                  MergeIterator_Seek CompareKeys fuel k mi
                  <> Panic second_invalid)
    by (intros m q Hq; apply (IH k q m Hq)).
  apply second_ok_children in Hok. pose proof Hok as [Hc [Hs Hb]].
  pose proof (call_second_ok (MergeIterator_Seek CompareKeys fuel k)
                (Seek k) (Seek k)
                (call_Seek (MergeIterator_Seek CompareKeys fuel) k)
                Hm1 Hm2 (fun it => eq_refl)) as Hcall.
  destruct (Hcall (small mi) Hs) as [Hs1 Hs2].
  destruct (Hcall (big mi) Hb) as [Hb1 Hb2].
  unfold node_seek.
  destruct (it' <- call_Seek _ k (iter (small mi)) ;; _)
    as [s | msg | ] eqn:Es; simpl.
  - destruct (it' <- call_Seek _ k (iter (big mi)) ;; _)
      as [b | msg | ] eqn:Eb; simpl.
    + destruct (Hs2 s eq_refl) as [Hps Hys].
      destruct (Hb2 b eq_refl) as [Hpb Hyb].
      assert (Hok' : children_ok
                       (mkMergeIterator s b (second mi) (reverse mi))).
      { unfold children_ok, second_is_child in *; simpl.
        rewrite Hps, Hpb. tauto. }
      destruct (fix_children_ok _
                  (fun m m' q Hq => proj2 (Next_second_ok fuel q m Hq) m')
                  (fun m q Hq => proj1 (Next_second_ok fuel q m Hq))
                  fuel _ Hok') as [Hf1 Hf2].
      split; [exact Hf1 | ].
      intros mi' H. apply second_ok_children. apply Hf2. exact H.
    + split; [ | intros; discriminate].
      intro H; inversion H; subst. apply Hb1; reflexivity.
    + split; [discriminate | intros; discriminate].
  - split; [ | intros; discriminate].
    intro H; inversion H; subst. apply Hs1; reflexivity.
  - split; [discriminate | intros; discriminate].
Qed.

(** ** The tree builder *)

Lemma NewMergeIterator_rec_fuel :
  forall (fuel1 fuel2 : nat) (iters : list y_Iterator) (rev : bool)
    (next : ptr),
    (List.length iters <= fuel1)%nat -> (List.length iters <= fuel2)%nat ->
    NewMergeIterator_rec fuel1 iters rev next
    = NewMergeIterator_rec fuel2 iters rev next.
Proof.
  induction fuel1 as [ | fuel1 IH]; intros fuel2 iters rev next H1 H2.
  - destruct iters as [ | a [ | b [ | c l]]]; simpl in H1; try lia.
    destruct fuel2; reflexivity.
  - destruct iters as [ | a [ | b [ | c l]]];
      try (destruct fuel2; reflexivity).
    destruct fuel2 as [ | fuel2]; [simpl in H2; lia | ].
    remember (a :: b :: c :: l) as iters eqn:Ei.
    assert (Hlen : (3 <= List.length iters)%nat)
      by (subst iters; simpl; lia).
    assert (Hmid : (Nat.div (List.length iters) 2 < List.length iters)%nat)
      by (apply Nat.div_lt; lia).
    assert (Hl : (List.length (firstn (Nat.div (List.length iters) 2) iters)
                  < List.length iters)%nat)
      by (rewrite length_firstn; lia).
    assert (Hmid0 : (0 < Nat.div (List.length iters) 2)%nat)
      by (apply Nat.div_str_pos; lia).
    assert (Hr : (List.length (skipn (Nat.div (List.length iters) 2) iters)
                  < List.length iters)%nat)
      by (rewrite length_skipn; lia).
    assert (E : forall f : nat,
      NewMergeIterator_rec (S f) iters rev next
      = let mid := Nat.div (List.length iters) 2 in
        let (l, next1) :=
          NewMergeIterator_rec f (firstn mid iters) rev next in
        let (r, next2) :=
          NewMergeIterator_rec f (skipn mid iters) rev next1 in
        NewMergeIterator_rec f [l; r] rev next2)
      by (intro f; subst iters; reflexivity).
    rewrite !E. cbv zeta.
    rewrite (IH fuel2 (firstn _ iters)) by lia.
    destruct (NewMergeIterator_rec fuel2 (firstn _ iters) rev next)
      as [lt next1].
    rewrite (IH fuel2 (skipn _ iters)) by lia.
    destruct (NewMergeIterator_rec fuel2 (skipn _ iters) rev next1)
      as [rt next2].
    destruct fuel1, fuel2; reflexivity.
Qed.

Lemma NewMergeIterator_two :
  forall (a b : y_Iterator) (rev : bool) (next : ptr),
    NewMergeIterator [a; b] rev next
    = (Some (PMerge next
               (mkMergeIterator (mkNode false [] a) (mkNode false [] b)
                  (y_ptr b) rev)),
       S next).
Proof. reflexivity. Qed.

Lemma NewMergeIterator_split :
  forall (iters : list y_Iterator) (rev : bool) (next : ptr),
    (2 < List.length iters)%nat ->
    NewMergeIterator iters rev next
    = let mid := Nat.div (List.length iters) 2 in
      let (l, next1) := NewMergeIterator (firstn mid iters) rev next in
      let (r, next2) := NewMergeIterator (skipn mid iters) rev next1 in
      NewMergeIterator [l; r] rev next2.
Proof.
  intros iters rev next Hlen. unfold NewMergeIterator at 1.
  assert (Hmid : (Nat.div (List.length iters) 2 < List.length iters)%nat)
    by (apply Nat.div_lt; lia).
  assert (Hmid0 : (0 < Nat.div (List.length iters) 2)%nat)
    by (apply Nat.div_str_pos; lia).
  destruct (List.length iters) as [ | n] eqn:En; [lia | ].
  destruct iters as [ | a [ | b [ | c l]]]; simpl in En; try lia.
  remember (a :: b :: c :: l) as iters eqn:Ei.
  assert (E : NewMergeIterator_rec (S n) iters rev next
      = let mid := Nat.div (List.length iters) 2 in
        let (l, next1) :=
          NewMergeIterator_rec n (firstn mid iters) rev next in
        let (r, next2) :=
          NewMergeIterator_rec n (skipn mid iters) rev next1 in
        NewMergeIterator_rec n [l; r] rev next2)
    by (subst iters; reflexivity).
  assert (En' : List.length iters = S n) by (subst iters; simpl; lia).
  rewrite E, En'. cbv zeta. unfold NewMergeIterator.
  rewrite (NewMergeIterator_rec_fuel n
             (List.length (firstn (Nat.div (S n) 2) iters)))
    by (rewrite ?length_firstn; lia).
  destruct (NewMergeIterator_rec _ (firstn _ iters) rev next) as [lt next1].
  rewrite (NewMergeIterator_rec_fuel n
             (List.length (skipn (Nat.div (S n) 2) iters)))
    by (rewrite ?length_skipn; lia).
  destruct (NewMergeIterator_rec _ (skipn _ iters) rev next1) as [rt next2].
  destruct n; reflexivity.
Qed.

(** C9. For more than two iterators the builder splits the list at half its
    length, builds the left half, then the right half, and joins the two
    results as a two-way merge: [small] wraps the left one, [big] the right
    one, [second] is the right one; for exactly two iterators it builds one
    merge with [small] the first, [big] the second and [second] the second.
    Neither node is fixed yet: both caches are unset. *)
Theorem NewMergeIterator_builds_balanced_tree :
  forall (rev : bool) (next : ptr),
    (forall a b : y_Iterator,
       NewMergeIterator [a; b] rev next
       = (Some (PMerge next
                  (mkMergeIterator (node_setIterator zero_node a)
                     (node_setIterator zero_node b) (y_ptr b) rev)),
          S next))
    /\ (forall iters : list y_Iterator,
          (2 < List.length iters)%nat ->
          let mid := Nat.div (List.length iters) 2 in
          let left := NewMergeIterator (firstn mid iters) rev next in
          let right := NewMergeIterator (skipn mid iters) rev (snd left) in
          NewMergeIterator iters rev next
          = (Some (PMerge (snd right)
                     (mkMergeIterator (node_setIterator zero_node (fst left))
                        (node_setIterator zero_node (fst right))
                        (y_ptr (fst right)) rev)),
             S (snd right))).
Proof.
  intros rev next. split; [reflexivity | ].
  intros iters Hlen. cbv zeta.
  rewrite (NewMergeIterator_split iters rev next Hlen). cbv zeta.
  destruct (NewMergeIterator (firstn _ iters) rev next) as [lt next1].
  simpl fst; simpl snd.
  destruct (NewMergeIterator (skipn _ iters) rev next1) as [rt next2].
  reflexivity.
Qed.

(** C4, as the code has it. For an empty list the builder answers nil and
    builds nothing: there is no iterator to ask [Valid] of or to close, and
    either call through the nil interface panics. *)
Theorem NewMergeIterator_empty_is_nil :
  forall (rev : bool) (next : ptr),
    NewMergeIterator (@nil y_Iterator) rev next = (None, next)
    /\ call_Valid (fst (NewMergeIterator (@nil y_Iterator) rev next))
       = Panic nil_dereference
    /\ call_Close (fst (NewMergeIterator (@nil y_Iterator) rev next))
       = Panic nil_dereference.
Proof. intros rev next. repeat split. Qed.

(** ** Close *)

(** [Close] through the interface on a merge node is [MergeIterator.Close]. *)
Lemma Iterator_Close_merge : forall (p : ptr) (mi : MergeIterator),
  Iterator_Close (PMerge p mi) = MergeIterator_Close mi.
Proof.
  intros p mi. unfold MergeIterator_Close, call_Close. simpl.
  destruct (iter (small mi)); destruct (iter (big mi)); reflexivity.
Qed.

(** C5. [Close] closes both children whatever the first close answers: the
    close of [big] runs (its trace follows that of [small]) also when the
    close of [small] returned an error, and the error returned is non-nil
    exactly when one of the two closes returned a non-nil error. *)
Theorem Close_closes_both_children :
  forall (mi : MergeIterator) (t1 t2 : list ptr) (err1 err2 : error),
    call_Close (iter (small mi)) = Ok (t1, err1) ->
    call_Close (iter (big mi)) = Ok (t2, err2) ->
    exists err : error,
      MergeIterator_Close mi = Ok ((t1 ++ t2)%list, err)
      /\ (err <> None <-> err1 <> None \/ err2 <> None).
Proof.
  intros mi t1 t2 err1 err2 H1 H2. unfold MergeIterator_Close.
  rewrite H1, H2. simpl.
  destruct err1 as [e1 | ].
  - eexists; split; [reflexivity | ]. simpl.
    split; intro; [left | ]; discriminate.
  - eexists; split; [reflexivity | ].
    destruct err2 as [e2 | ]; simpl; split; intro H;
      try discriminate; try (right; discriminate);
      first [congruence | tauto].
Qed.

Lemma two_second_ok :
  forall (fuel : nat) (a b : y_Iterator) (rev : bool) (next : ptr),
    y_second_ok a -> y_second_ok b ->
    y_second_ok (fst (NewMergeIterator_rec fuel [a; b] rev next)).
Proof.
  intros fuel a b rev next Ha Hb.
  replace (NewMergeIterator_rec fuel [a; b] rev next)
    with (NewMergeIterator [a; b] rev next) by (destruct fuel; reflexivity).
  rewrite NewMergeIterator_two. simpl.
  intros c Hc. inversion Hc; subst. constructor; simpl.
  - unfold second_is_child; simpl.
    rewrite same_object_refl. apply orb_true_r.
  - exact Ha.
  - exact Hb.
Qed.

Lemma NewMergeIterator_rec_second_ok :
  forall (fuel : nat) (iters : list y_Iterator) (rev : bool) (next : ptr),
    Forall y_second_ok iters ->
    y_second_ok (fst (NewMergeIterator_rec fuel iters rev next)).
Proof.
  induction fuel as [ | fuel IH]; intros iters rev next Hall.
  - destruct iters as [ | a [ | b [ | c l]]].
    + intros x Hx; discriminate.
    + inversion Hall; assumption.
    + inversion Hall as [ | ? ? Ha Hall']; inversion Hall'; subst.
      apply two_second_ok; assumption.
    + intros x Hx; discriminate.
  - destruct iters as [ | a [ | b [ | c l]]].
    + intros x Hx; discriminate.
    + inversion Hall; assumption.
    + inversion Hall as [ | ? ? Ha Hall']; inversion Hall'; subst.
      apply two_second_ok; assumption.
    + remember (a :: b :: c :: l) as iters eqn:Ei.
      assert (E : NewMergeIterator_rec (S fuel) iters rev next
        = let mid := Nat.div (List.length iters) 2 in
          let (l, next1) :=
            NewMergeIterator_rec fuel (firstn mid iters) rev next in
          let (r, next2) :=
            NewMergeIterator_rec fuel (skipn mid iters) rev next1 in
          NewMergeIterator_rec fuel [l; r] rev next2)
        by (subst iters; reflexivity).
      rewrite E. cbv zeta.
      rewrite <- (firstn_skipn (Nat.div (List.length iters) 2) iters)
        in Hall.
      apply Forall_app in Hall. destruct Hall as [Hl Hr].
      pose proof (IH (firstn (Nat.div (List.length iters) 2) iters)
                    rev next Hl) as Hlt.
      destruct (NewMergeIterator_rec fuel (firstn _ iters) rev next)
        as [lt next1].
      pose proof (IH (skipn (Nat.div (List.length iters) 2) iters)
                    rev next1 Hr) as Hrt.
      destruct (NewMergeIterator_rec fuel (skipn _ iters) rev next1)
        as [rt next2].
      apply two_second_ok; assumption.
Qed.

(** C7. When [fix] meets two equal keys and [second] is neither child, the
    call panics: with the assertion of [fix], or with the nil dereference of
    [second.Next()] when [second] is nil; it neither goes on nor returns.
    The builder makes [second] a child at every node, and on a tree where it
    is one, neither [fix] nor a public operation raises the assertion. *)
Theorem fix_asserts_second_is_a_child :
  (forall (mNext : MergeIterator -> result MergeIterator) (fuel : nat)
     (mi : MergeIterator),
     valid (big mi) = true -> valid (small mi) = true ->
     CompareKeys (key (small mi)) (key (big mi)) = 0 ->
     second_is_child mi = false ->
     MergeIterator_fix CompareKeys mNext (S fuel) mi
     = Panic (match second mi with
              | Some _ => second_invalid
              | None => nil_dereference
              end))
  /\ (forall (iters : list y_Iterator) (rev : bool) (next : ptr),
        Forall y_second_ok iters ->
        y_second_ok (fst (NewMergeIterator iters rev next)))
  /\ (forall (fuel budget : nat) (p : ptr) (mi : MergeIterator),
        second_ok (PMerge p mi) ->
        MergeIterator_fix CompareKeys (MergeIterator_Next CompareKeys fuel)
          budget mi <> Panic second_invalid
        /\ MergeIterator_Next CompareKeys fuel mi <> Panic second_invalid
        /\ MergeIterator_Rewind CompareKeys fuel mi <> Panic second_invalid
        /\ forall k : bytes,
             MergeIterator_Seek CompareKeys fuel k mi
             <> Panic second_invalid).
Proof.
  split; [exact fix_mismatch_panics | ].
  split; [intros iters rev next; apply NewMergeIterator_rec_second_ok | ].
  intros fuel budget p mi Hok.
  split; [ | split; [ | split]].
  - apply second_ok_children in Hok.
    apply (fix_children_ok _
             (fun m m' q Hq => proj2 (Next_second_ok fuel q m Hq) m')
             (fun m q Hq => proj1 (Next_second_ok fuel q m Hq))
             budget _ Hok).
  - apply (Next_second_ok fuel p mi Hok).
  - apply (Rewind_second_ok fuel p mi Hok).
  - intro k. apply (Seek_second_ok fuel k p mi Hok).
Qed.

(** ** Positioned trees and their streams *)

Section Positioned.

Context {SrcL : Lawful (I := SrcI)} {ConcatL : Lawful (I := ConcatI)}.
Context {Hord : KeyOrder CompareKeys}.

Notation entry := (@entry ValueStruct).
Notation ms := (merge_streams CompareKeys).
Notation stream_of := (istream CompareKeys).
Notation placed := (positioned CompareKeys).
Notation insync := (synced CompareKeys).

Lemma cmp_refl : forall a : bytes, CompareKeys a a = 0.
Proof. intro a. apply cmp_eq. reflexivity. Qed.

Lemma cmp_zero_sym : forall a b : bytes,
  CompareKeys a b = 0 -> CompareKeys b a = 0.
Proof. intros a b H. apply cmp_eq in H. apply cmp_eq. congruence. Qed.

Lemma before_flip : forall (rev : bool) (a b : bytes),
  before rev (CompareKeys a b) = true ->
  before rev (CompareKeys b a) = false /\ CompareKeys b a <> 0.
Proof.
  intros rev a b H. pose proof (cmp_flip a b) as F1.
  pose proof (cmp_flip b a) as F2.
  destruct rev; simpl in *.
  - apply Z.ltb_lt in H. split; [apply Z.ltb_ge | ]; lia.
  - apply Z.ltb_lt in H. split; [apply Z.ltb_ge | ]; lia.
Qed.

Lemma before_total : forall (rev : bool) (a b : bytes),
  CompareKeys a b <> 0 ->
  before rev (CompareKeys a b) = false ->
  before rev (CompareKeys b a) = true.
Proof.
  intros rev a b Hne H. pose proof (cmp_flip a b) as F1.
  pose proof (cmp_flip b a) as F2.
  destruct rev; simpl in *; apply Z.ltb_ge in H; apply Z.ltb_lt; lia.
Qed.

Lemma ms_nil_l : forall (rev : bool) (R : list entry), ms rev [] R = R.
Proof. intros rev [ | r R]; reflexivity. Qed.

Lemma ms_nil_r : forall (rev : bool) (F : list entry), ms rev F [] = F.
Proof. intros rev [ | f F]; reflexivity. Qed.

Lemma ms_cons : forall (rev : bool) (f r : entry) (F R : list entry),
  ms rev (f :: F) (r :: R)
  = if CompareKeys (fst f) (fst r) =? 0 then ms rev (f :: F) R
    else if before rev (CompareKeys (fst f) (fst r))
         then f :: ms rev F (r :: R)
         else r :: ms rev (f :: F) R.
Proof. reflexivity. Qed.

Lemma ms_drop : forall (rev : bool) (f r : entry) (F R : list entry),
  CompareKeys (fst f) (fst r) = 0 ->
  ms rev (f :: F) (r :: R) = ms rev (f :: F) R.
Proof. intros. rewrite ms_cons, H. reflexivity. Qed.

Lemma ms_first : forall (rev : bool) (f r : entry) (F R : list entry),
  before rev (CompareKeys (fst f) (fst r)) = true ->
  ms rev (f :: F) (r :: R) = f :: ms rev F (r :: R).
Proof.
  intros rev f r F R H. rewrite ms_cons, H.
  replace (CompareKeys (fst f) (fst r) =? 0) with false; [reflexivity | ].
  symmetry. apply Z.eqb_neq. intro E. rewrite E in H.
  destruct rev; discriminate.
Qed.

Lemma ms_second : forall (rev : bool) (f r : entry) (F R : list entry),
  before rev (CompareKeys (fst r) (fst f)) = true ->
  ms rev (f :: F) (r :: R) = r :: ms rev (f :: F) R.
Proof.
  intros rev f r F R H. apply before_flip in H. destruct H as [H1 H2].
  rewrite ms_cons, H1. apply Z.eqb_neq in H2. rewrite H2. reflexivity.
Qed.

Lemma ms_length : forall (rev : bool) (F R : list entry),
  (List.length (ms rev F R) <= List.length F + List.length R)%nat.
Proof.
  intros rev F. induction F as [ | f F IHF]; intro R.
  - rewrite ms_nil_l. simpl. lia.
  - induction R as [ | r R IHR]; [rewrite ms_nil_r; simpl; lia | ].
    rewrite ms_cons. destruct (_ =? 0); [simpl in *; lia | ].
    destruct (before _ _); simpl in *.
    + specialize (IHF (r :: R)). simpl in IHF. lia.
    + lia.
Qed.

(** *** Nodes in step with their child *)

Lemma stream_of_merge : forall (p : ptr) (mi : MergeIterator) (a b : Iterator),
  iter (small mi) = Some a -> iter (big mi) = Some b ->
  stream_of (PMerge p mi)
  = if same_object (second mi) (Some (ptr_of a))
    then ms (reverse mi) (stream_of b) (stream_of a)
    else ms (reverse mi) (stream_of a) (stream_of b).
Proof.
  intros p mi a b Ha Hb. unfold istream. simpl. rewrite Ha, Hb. reflexivity.
Qed.

Lemma weight_merge : forall (p : ptr) (mi : MergeIterator) (a b : Iterator),
  iter (small mi) = Some a -> iter (big mi) = Some b ->
  weight (PMerge p mi) = S (S (weight a + weight b)).
Proof.
  intros p mi a b Ha Hb. unfold weight. simpl. rewrite Ha, Hb. reflexivity.
Qed.

Lemma positioned_contract : forall it : Iterator,
  placed it ->
  call_Valid (Some it) = Ok (nonempty (stream_of it))
  /\ forall e s, stream_of it = e :: s ->
       call_Key (Some it) = Ok (fst e) /\ Iterator_Value it = Ok (snd e).
Proof.
  induction 1 as [p s | p c | p mi a b Hne Hsec Ha IHa Hb IHb Hsa Hsb Hinv HI1].
  - simpl. unfold istream; simpl. rewrite Valid_stream.
    split; [destruct (stream s); reflexivity | ].
    intros e r He. rewrite (Key_stream _ He), (Value_stream _ He).
    split; reflexivity.
  - simpl. unfold istream; simpl. rewrite Valid_stream.
    split; [destruct (stream c); reflexivity | ].
    intros e r He. rewrite (Key_stream _ He), (Value_stream _ He).
    split; reflexivity.
  - destruct Hsa as [Hia [Hva Hka]]. destruct Hsb as [Hib [Hvb Hkb]].
    rewrite (stream_of_merge p mi a b Hia Hib).
    simpl. unfold MergeIterator_Valid, MergeIterator_Key. rewrite Hia.
    unfold I1_strict in HI1.
    destruct (stream_of a) as [ | x A] eqn:EA.
    + rewrite (Hinv Hva) in Hvb.
      destruct (stream_of b) as [ | y B]; [ | discriminate].
      rewrite Hva. split; [destruct (same_object _ _); reflexivity | ].
      intros e s He. destruct (same_object _ _); discriminate.
    + rewrite Hva. destruct (IHa) as [_ IHa']. specialize (IHa' x A eq_refl).
      assert (Hhead : forall rest, (if same_object (second mi) (Some (ptr_of a))
                then ms (reverse mi) (stream_of b) (x :: A)
                else ms (reverse mi) (x :: A) (stream_of b)) = rest ->
                exists s, rest = x :: s).
      { intros rest <-. destruct (stream_of b) as [ | y B] eqn:EB.
        - rewrite ms_nil_l, ms_nil_r. destruct (same_object _ _); eauto.
        - specialize (HI1 Hva Hvb).
          rewrite (Hka x A eq_refl), (Hkb y B eq_refl) in HI1.
          assert (Hbef : before (reverse mi) (CompareKeys (fst x) (fst y))
                         = true).
          { unfold before. destruct (reverse mi); apply Z.ltb_lt; lia. }
          destruct (same_object _ _).
          + rewrite (ms_second _ _ _ _ _ Hbef). eauto.
          + rewrite (ms_first _ _ _ _ _ Hbef). eauto. }
      split.
      * destruct (Hhead _ eq_refl) as [s Hs]. rewrite Hs. reflexivity.
      * intros e s He. destruct (Hhead _ He) as [s' Hs'].
        inversion Hs'; subst. rewrite (Hka _ _ eq_refl). tauto.
Qed.

Lemma setKey_synced : forall (n : node) (c : Iterator),
  iter n = Some c -> placed c ->
  exists n', node_setKey n = Ok n' /\ insync n' c.
Proof.
  intros n c Hi Hc. rewrite node_setKey_fast. unfold node_setKey_generic.
  destruct (positioned_contract c Hc) as [Hv Hk]. rewrite Hi, Hv.
  destruct (stream_of c) as [ | e s] eqn:E; cbn [nonempty bind].
  - eexists; split; [reflexivity | ].
    unfold synced; simpl. rewrite E.
    split; [reflexivity | split; [reflexivity | intros; discriminate]].
  - destruct (Hk e s eq_refl) as [Hk' _]. rewrite Hk'. cbn [bind].
    eexists; split; [reflexivity | ].
    unfold synced; simpl. rewrite E.
    split; [reflexivity | split; [reflexivity | ]].
    intros e' s' H; inversion H; reflexivity.
Qed.

Notation lnk := (linked CompareKeys).
Notation pstream := (pair_stream CompareKeys).
Notation sstream := (second_stream CompareKeys).

Lemma same_object_ptr_neq : forall p q : ptr,
  p <> q -> same_object (Some p) (Some q) = false.
Proof. intros p q H. simpl. apply Nat.eqb_neq. exact H. Qed.

Lemma stream_of_pair : forall (p : ptr) (mi : MergeIterator) (a b : Iterator),
  iter (small mi) = Some a -> iter (big mi) = Some b ->
  stream_of (PMerge p mi) = pstream mi a b.
Proof. exact stream_of_merge. Qed.

Lemma pair_stream_swap : forall (mi : MergeIterator) (a b : Iterator),
  ptr_of a <> ptr_of b ->
  second mi = Some (ptr_of a) \/ second mi = Some (ptr_of b) ->
  pstream (MergeIterator_swap mi) b a = pstream mi a b.
Proof.
  intros mi a b Hne [H | H]; unfold pair_stream; simpl; rewrite H.
  - rewrite same_object_refl, (same_object_ptr_neq _ _ Hne). reflexivity.
  - rewrite same_object_refl.
    rewrite (same_object_ptr_neq (ptr_of b) (ptr_of a)) by congruence.
    reflexivity.
Qed.

Lemma linked_swap : forall (mi : MergeIterator) (a b : Iterator),
  lnk mi a b -> lnk (MergeIterator_swap mi) b a.
Proof.
  intros mi a b [H1 [H2 [H3 [H4 [H5 H6]]]]].
  refine (conj H2 (conj H1 (conj H4 (conj H3 (conj _ _))))); simpl;
    [congruence | tauto].
Qed.

Lemma synced_valid : forall (n : node) (c : Iterator),
  insync n c -> valid n = nonempty (stream_of c).
Proof. intros n c [_ [H _]]. exact H. Qed.

Lemma synced_key : forall (n : node) (c : Iterator) (e : entry) (s : list entry),
  insync n c -> stream_of c = e :: s -> key n = fst e.
Proof. intros n c e s [_ [_ H]]. apply H. Qed.

Lemma second_stream_length : forall (mi : MergeIterator) (a b : Iterator),
  (List.length (sstream mi a b)
   <= List.length (stream_of a) + List.length (stream_of b))%nat.
Proof.
  intros mi a b. unfold second_stream. destruct (same_object _ _); lia.
Qed.

Lemma linked_placed : forall (p : ptr) (mi : MergeIterator) (a b : Iterator),
  lnk mi a b ->
  (valid (small mi) = false -> valid (big mi) = false) ->
  I1_strict CompareKeys mi ->
  placed (PMerge p mi).
Proof.
  intros p mi a b [H1 [H2 [H3 [H4 [H5 H6]]]]] Hinv HI.
  eapply positioned_merge; eassumption.
Qed.

Section FixLoop.

Variable mNext : MergeIterator -> result MergeIterator.
Variable W : nat.
Hypothesis child_Next : forall (c : Iterator) (e : entry) (s : list entry),
  (weight c <= W)%nat -> placed c -> stream_of c = e :: s ->
  exists c',
    call_Next mNext (Some c) = Ok (Some c')
    /\ placed c' /\ stream_of c' = s /\ ptr_of c' = ptr_of c
    /\ (weight c' <= weight c)%nat.

(** One turn of the loop on two equal keys, [second] being under [small]. *)
Lemma fix_loop_equal_small :
  forall (budget : nat) (mi : MergeIterator) (a a' : Iterator) (n : node),
    valid (small mi) = true ->
    CompareKeys (key (small mi)) (key (big mi)) = 0 ->
    iter (small mi) = Some a -> second mi = Some (ptr_of a) ->
    call_Next mNext (Some a) = Ok (Some a') -> ptr_of a' = ptr_of a ->
    node_setKey (with_iter (small mi) (Some a')) = Ok n ->
    fix_loop CompareKeys mNext (S budget) mi
    = if valid n then fix_loop CompareKeys mNext budget (with_small mi n)
      else if valid (big mi) then Ok (MergeIterator_swap (with_small mi n))
      else Ok (with_small mi n).
Proof.
  intros budget mi a a' n Hv Hc Hi Hsec Hn Hptr Hset.
  pose proof (setKey_iter _ _ Hset) as Hin. simpl in Hin.
  simpl fix_loop. rewrite Hv, Hc. simpl (0 =? 0).
  unfold second_Next. rewrite Hsec, Hi. simpl y_ptr.
  rewrite same_object_refl, Hn. cbn [bind].
  cbn [with_small second small iter with_iter y_ptr option_map].
  rewrite Hsec, Hptr, same_object_refl.
  unfold with_iter in Hset |- *. rewrite Hset. cbn [bind].
  destruct (valid n); cbn [negb]; [reflexivity | ].
  cbn [with_small second small big iter]. rewrite Hin. simpl y_ptr.
  rewrite Hsec, Hptr, same_object_refl. cbn [andb]. reflexivity.
Qed.

(** One turn of the loop on two equal keys, [second] being under [big]. *)
Lemma fix_loop_equal_big :
  forall (budget : nat) (mi : MergeIterator) (a b b' : Iterator) (n : node),
    valid (small mi) = true ->
    CompareKeys (key (small mi)) (key (big mi)) = 0 ->
    iter (small mi) = Some a -> iter (big mi) = Some b ->
    ptr_of a <> ptr_of b -> second mi = Some (ptr_of b) ->
    call_Next mNext (Some b) = Ok (Some b') -> ptr_of b' = ptr_of b ->
    node_setKey (with_iter (big mi) (Some b')) = Ok n ->
    fix_loop CompareKeys mNext (S budget) mi
    = if valid n then fix_loop CompareKeys mNext budget (with_big mi n)
      else Ok (with_big mi n).
Proof.
  intros budget mi a b b' n Hv Hc Hia Hib Hne Hsec Hn Hptr Hset.
  assert (Hneq : same_object (Some (ptr_of b)) (Some (ptr_of a)) = false)
    by (apply same_object_ptr_neq; congruence).
  simpl fix_loop. rewrite Hv, Hc. simpl (0 =? 0).
  unfold second_Next. rewrite Hsec, Hia, Hib. simpl y_ptr.
  rewrite Hneq, same_object_refl, Hn. cbn [bind].
  cbn [with_big second small big iter with_iter y_ptr option_map].
  rewrite Hsec, Hia. simpl y_ptr. rewrite Hneq, Hptr, same_object_refl.
  unfold with_iter in Hset |- *. rewrite Hset. cbn [bind].
  destruct (valid n); cbn [negb]; [reflexivity | ].
  cbn [with_big second small big iter]. rewrite Hia. simpl y_ptr.
  rewrite Hsec, Hneq. cbn [andb]. reflexivity.
Qed.

Lemma fix_loop_linked :
  forall (budget : nat) (mi : MergeIterator) (a b : Iterator),
    lnk mi a b -> valid (big mi) = true ->
    (weight a <= W)%nat -> (weight b <= W)%nat ->
    (List.length (sstream mi a b) < budget)%nat ->
    exists (mi' : MergeIterator) (a' b' : Iterator),
      fix_loop CompareKeys mNext budget mi = Ok mi'
      /\ lnk mi' a' b'
      /\ (valid (small mi') = false -> valid (big mi') = false)
      /\ pstream mi' a' b' = pstream mi a b
      /\ (weight a' + weight b' <= weight a + weight b)%nat
      /\ reverse mi' = reverse mi.
Proof.
  induction budget as [ | budget IH]; intros mi a b Hl Hvb Hwa Hwb Hlen;
    [lia | ].
  pose proof Hl as [Hsa [Hsb [Hpa [Hpb [Hne Hsec]]]]].
  pose proof (synced_valid _ _ Hsa) as Hva.
  pose proof (synced_valid _ _ Hsb) as Hvb'.
  destruct (valid (small mi)) eqn:Hvs.
  - destruct (stream_of a) as [ | x A] eqn:EA; [discriminate | ].
    rewrite Hvb in Hvb'.
    destruct (stream_of b) as [ | y B] eqn:EB; [discriminate | ].
    pose proof (synced_key _ _ _ _ Hsa EA) as Hka.
    pose proof (synced_key _ _ _ _ Hsb EB) as Hkb.
    destruct (CompareKeys (fst x) (fst y) =? 0) eqn:Hc.
    + apply Z.eqb_eq in Hc.
      pose proof Hsa as [Hia _]. pose proof Hsb as [Hib _].
      assert (Hc' : CompareKeys (key (small mi)) (key (big mi)) = 0)
        by (rewrite Hka, Hkb; exact Hc).
      destruct Hsec as [Hsec | Hsec].
      * (* the second child is under small *)
        destruct (child_Next a x A Hwa Hpa EA)
          as [a' [Hn [Hpa' [Hsa'' [Hptr Hw]]]]].
        destruct (setKey_synced
                    (with_iter (small mi) (Some a')) a' eq_refl Hpa')
          as [n [Hn' Hsn]].
        rewrite (fix_loop_equal_small budget mi a a' n
                   Hvs Hc' Hia Hsec Hn Hptr Hn').
        pose proof (synced_valid _ _ Hsn) as Hvn. rewrite Hsa'' in Hvn.
        assert (Hl' : lnk (with_small mi n) a' b).
        { refine (conj Hsn (conj Hsb
                    (conj Hpa' (conj Hpb (conj _ _))))); simpl;
            [congruence | rewrite Hptr; tauto]. }
        assert (Hps : pstream (with_small mi n) a' b
                      = ms (reverse mi) (y :: B) A).
        { unfold pair_stream; simpl.
          rewrite Hsec, Hptr, same_object_refl, EB, Hsa''. reflexivity. }
        assert (Hps0 : pstream mi a b = ms (reverse mi) (y :: B) A).
        { unfold pair_stream.
          rewrite Hsec, same_object_refl, EA, EB.
          apply ms_drop. apply cmp_zero_sym. exact Hc. }
        rewrite Hvn, Hvb. destruct A as [ | x' A']; cbn [nonempty].
        -- exists (MergeIterator_swap (with_small mi n)), b, a'.
           split; [reflexivity | ].
           split; [apply linked_swap; exact Hl' | ].
           split; [simpl; congruence | ].
           split; [ | split; [lia | reflexivity]].
           rewrite pair_stream_swap;
             [congruence | congruence | simpl; rewrite Hptr; tauto].
        -- destruct (IH (with_small mi n) a' b Hl')
             as [mi' [a2 [b2 H]]];
             [simpl; exact Hvb | lia | lia
             | unfold second_stream in *; simpl second in *;
               rewrite Hsec, Hptr, same_object_refl, Hsa'';
               rewrite Hsec, same_object_refl, EA in Hlen;
               simpl in *; lia | ].
           destruct H as [Hf [Hl2 [Hinv [Hps2 [Hw2 Hr]]]]].
           exists mi', a2, b2. split; [exact Hf | ].
           split; [exact Hl2 | ]. split; [exact Hinv | ].
           split; [congruence | split; [lia | exact Hr]].
      * (* the second child is under big *)
        destruct (child_Next b y B Hwb Hpb EB)
          as [b' [Hn [Hpb' [Hsb'' [Hptr Hw]]]]].
        assert (Hneq : same_object (Some (ptr_of b)) (Some (ptr_of a))
                       = false)
          by (apply same_object_ptr_neq; congruence).
        destruct (setKey_synced
                    (with_iter (big mi) (Some b')) b' eq_refl Hpb')
          as [n [Hn' Hsn]].
        rewrite (fix_loop_equal_big budget mi a b b' n
                   Hvs Hc' Hia Hib Hne Hsec Hn Hptr Hn').
        pose proof (synced_valid _ _ Hsn) as Hvn. rewrite Hsb'' in Hvn.
        assert (Hl' : lnk (with_big mi n) a b').
        { refine (conj Hsa (conj Hsn
                    (conj Hpa (conj Hpb' (conj _ _))))); simpl;
            [congruence | rewrite Hptr; tauto]. }
        assert (Hps : pstream (with_big mi n) a b'
                      = ms (reverse mi) (x :: A) B).
        { unfold pair_stream; simpl.
          rewrite Hsec, Hneq, EA, Hsb''. reflexivity. }
        assert (Hps0 : pstream mi a b = ms (reverse mi) (x :: A) B).
        { unfold pair_stream. rewrite Hsec, Hneq, EA, EB.
          apply ms_drop. exact Hc. }
        rewrite Hvn. destruct B as [ | y' B']; cbn [nonempty].
        -- exists (with_big mi n), a, b'.
           split; [reflexivity | ].
           split; [exact Hl' | ].
           split; [intros _; simpl; exact Hvn | ].
           split; [congruence | split; [lia | reflexivity]].
        -- destruct (IH (with_big mi n) a b' Hl')
             as [mi' [a2 [b2 H]]];
             [simpl; exact Hvn | lia | lia
             | unfold second_stream in *; simpl second in *;
               rewrite Hsec, Hneq, Hsb'';
               rewrite Hsec, Hneq, EB in Hlen;
               simpl in *; lia | ].
           destruct H as [Hf [Hl2 [Hinv [Hps2 [Hw2 Hr]]]]].
           exists mi', a2, b2. split; [exact Hf | ].
           split; [exact Hl2 | ]. split; [exact Hinv | ].
           split; [congruence | split; [lia | exact Hr]].
    + assert (Hswap : exists (mi' : MergeIterator) (a' b' : Iterator),
                Ok (MergeIterator_swap mi) = Ok mi'
                /\ lnk mi' a' b'
                /\ (valid (small mi') = false -> valid (big mi') = false)
                /\ pstream mi' a' b' = pstream mi a b
                /\ (weight a' + weight b' <= weight a + weight b)%nat
                /\ reverse mi' = reverse mi).
      { exists (MergeIterator_swap mi), b, a. split; [reflexivity | ].
        split; [apply linked_swap; exact Hl | ].
        split; [simpl; congruence | ].
        split; [apply pair_stream_swap; assumption | ].
        split; [lia | reflexivity]. }
      assert (Hsame : exists (mi' : MergeIterator) (a' b' : Iterator),
                Ok mi = Ok mi'
                /\ lnk mi' a' b'
                /\ (valid (small mi') = false -> valid (big mi') = false)
                /\ pstream mi' a' b' = pstream mi a b
                /\ (weight a' + weight b' <= weight a + weight b)%nat
                /\ reverse mi' = reverse mi).
      { exists mi, a, b. split; [reflexivity | ].
        split; [exact Hl | ]. split; [congruence | ].
        split; [reflexivity | ]. split; [lia | reflexivity]. }
      simpl fix_loop. rewrite Hvs, Hka, Hkb, Hc.
      destruct (reverse mi).
      * destruct (_ <? 0); assumption.
      * destruct (_ >? 0); assumption.
  - simpl fix_loop. rewrite Hvs.
    exists (MergeIterator_swap mi), b, a. split; [reflexivity | ].
    split; [apply linked_swap; exact Hl | ].
    split; [simpl; congruence | ].
    split; [apply pair_stream_swap; assumption | ].
    split; [lia | reflexivity].
Qed.

End FixLoop.

Lemma fix_linked :
  forall (mNext : MergeIterator -> result MergeIterator) (W : nat),
    (forall (c : Iterator) (e : entry) (s : list entry),
       (weight c <= W)%nat -> placed c -> stream_of c = e :: s ->
       exists c',
         call_Next mNext (Some c) = Ok (Some c')
         /\ placed c' /\ stream_of c' = s /\ ptr_of c' = ptr_of c
         /\ (weight c' <= weight c)%nat) ->
    forall (budget : nat) (p : ptr) (mi : MergeIterator) (a b : Iterator),
      lnk mi a b ->
      (weight a <= W)%nat -> (weight b <= W)%nat ->
      (List.length (sstream mi a b) < budget)%nat ->
      exists mi' : MergeIterator,
        MergeIterator_fix CompareKeys mNext budget mi = Ok mi'
        /\ placed (PMerge p mi')
        /\ stream_of (PMerge p mi') = pstream mi a b
        /\ (weight (PMerge p mi') <= S (S (weight a + weight b)))%nat
        /\ reverse mi' = reverse mi.
Proof.
  intros mNext W Hnext budget p mi a b Hl Hwa Hwb Hlen.
  assert (Hloop : exists (mi' : MergeIterator) (a' b' : Iterator),
            MergeIterator_fix CompareKeys mNext budget mi = Ok mi'
            /\ lnk mi' a' b'
            /\ (valid (small mi') = false -> valid (big mi') = false)
            /\ pstream mi' a' b' = pstream mi a b
            /\ (weight a' + weight b' <= weight a + weight b)%nat
            /\ reverse mi' = reverse mi).
  { unfold MergeIterator_fix. destruct (valid (big mi)) eqn:Hvb; simpl.
    - apply (fix_loop_linked mNext W Hnext); assumption.
    - exists mi, a, b. split; [reflexivity | ]. split; [exact Hl | ].
      split; [intros _; exact Hvb | ].
      split; [reflexivity | ]. split; [lia | reflexivity]. }
  destruct Hloop as [mi' [a' [b' [Hf [Hl' [Hinv [Hps [Hw Hr]]]]]]]].
  exists mi'. split; [exact Hf | ].
  pose proof Hl' as [[Hia _] [[Hib _] _]].
  split; [ | split; [ | split]].
  - apply (linked_placed p mi' a' b' Hl' Hinv).
    apply (fix_strict mNext budget mi mi' Hf).
  - rewrite (stream_of_pair p mi' a' b' Hia Hib). exact Hps.
  - rewrite (weight_merge p mi' a' b' Hia Hib). lia.
  - exact Hr.
Qed.

Lemma stream_length_weight : forall it : Iterator,
  placed it -> (List.length (stream_of it) <= weight it)%nat.
Proof.
  induction 1 as [p s | p c | p mi a b Hne Hsec Ha IHa Hb IHb Hsa Hsb Hinv HI1].
  - unfold istream, weight; simpl. lia.
  - unfold istream, weight; simpl. lia.
  - destruct Hsa as [Hia _]. destruct Hsb as [Hib _].
    rewrite (stream_of_merge p mi a b Hia Hib), (weight_merge p mi a b Hia Hib).
    destruct (same_object _ _).
    + pose proof (ms_length (reverse mi) (stream_of b) (stream_of a)). lia.
    + pose proof (ms_length (reverse mi) (stream_of a) (stream_of b)). lia.
Qed.

Lemma pair_head :
  forall (mi : MergeIterator) (a b : Iterator) (x : entry) (A : list entry),
    insync (small mi) a -> insync (big mi) b ->
    (valid (small mi) = false -> valid (big mi) = false) ->
    I1_strict CompareKeys mi ->
    stream_of a = x :: A ->
    pstream mi a b
    = x :: (if same_object (second mi) (Some (ptr_of a))
            then ms (reverse mi) (stream_of b) A
            else ms (reverse mi) A (stream_of b)).
Proof.
  intros mi a b x A Hsa Hsb Hinv HI1 EA. unfold pair_stream. rewrite EA.
  pose proof (synced_valid _ _ Hsa) as Hva. rewrite EA in Hva.
  pose proof (synced_valid _ _ Hsb) as Hvb.
  destruct (stream_of b) as [ | y B] eqn:EB.
  - rewrite !ms_nil_l, !ms_nil_r. destruct (same_object _ _); reflexivity.
  - specialize (HI1 Hva Hvb).
    rewrite (synced_key _ _ _ _ Hsa EA), (synced_key _ _ _ _ Hsb EB) in HI1.
    assert (Hbef : before (reverse mi) (CompareKeys (fst x) (fst y)) = true).
    { unfold before. destruct (reverse mi); apply Z.ltb_lt; lia. }
    destruct (same_object _ _).
    + apply (ms_second _ _ _ _ _ Hbef).
    + apply (ms_first _ _ _ _ _ Hbef).
Qed.

Lemma pair_nil :
  forall (mi : MergeIterator) (a b : Iterator),
    insync (small mi) a -> insync (big mi) b ->
    (valid (small mi) = false -> valid (big mi) = false) ->
    stream_of a = [] -> pstream mi a b = [].
Proof.
  intros mi a b Hsa Hsb Hinv EA. unfold pair_stream.
  pose proof (synced_valid _ _ Hsa) as Hva. rewrite EA in Hva.
  pose proof (synced_valid _ _ Hsb) as Hvb. rewrite (Hinv Hva) in Hvb.
  destruct (stream_of b); [ | discriminate]. rewrite EA.
  destruct (same_object _ _); reflexivity.
Qed.

Lemma placed_Next :
  forall (n : nat) (it : Iterator) (e : entry) (s : list entry) (fuel : nat),
    (weight it <= n)%nat -> placed it -> stream_of it = e :: s ->
    (weight it <= fuel)%nat ->
    exists it' : Iterator,
      Next_at CompareKeys fuel (Some it) = Ok (Some it')
      /\ placed it' /\ stream_of it' = s /\ ptr_of it' = ptr_of it
      /\ (weight it' <= weight it)%nat.
Proof.
  induction n as [ | n IH]; intros it e s fuel Hn Hp Hs Hfuel;
    (destruct Hp as [p src | p c | p mi a b Hne Hsec Ha Hb Hsa Hsb Hinv HI1];
     [ exists (PSource p (Next src)); unfold Next_at, istream, weight in *;
       simpl in *; rewrite (Next_stream _ Hs), Hs;
       split; [reflexivity | ]; split; [apply positioned_source | ];
       split; [reflexivity | ]; split; [reflexivity | simpl; lia]
     | exists (PConcat p (Next c)); unfold Next_at, istream, weight in *;
       simpl in *; rewrite (Next_stream _ Hs), Hs;
       split; [reflexivity | ]; split; [apply positioned_concat | ];
       split; [reflexivity | ]; split; [reflexivity | simpl; lia]
     | ]);
    pose proof Hsa as [Hia _]; pose proof Hsb as [Hib _];
    rewrite (weight_merge p mi a b Hia Hib) in *; [lia | ].
  rewrite (stream_of_pair p mi a b Hia Hib) in Hs.
  destruct (stream_of a) as [ | x A] eqn:EA;
    [rewrite (pair_nil mi a b Hsa Hsb Hinv EA) in Hs; discriminate | ].
  rewrite (pair_head mi a b x A Hsa Hsb Hinv HI1 EA) in Hs.
  injection Hs as Hx Hs. subst e.
  destruct fuel as [ | f]; [lia | ].
  destruct (IH a x A f) as [a' [Hna [Hpa' [Hsa' [Hptr Hwa']]]]];
    [lia | exact Ha | exact EA | lia | ].
  unfold Next_at. simpl call_Next. cbn [MergeIterator_Next].
  rewrite node_next_call, Hia. fold (Next_at CompareKeys f (Some a)).
  rewrite Hna. cbn [bind].
  destruct (setKey_synced
              (mkNode (valid (small mi)) (key (small mi)) (Some a')) a'
              eq_refl Hpa') as [nd [Hnd Hsnd]].
  rewrite Hnd. cbn [bind].
  assert (Hl : lnk (with_small mi nd) a' b).
  { refine (conj Hsnd (conj Hsb (conj Hpa' (conj Hb (conj _ _))))); simpl;
      [congruence | rewrite Hptr; tauto]. }
  pose proof (stream_length_weight a' Hpa') as Hla.
  pose proof (stream_length_weight b Hb) as Hlb.
  assert (Hchild : forall (c : Iterator) (e : entry) (s : list entry),
            (weight c <= weight a + weight b)%nat -> placed c ->
            stream_of c = e :: s ->
            exists c',
              call_Next (MergeIterator_Next CompareKeys f) (Some c)
              = Ok (Some c')
              /\ placed c' /\ stream_of c' = s /\ ptr_of c' = ptr_of c
              /\ (weight c' <= weight c)%nat)
    by (intros c e0 s0 Hw Hc He; apply (IH c e0 s0 f);
        [lia | assumption | assumption | lia]).
  assert (Hbudget : (List.length (sstream (with_small mi nd) a' b) < f)%nat)
    by (pose proof (second_stream_length (with_small mi nd) a' b); lia).
  destruct (fix_linked (MergeIterator_Next CompareKeys f)
              (weight a + weight b) Hchild
              f p (with_small mi nd) a' b Hl)
    as [mi' [Hf [Hp' [Hs' [Hw' Hr']]]]]; [lia | lia | exact Hbudget | ].
  rewrite Hf. cbn [bind]. exists (PMerge p mi').
  split; [reflexivity | ]. split; [exact Hp' | ].
  split; [ | split; [reflexivity | lia]].
  rewrite Hs'. unfold pair_stream. simpl. rewrite Hptr, Hsa'. exact Hs.
Qed.

Notation content_of := (content CompareKeys).

Lemma content_merge : forall (p : ptr) (mi : MergeIterator) (a b : Iterator),
  iter (small mi) = Some a -> iter (big mi) = Some b ->
  content_of (PMerge p mi)
  = if same_object (second mi) (Some (ptr_of a))
    then ms (reverse mi) (content_of b) (content_of a)
    else ms (reverse mi) (content_of a) (content_of b).
Proof.
  intros p mi a b Ha Hb. unfold content. simpl. rewrite Ha, Hb. reflexivity.
Qed.

Lemma content_weight_merge :
  forall (p : ptr) (mi : MergeIterator) (a b : Iterator),
    iter (small mi) = Some a -> iter (big mi) = Some b ->
    content_weight (PMerge p mi)
    = S (S (content_weight a + content_weight b)).
Proof.
  intros p mi a b Ha Hb. unfold content_weight. simpl. rewrite Ha, Hb.
  reflexivity.
Qed.

Lemma placed_Next_at : forall (c : Iterator) (e : entry) (s : list entry)
  (fuel : nat),
  (weight c <= fuel)%nat -> placed c -> stream_of c = e :: s ->
  exists c',
    call_Next (MergeIterator_Next CompareKeys fuel) (Some c) = Ok (Some c')
    /\ placed c' /\ stream_of c' = s /\ ptr_of c' = ptr_of c
    /\ (weight c' <= weight c)%nat.
Proof.
  intros c e s fuel Hw Hc Hs.
  apply (placed_Next (weight c) c e s fuel (le_n _) Hc Hs Hw).
Qed.

(** *** Repositioning: [Rewind] and [Seek]

    Both methods move the two children, refresh the two nodes and run [fix];
    the sources land where [f] and [g] put them. *)
Section Reposition.

Variable f : Src -> Src.
Variable g : ConcatIterator -> ConcatIterator.
Variable mOp : nat -> MergeIterator -> result MergeIterator.

Notation callOp fuel :=
  (fun it : y_Iterator =>
     match it with
     | None => Panic nil_dereference
     | Some (PSource p s) => Ok (Some (PSource p (f s)))
     | Some (PConcat p c) => Ok (Some (PConcat p (g c)))
     | Some (PMerge p mi) => mi' <- mOp fuel mi ;; Ok (Some (PMerge p mi'))
     end).

Hypothesis mOp_step : forall (fuel : nat) (mi : MergeIterator),
  mOp (S fuel) mi
  = (s <- (it' <- callOp fuel (iter (small mi)) ;;
           node_setKey (mkNode (valid (small mi)) (key (small mi)) it')) ;;
     b <- (it' <- callOp fuel (iter (big mi)) ;;
           node_setKey (mkNode (valid (big mi)) (key (big mi)) it')) ;;
     MergeIterator_fix CompareKeys (MergeIterator_Next CompareKeys fuel) fuel
       (mkMergeIterator s b (second mi) (reverse mi))).

Notation moved :=
  (tree_stream CompareKeys (fun s => stream (f s)) (fun c => stream (g c))).
Notation moved_weight :=
  (tree_weight (fun s => stream (f s)) (fun c => stream (g c))).

Lemma shaped_reposition : forall it : Iterator,
  shaped it ->
  forall fuel : nat,
    (moved_weight it <= fuel)%nat ->
    exists it' : Iterator,
      callOp fuel (Some it) = Ok (Some it')
      /\ placed it' /\ stream_of it' = moved it
      /\ ptr_of it' = ptr_of it
      /\ (weight it' <= moved_weight it)%nat.
Proof.
  induction 1 as [p s | p c | p mi a b Hia Hib Hne Hsec Ha IHa Hb IHb];
    intros fuel Hfuel.
  - exists (PSource p (f s)). split; [reflexivity | ].
    split; [apply positioned_source | ]. repeat split. apply le_n.
  - exists (PConcat p (g c)). split; [reflexivity | ].
    split; [apply positioned_concat | ]. repeat split. apply le_n.
  - assert (Hw : moved_weight (PMerge p mi)
                 = S (S (moved_weight a + moved_weight b)))
      by (simpl; rewrite Hia, Hib; reflexivity).
    assert (Hm : moved (PMerge p mi)
                 = if same_object (second mi) (Some (ptr_of a))
                   then ms (reverse mi) (moved b) (moved a)
                   else ms (reverse mi) (moved a) (moved b))
      by (simpl; rewrite Hia, Hib; reflexivity).
    rewrite Hw in *. rewrite Hm. clear Hw Hm.
    destruct fuel as [ | fuel]; [lia | ].
    destruct (IHa fuel) as [a' [Hra [Hpa [Hsa [Hptra Hwa]]]]]; [lia | ].
    destruct (IHb fuel) as [b' [Hrb [Hpb [Hsb [Hptrb Hwb]]]]]; [lia | ].
    rewrite mOp_step, Hia, Hib, Hra. cbn [bind].
    destruct (setKey_synced
                (mkNode (valid (small mi)) (key (small mi)) (Some a')) a'
                eq_refl Hpa) as [na [Hna Hsna]].
    rewrite Hna. cbn [bind]. rewrite Hrb. cbn [bind].
    destruct (setKey_synced
                (mkNode (valid (big mi)) (key (big mi)) (Some b')) b'
                eq_refl Hpb) as [nb [Hnb Hsnb]].
    rewrite Hnb. cbn [bind].
    assert (Hl : lnk (mkMergeIterator na nb (second mi) (reverse mi)) a' b').
    { refine (conj Hsna (conj Hsnb (conj Hpa (conj Hpb (conj _ _)))));
        simpl; [congruence | rewrite Hptra, Hptrb; exact Hsec]. }
    pose proof (stream_length_weight a' Hpa) as Hla.
    pose proof (stream_length_weight b' Hpb) as Hlb.
    pose proof (second_stream_length
                  (mkMergeIterator na nb (second mi) (reverse mi)) a' b')
      as Hls.
    destruct (fix_linked (MergeIterator_Next CompareKeys fuel) fuel
                (fun c e s Hw Hc He => placed_Next_at c e s fuel Hw Hc He)
                fuel p (mkMergeIterator na nb (second mi) (reverse mi))
                a' b' Hl)
      as [mi' [Hf [Hp' [Hs' [Hw' Hr']]]]]; [lia | lia | lia | ].
    rewrite Hf. cbn [bind]. exists (PMerge p mi').
    split; [reflexivity | ]. split; [exact Hp' | ].
    split; [ | split; [reflexivity | lia]].
    rewrite Hs'. unfold pair_stream. simpl. rewrite Hptra, Hsa, Hsb.
    reflexivity.
Qed.

End Reposition.

Lemma shaped_Rewind : forall it : Iterator,
  shaped it ->
  forall fuel : nat,
    (content_weight it <= fuel)%nat ->
    exists it' : Iterator,
      Rewind_at CompareKeys fuel (Some it) = Ok (Some it')
      /\ placed it' /\ stream_of it' = content_of it
      /\ ptr_of it' = ptr_of it
      /\ (weight it' <= content_weight it)%nat.
Proof.
  intros it Hs fuel Hfuel.
  exact (shaped_reposition Rewind Rewind (MergeIterator_Rewind CompareKeys)
           (fun _ _ => eq_refl) it Hs fuel Hfuel).
Qed.

Lemma shaped_Seek : forall (k : bytes) (it : Iterator),
  shaped it ->
  forall fuel : nat,
    (sought_weight k it <= fuel)%nat ->
    exists it' : Iterator,
      Seek_at CompareKeys fuel k (Some it) = Ok (Some it')
      /\ placed it'.
Proof.
  intros k it Hs fuel Hfuel.
  destruct (shaped_reposition (Seek k) (Seek k)
              (fun n => MergeIterator_Seek CompareKeys n k)
              (fun _ _ => eq_refl) it Hs fuel Hfuel)
    as [it' [H1 [H2 _]]].
  exists it'. split; [exact H1 | exact H2].
Qed.

Lemma collect_placed : forall (steps : nat) (it : Iterator) (fuel : nat),
  placed it ->
  (List.length (stream_of it) < steps)%nat -> (weight it <= fuel)%nat ->
  collect CompareKeys steps fuel (Some it) = Ok (stream_of it).
Proof.
  induction steps as [ | steps IH]; intros it fuel Hp Hlen Hfuel; [lia | ].
  destruct (positioned_contract it Hp) as [Hv Hk].
  cbn [collect]. rewrite Hv. cbn [bind].
  destruct (stream_of it) as [ | e s] eqn:Es; [reflexivity | ].
  cbn [nonempty]. destruct (Hk e s eq_refl) as [Hkey Hval].
  rewrite Hkey. cbn [bind]. simpl call_Value. rewrite Hval. cbn [bind].
  destruct (placed_Next_at it e s fuel Hfuel Hp Es)
    as [it' [Hn [Hp' [Hs' [_ Hw']]]]].
  unfold Next_at. rewrite Hn. cbn [bind].
  rewrite (IH it' fuel Hp'); [ | rewrite Hs'; simpl in Hlen; lia | lia].
  cbn [bind]. rewrite Hs'. destruct e; reflexivity.
Qed.

Lemma traverse_shaped : forall (it : Iterator) (fuel : nat),
  shaped it -> (content_weight it < fuel)%nat ->
  traverse CompareKeys fuel (Some it) = Ok (content_of it).
Proof.
  intros it fuel Hs Hfuel. unfold traverse.
  destruct (shaped_Rewind it Hs fuel) as [it' [Hr [Hp [Hst [_ Hw]]]]];
    [lia | ].
  rewrite Hr. cbn [bind]. rewrite <- Hst.
  pose proof (stream_length_weight it' Hp).
  apply collect_placed; [exact Hp | lia | lia].
Qed.

(** *** What the builder builds from sources *)

Lemma y_ptrs_app : forall l1 l2 : list y_Iterator,
  y_ptrs (l1 ++ l2) = (y_ptrs l1 ++ y_ptrs l2)%list.
Proof. intros l1 l2. unfold y_ptrs. apply flat_map_app. Qed.

Lemma NoDup_app_apart : forall (l1 l2 : list ptr) (p : ptr),
  NoDup (l1 ++ l2) -> In p l1 -> In p l2 -> False.
Proof.
  induction l1 as [ | q l1 IH]; intros l2 p Hnd H1 H2; [contradiction | ].
  simpl in Hnd. inversion Hnd as [ | ? ? Hq Hnd']; subst.
  destruct H1 as [-> | H1].
  - apply Hq. apply in_or_app. right. exact H2.
  - apply (IH l2 p Hnd' H1 H2).
Qed.

Lemma sources_app : forall (l1 l2 : list y_Iterator) (next : ptr),
  sources (l1 ++ l2) next ->
  sources l1 next /\ sources l2 next
  /\ forall p, In p (y_ptrs l1) -> In p (y_ptrs l2) -> False.
Proof.
  intros l1 l2 next [Hs [Hnd Hlt]]. rewrite y_ptrs_app in Hnd, Hlt.
  apply Forall_app in Hs. apply Forall_app in Hlt.
  destruct Hs as [Hs1 Hs2]. destruct Hlt as [Hlt1 Hlt2].
  split; [ | split].
  - split; [exact Hs1 | split; [ | exact Hlt1]].
    apply (NoDup_app_remove_r _ _ Hnd).
  - split; [exact Hs2 | split; [ | exact Hlt2]].
    apply (NoDup_app_remove_l _ _ Hnd).
  - intros p. apply NoDup_app_apart. exact Hnd.
Qed.

Lemma sources_later : forall (l : list y_Iterator) (next next' : ptr),
  sources l next -> (next <= next')%nat -> sources l next'.
Proof.
  intros l next next' [Hs [Hnd Hlt]] Hle.
  split; [exact Hs | split; [exact Hnd | ]].
  eapply Forall_impl; [ | exact Hlt]. simpl. intros; lia.
Qed.

Lemma source_shaped : forall it : Iterator,
  is_source (Some it) -> shaped it.
Proof.
  intros [p s | p c | p mi] H; simpl in H;
    [apply shaped_source | apply shaped_concat | contradiction].
Qed.

Lemma two_shaped :
  forall (fuel : nat) (rev : bool) (t1 t2 : Iterator) (next : ptr),
    shaped t1 -> shaped t2 -> ptr_of t1 <> ptr_of t2 ->
    exists t : Iterator,
      NewMergeIterator_rec fuel [Some t1; Some t2] rev next = (Some t, S next)
      /\ shaped t /\ ptr_of t = next
      /\ content_of t = ms rev (content_of t1) (content_of t2).
Proof.
  intros fuel rev t1 t2 next H1 H2 Hne.
  replace (NewMergeIterator_rec fuel [Some t1; Some t2] rev next)
    with (NewMergeIterator [Some t1; Some t2] rev next)
    by (destruct fuel; reflexivity).
  rewrite NewMergeIterator_two.
  set (mi := mkMergeIterator (mkNode false [] (Some t1))
               (mkNode false [] (Some t2)) (y_ptr (Some t2)) rev).
  exists (PMerge next mi). split; [reflexivity | ].
  split; [ | split; [reflexivity | ]].
  - apply shaped_merge with (a := t1) (b := t2);
      try reflexivity; try assumption.
    right; reflexivity.
  - rewrite (content_merge next mi t1 t2 eq_refl eq_refl).
    unfold mi. cbn [second reverse y_ptr option_map].
    rewrite (same_object_ptr_neq (ptr_of t2) (ptr_of t1)) by congruence.
    reflexivity.
Qed.

Section Build.

Variable rev : bool.
Variable Q : list y_Iterator -> list entry -> Prop.
Hypothesis Q_one : forall it : Iterator,
  is_source (Some it) -> Q [Some it] (content_of it).
Hypothesis Q_app :
  forall (l1 l2 : list y_Iterator) (c1 c2 : list entry),
    l1 <> [] -> l2 <> [] -> Q l1 c1 -> Q l2 c2 ->
    Q (l1 ++ l2) (ms rev c1 c2).

Lemma build_sources :
  forall (fuel : nat) (iters : list y_Iterator) (next : ptr),
    (List.length iters <= fuel)%nat -> iters <> [] ->
    sources iters next ->
    exists (t : Iterator) (next' : ptr),
      NewMergeIterator_rec fuel iters rev next = (Some t, next')
      /\ (next <= next')%nat /\ shaped t
      /\ (In (ptr_of t) (y_ptrs iters)
          \/ (next <= ptr_of t < next')%nat)
      /\ Q iters (content_of t).
Proof.
  induction fuel as [ | fuel IH]; intros iters next Hlen Hne Hsrc.
  - destruct iters; [congruence | simpl in Hlen; lia].
  - destruct iters as [ | a [ | b [ | c l]]]; [congruence | | | ].
    + destruct Hsrc as [Hs _]. inversion Hs as [ | ? ? Ha _]; subst.
      destruct a as [ia | ]; [ | contradiction].
      exists ia, next. split; [reflexivity | ]. split; [lia | ].
      split; [apply source_shaped; exact Ha | ].
      split; [left; simpl; left; reflexivity | apply Q_one; exact Ha].
    + pose proof Hsrc as [Hs [Hnd _]].
      inversion Hs as [ | ? ? Ha Hs']; subst.
      inversion Hs' as [ | ? ? Hb _]; subst.
      destruct a as [ia | ]; [ | contradiction].
      destruct b as [ib | ]; [ | contradiction].
      assert (Hneq : ptr_of ia <> ptr_of ib).
      { simpl in Hnd. inversion Hnd as [ | ? ? Hin _]; subst.
        simpl in Hin. intro Heq. apply Hin. left. congruence. }
      destruct (two_shaped (S fuel) rev ia ib next
                  (source_shaped ia Ha) (source_shaped ib Hb) Hneq)
        as [t [Ht [Hsh [Hp Hc]]]].
      exists t, (S next). split; [exact Ht | ]. split; [lia | ].
      split; [exact Hsh | ]. split; [right; lia | ].
      rewrite Hc. apply (Q_app [Some ia] [Some ib]);
        try discriminate; apply Q_one; assumption.
    + remember (a :: b :: c :: l) as iters eqn:Ei.
      assert (Hlen3 : (3 <= List.length iters)%nat)
        by (subst iters; simpl; lia).
      assert (E : NewMergeIterator_rec (S fuel) iters rev next
        = let mid := Nat.div (List.length iters) 2 in
          let (l, next1) :=
            NewMergeIterator_rec fuel (firstn mid iters) rev next in
          let (r, next2) :=
            NewMergeIterator_rec fuel (skipn mid iters) rev next1 in
          NewMergeIterator_rec fuel [l; r] rev next2)
        by (subst iters; reflexivity).
      rewrite E. cbv zeta. clear E.
      set (mid := Nat.div (List.length iters) 2).
      assert (Hmid : (mid < List.length iters)%nat)
        by (apply Nat.div_lt; lia).
      assert (Hmid0 : (0 < mid)%nat) by (apply Nat.div_str_pos; lia).
      pose proof (firstn_skipn mid iters) as Hsplit.
      rewrite <- Hsplit in Hsrc.
      destruct (sources_app _ _ _ Hsrc) as [Hs1 [Hs2 Hapart]].
      assert (Hl1 : firstn mid iters <> []).
      { intro Hnil. apply (f_equal (@List.length _)) in Hnil.
        rewrite length_firstn in Hnil. simpl in Hnil. lia. }
      assert (Hl2 : skipn mid iters <> []).
      { intro Hnil. apply (f_equal (@List.length _)) in Hnil.
        rewrite length_skipn in Hnil. simpl in Hnil. lia. }
      destruct (IH (firstn mid iters) next) as [t1 [next1 H1]];
        [rewrite length_firstn; lia | exact Hl1 | exact Hs1 | ].
      destruct H1 as [Hb1 [Hle1 [Hsh1 [Hp1 HQ1]]]]. rewrite Hb1.
      destruct (IH (skipn mid iters) next1) as [t2 [next2 H2]];
        [rewrite length_skipn; lia | exact Hl2
        | apply (sources_later _ next); assumption | ].
      destruct H2 as [Hb2 [Hle2 [Hsh2 [Hp2 HQ2]]]]. rewrite Hb2.
      assert (Hneq : ptr_of t1 <> ptr_of t2).
      { destruct Hs1 as [_ [_ Hlt1]]. destruct Hs2 as [_ [_ Hlt2]].
        rewrite Forall_forall in Hlt1, Hlt2.
        destruct Hp1 as [Hp1 | Hp1]; destruct Hp2 as [Hp2 | Hp2].
        - intro Heq. rewrite Heq in Hp1. apply (Hapart _ Hp1 Hp2).
        - specialize (Hlt1 _ Hp1). lia.
        - specialize (Hlt2 _ Hp2). lia.
        - lia. }
      destruct (two_shaped fuel rev t1 t2 next2 Hsh1 Hsh2 Hneq)
        as [t [Ht [Hsh [Hp Hc]]]].
      exists t, (S next2). split; [exact Ht | ]. split; [lia | ].
      split; [exact Hsh | ]. split; [right; lia | ].
      rewrite Hc, <- Hsplit. apply Q_app; assumption.
Qed.

Lemma traverse_built :
  forall (iters : list y_Iterator) (next : ptr),
    iters <> [] -> sources iters next ->
    exists (fuel0 : nat) (out : list entry),
      (forall fuel : nat,
         (fuel0 <= fuel)%nat ->
         traverse CompareKeys fuel (fst (NewMergeIterator iters rev next))
         = Ok out)
      /\ Q iters out.
Proof.
  intros iters next Hne Hsrc.
  destruct (build_sources (List.length iters) iters next (le_n _) Hne Hsrc)
    as [t [next' [Hb [_ [Hsh [_ HQ]]]]]].
  exists (S (content_weight t)), (content_of t).
  split; [ | exact HQ].
  intros fuel Hfuel. unfold NewMergeIterator. rewrite Hb. simpl fst.
  apply traverse_shaped; [exact Hsh | lia].
Qed.

End Build.

(** *** Merged streams stay ordered *)

Notation le_dir := (key_le CompareKeys).
Notation lt_dir := (key_lt CompareKeys).
Notation ele := (entry_le CompareKeys).
Notation elt := (entry_lt CompareKeys).

Lemma key_lt_trans : forall (rev : bool) (a b c : bytes),
  lt_dir rev a b -> lt_dir rev b c -> lt_dir rev a c.
Proof.
  intros rev a b c. unfold key_lt, before.
  pose proof (cmp_flip a b) as F1. pose proof (cmp_flip b c) as F2.
  pose proof (cmp_flip a c) as F3. pose proof (cmp_flip c a) as F4.
  pose proof (cmp_flip b a) as F5. pose proof (cmp_flip c b) as F6.
  destruct rev; rewrite !Z.ltb_lt; intros H1 H2.
  - assert (CompareKeys c a < 0) by (apply (cmp_trans c b a); lia). lia.
  - apply (cmp_trans a b c); assumption.
Qed.

Lemma key_lt_le : forall (rev : bool) (a b : bytes),
  lt_dir rev a b -> le_dir rev a b.
Proof.
  intros rev a b. unfold key_lt, key_le, before.
  destruct rev; rewrite Z.ltb_lt; lia.
Qed.

Lemma key_le_cases : forall (rev : bool) (a b : bytes),
  le_dir rev a b -> a = b \/ lt_dir rev a b.
Proof.
  intros rev a b H.
  destruct (Z.eq_dec (CompareKeys a b) 0) as [E | E].
  - left. apply cmp_eq. exact E.
  - right. unfold key_lt, key_le, before in *.
    destruct rev; apply Z.ltb_lt; lia.
Qed.

Lemma key_le_trans : forall (rev : bool) (a b c : bytes),
  le_dir rev a b -> le_dir rev b c -> le_dir rev a c.
Proof.
  intros rev a b c H1 H2.
  destruct (key_le_cases rev a b H1) as [-> | L1]; [exact H2 | ].
  destruct (key_le_cases rev b c H2) as [<- | L2]; [exact H1 | ].
  apply key_lt_le. apply (key_lt_trans rev a b c); assumption.
Qed.

Lemma ms_In : forall (rev : bool) (e : entry) (F R : list entry),
  In e (ms rev F R) -> In e F \/ In e R.
Proof.
  intros rev e F. induction F as [ | f F IHF]; intro R.
  - rewrite ms_nil_l. tauto.
  - induction R as [ | r R IHR]; [rewrite ms_nil_r; tauto | ].
    rewrite ms_cons. destruct (_ =? 0).
    + intro H. destruct (IHR H) as [H' | H']; [tauto | right; right; exact H'].
    + destruct (before _ _); intros [-> | H].
      * left; left; reflexivity.
      * destruct (IHF _ H) as [H' | H']; [left; right; exact H' | tauto].
      * right; left; reflexivity.
      * destruct (IHR H) as [H' | H']; [tauto | right; right; exact H'].
Qed.

Lemma ms_Forall : forall (rev : bool) (P : entry -> Prop) (F R : list entry),
  Forall P F -> Forall P R -> Forall P (ms rev F R).
Proof.
  intros rev P F R HF HR. rewrite Forall_forall in *.
  intros e He. destruct (ms_In rev e F R He); auto.
Qed.

Section Ordered.

Variable rev : bool.
Variable rel : bytes -> bytes -> Prop.
Hypothesis rel_trans : forall a b c : bytes, rel a b -> rel b c -> rel a c.
Hypothesis rel_before : forall a b : bytes,
  before rev (CompareKeys a b) = true -> rel a b.

Notation erel := (fun e1 e2 : entry => rel (fst e1) (fst e2)).

Lemma ms_sorted : forall F R : list entry,
  StronglySorted erel F -> StronglySorted erel R ->
  StronglySorted erel (ms rev F R).
Proof.
  induction F as [ | f F IHF]; intros R HF HR.
  - rewrite ms_nil_l. exact HR.
  - induction R as [ | r R IHR]; [rewrite ms_nil_r; exact HF | ].
    apply StronglySorted_inv in HF. destruct HF as [HF Hf].
    pose proof HR as HR0.
    apply StronglySorted_inv in HR. destruct HR as [HR Hr].
    rewrite ms_cons.
    destruct (CompareKeys (fst f) (fst r) =? 0) eqn:Hc;
      [apply IHR; exact HR | ].
    apply Z.eqb_neq in Hc.
    destruct (before rev (CompareKeys (fst f) (fst r))) eqn:Hb.
    + apply SSorted_cons; [apply IHF; assumption | ].
      apply ms_Forall; [exact Hf | ].
      apply rel_before in Hb.
      constructor; [exact Hb | ].
      eapply Forall_impl; [ | exact Hr].
      intros x Hx. apply (rel_trans _ (fst r)); assumption.
    + apply SSorted_cons;
        [apply IHR; exact HR | ].
      pose proof (rel_before _ _ (before_total rev _ _ Hc Hb)) as Hrf.
      apply ms_Forall; [ | exact Hr].
      constructor; [exact Hrf | ].
      eapply Forall_impl; [ | exact Hf].
      intros x Hx. apply (rel_trans _ (fst f)); assumption.
Qed.

Lemma sorted_keys_entries : forall l : list entry,
  Sorted rel (map fst l) -> StronglySorted erel l.
Proof.
  intros l H. apply Sorted_StronglySorted;
    [intros x y z; apply rel_trans | ].
  induction l as [ | e l IH]; [constructor | ].
  simpl in H. apply Sorted_inv in H. destruct H as [H Hd].
  constructor; [apply IH; exact H | ].
  destruct l; [constructor | ]. simpl in Hd. apply HdRel_inv in Hd.
  constructor. exact Hd.
Qed.

Lemma sorted_entries_keys : forall l : list entry,
  StronglySorted erel l -> Sorted rel (map fst l).
Proof.
  intros l H. apply StronglySorted_Sorted in H.
  induction l as [ | e l IH]; [constructor | ].
  apply Sorted_inv in H. destruct H as [H Hd].
  simpl. constructor; [apply IH; exact H | ].
  destruct l; [constructor | ]. apply HdRel_inv in Hd.
  constructor. exact Hd.
Qed.

End Ordered.

(** *** Duplicate keys: one entry, of the earlier stream *)

Notation samek := (same_key CompareKeys).

Lemma lt_not_same : forall (rev : bool) (k : bytes) (e x : entry),
  samek k e = true -> elt rev e x -> samek k x = false.
Proof.
  intros rev k e x He Hlt. unfold same_key in *.
  apply Z.eqb_eq in He. apply cmp_eq in He.
  apply Z.eqb_neq. intro Hx. apply cmp_eq in Hx.
  unfold entry_lt, key_lt in Hlt. rewrite He, Hx, cmp_refl in Hlt.
  destruct rev; discriminate.
Qed.

Lemma find_none_after : forall (rev : bool) (k : bytes) (e : entry)
  (l : list entry),
  samek k e = true -> Forall (elt rev e) l -> find (samek k) l = None.
Proof.
  intros rev k e l He Hall. induction Hall as [ | x l Hx _ IH];
    [reflexivity | ].
  simpl. rewrite (lt_not_same rev k e x He Hx). exact IH.
Qed.

Lemma filter_none_after : forall (rev : bool) (k : bytes) (e : entry)
  (l : list entry),
  samek k e = true -> Forall (elt rev e) l -> filter (samek k) l = [].
Proof.
  intros rev k e l He Hall. induction Hall as [ | x l Hx _ IH];
    [reflexivity | ].
  simpl. rewrite (lt_not_same rev k e x He Hx). exact IH.
Qed.

Lemma filter_find_sorted : forall (rev : bool) (k : bytes) (l : list entry),
  StronglySorted (elt rev) l ->
  filter (samek k) l
  = match find (samek k) l with Some e => [e] | None => [] end.
Proof.
  intros rev k l H. induction H as [ | e l Hl IH He]; [reflexivity | ].
  simpl. destruct (samek k e) eqn:Hk; [ | exact IH].
  rewrite (filter_none_after rev k e l Hk He). reflexivity.
Qed.

Lemma same_key_eq : forall (k : bytes) (e1 e2 : entry),
  CompareKeys (fst e1) (fst e2) = 0 -> samek k e1 = samek k e2.
Proof.
  intros k e1 e2 H. apply cmp_eq in H. unfold same_key. rewrite H.
  reflexivity.
Qed.

Lemma find_cons : forall (p : entry -> bool) (x : entry) (l : list entry),
  find p (x :: l) = if p x then Some x else find p l.
Proof. reflexivity. Qed.

Lemma find_ms : forall (rev : bool) (k : bytes) (F R : list entry),
  StronglySorted (elt rev) F ->
  find (samek k) (ms rev F R)
  = match find (samek k) F with
    | Some e => Some e
    | None => find (samek k) R
    end.
Proof.
  intros rev k F. induction F as [ | f F IHF]; intros R HF.
  - rewrite ms_nil_l. reflexivity.
  - induction R as [ | r R IHR].
    + rewrite ms_nil_r. destruct (find (samek k) (f :: F)); reflexivity.
    + pose proof HF as HF0.
      apply StronglySorted_inv in HF. destruct HF as [HF Hf].
      rewrite ms_cons.
      destruct (CompareKeys (fst f) (fst r) =? 0) eqn:Hc.
      * apply Z.eqb_eq in Hc. rewrite IHR, !find_cons.
        rewrite <- (same_key_eq k f r Hc).
        destruct (samek k f); reflexivity.
      * apply Z.eqb_neq in Hc.
        destruct (before rev (CompareKeys (fst f) (fst r))) eqn:Hb.
        -- rewrite !find_cons. destruct (samek k f); [reflexivity | ].
           rewrite (IHF (r :: R) HF), find_cons. reflexivity.
        -- rewrite (find_cons (samek k) r), IHR, (find_cons (samek k) r R).
           pose proof (before_total rev _ _ Hc Hb) as Hrf.
           destruct (samek k r) eqn:Hr; [ | reflexivity].
           assert (Hall : Forall (elt rev r) (f :: F)).
           { constructor; [exact Hrf | ].
             eapply Forall_impl; [ | exact Hf].
             intros x Hx. apply (key_lt_trans rev _ (fst f)); assumption. }
           rewrite (find_none_after rev k r (f :: F) Hr Hall). reflexivity.
Qed.

Lemma first_entry_app : forall (k : bytes) (l1 l2 : list (list entry)),
  first_entry CompareKeys k (l1 ++ l2)
  = match first_entry CompareKeys k l1 with
    | Some e => Some e
    | None => first_entry CompareKeys k l2
    end.
Proof.
  intros k l1 l2. induction l1 as [ | s l1 IH]; [reflexivity | ].
  simpl. destruct (find (samek k) s); [reflexivity | exact IH].
Qed.

Lemma second_Next_linked :
  forall (mi : MergeIterator) (a b : Iterator) (fuel : nat),
    lnk mi a b -> (weight a <= fuel)%nat -> (weight b <= fuel)%nat ->
    valid (small mi) = true -> valid (big mi) = true ->
    exists (mi1 : MergeIterator) (a1 b1 : Iterator),
      second_Next (MergeIterator_Next CompareKeys fuel) mi = Ok mi1
      /\ iter (small mi1) = Some a1 /\ iter (big mi1) = Some b1
      /\ sstream mi1 a1 b1 = tl (sstream mi a b).
Proof.
  intros mi a b fuel [Hsa [Hsb [Hpa [Hpb [Hne Hsec]]]]] Hwa Hwb Hvs Hvb.
  pose proof Hsa as [Hia _]. pose proof Hsb as [Hib _].
  rewrite (synced_valid _ _ Hsa) in Hvs.
  rewrite (synced_valid _ _ Hsb) in Hvb.
  destruct (stream_of a) as [ | x A] eqn:EA; [discriminate | ].
  destruct (stream_of b) as [ | y B] eqn:EB; [discriminate | ].
  unfold second_Next, second_stream. destruct Hsec as [Hsec | Hsec].
  - destruct (placed_Next_at a x A fuel Hwa Hpa EA)
      as [a' [Hn [_ [Hs' [Hptr _]]]]].
    rewrite Hsec, Hia. simpl y_ptr. rewrite same_object_refl, Hn.
    cbn [bind]. eexists; exists a', b.
    split; [reflexivity | ]. split; [reflexivity | ].
    split; [exact Hib | ]. simpl second.
    rewrite Hsec, Hptr, same_object_refl, EA. exact Hs'.
  - assert (Hneq : same_object (Some (ptr_of b)) (Some (ptr_of a)) = false)
      by (apply same_object_ptr_neq; congruence).
    destruct (placed_Next_at b y B fuel Hwb Hpb EB)
      as [b' [Hn [_ [Hs' [Hptr _]]]]].
    rewrite Hsec, Hia, Hib. simpl y_ptr.
    rewrite Hneq, same_object_refl, Hn.
    cbn [bind]. eexists; exists a, b'.
    split; [reflexivity | ]. split; [exact Hia | ].
    split; [reflexivity | ]. simpl second.
    rewrite Hsec, Hneq, EB. exact Hs'.
Qed.

End Positioned.

(** C3. Invariant I1 holds after every public operation: the state that
    [Rewind], [Seek] or [Next] returns has, whenever both nodes are valid, the
    key of [small] at or below the key of [big] in forward mode, at or above
    it in reverse mode. And the operations do return: [Rewind] and [Seek] on
    every tree of the shape the builder builds, [Next] on every valid state
    they leave. *)
Theorem I1_after_public_operations :
  forall (Hord : KeyOrder CompareKeys),
    (forall (fuel : nat) (mi mi' : MergeIterator),
       (MergeIterator_Rewind CompareKeys fuel mi = Ok mi'
        \/ (exists k, MergeIterator_Seek CompareKeys fuel k mi = Ok mi')
        \/ MergeIterator_Next CompareKeys fuel mi = Ok mi') ->
       valid (small mi') = true -> valid (big mi') = true ->
       if reverse mi'
       then CompareKeys (key (small mi')) (key (big mi')) >= 0
       else CompareKeys (key (small mi')) (key (big mi')) <= 0)
    /\ (forall (SrcL : Lawful (I := SrcI)) (ConcatL : Lawful (I := ConcatI))
          (p : ptr) (mi : MergeIterator),
          (shaped (PMerge p mi) ->
           (exists (fuel : nat) (mi' : MergeIterator),
              MergeIterator_Rewind CompareKeys fuel mi = Ok mi')
           /\ forall k : bytes,
                exists (fuel : nat) (mi' : MergeIterator),
                  MergeIterator_Seek CompareKeys fuel k mi = Ok mi')
          /\ (positioned CompareKeys (PMerge p mi) ->
              valid (small mi) = true ->
              exists (fuel : nat) (mi' : MergeIterator),
                MergeIterator_Next CompareKeys fuel mi = Ok mi')).
Proof.
  intro Hord. split.
  - intros fuel mi mi' Hop. exact (public_operations_keep_I1 fuel mi mi' Hop).
  - intros SrcL ConcatL p mi. split.
    + intro Hs. split.
      * destruct (shaped_Rewind (PMerge p mi) Hs _ (le_n _))
          as [it' [Hr _]].
        unfold Rewind_at in Hr. simpl in Hr. apply bind_Ok in Hr.
        destruct Hr as [mi' [Hr _]]. eauto.
      * intro k.
        destruct (shaped_Seek k (PMerge p mi) Hs _ (le_n _))
          as [it' [Hr _]].
        unfold Seek_at in Hr. simpl in Hr. apply bind_Ok in Hr.
        destruct Hr as [mi' [Hr _]]. eauto.
    + intros Hp Hv.
      destruct (positioned_contract (PMerge p mi) Hp) as [Hc _].
      cbn [call_Valid] in Hc. unfold MergeIterator_Valid in Hc.
      rewrite Hv in Hc.
      destruct (istream CompareKeys (PMerge p mi)) as [ | e s] eqn:Es;
        [discriminate | ].
      destruct (placed_Next_at (PMerge p mi) e s _ (le_n _) Hp Es)
        as [it' [Hn _]].
      simpl in Hn. apply bind_Ok in Hn.
      destruct Hn as [mi' [Hn _]]. eauto.
Qed.

(** C1. For sources each sorted in the traversal direction, the traversal of
    the tree the builder makes of them ([Rewind], then [Next] while [Valid])
    returns, and the keys it yields are in order: non-decreasing in forward
    mode, non-increasing in reverse mode. *)
Theorem traversal_is_globally_ordered :
  forall (SrcL : Lawful (I := SrcI)) (ConcatL : Lawful (I := ConcatI))
    (Hord : KeyOrder CompareKeys)
    (iters : list y_Iterator) (rev : bool) (next : ptr),
    iters <> [] -> sources iters next ->
    Forall (fun it =>
              Sorted (key_le CompareKeys rev)
                (map fst (y_content CompareKeys it))) iters ->
    exists (fuel0 : nat) (out : list (bytes * ValueStruct)),
      (forall fuel : nat,
         (fuel0 <= fuel)%nat ->
         traverse CompareKeys fuel (fst (NewMergeIterator iters rev next))
         = Ok out)
      /\ Sorted (key_le CompareKeys rev) (map fst out).
Proof.
  intros SrcL ConcatL Hord iters rev next Hne Hsrc Hsorted.
  destruct (traverse_built rev
              (fun l c =>
                 Forall (fun it =>
                           Sorted (key_le CompareKeys rev)
                             (map fst (y_content CompareKeys it))) l ->
                 Sorted (key_le CompareKeys rev) (map fst c)))
    with (iters := iters) (next := next)
    as [fuel0 [out [Hrun Hout]]]; try assumption.
  - intros it _ Hall. inversion Hall; subst. assumption.
  - intros l1 l2 c1 c2 _ _ H1 H2 Hall.
    apply Forall_app in Hall. destruct Hall as [Ha1 Ha2].
    apply (sorted_entries_keys (key_le CompareKeys rev)).
    apply (ms_sorted rev (key_le CompareKeys rev)
             (key_le_trans rev)
             (fun a b Hb => key_lt_le rev a b Hb));
      apply (sorted_keys_entries (key_le CompareKeys rev)
               (key_le_trans rev)); auto.
  - exists fuel0, out. split; [exact Hrun | apply Hout; exact Hsorted].
Qed.

(** C2. For sources that each hold a key at most once, in the traversal
    direction, the traversal of the built tree returns, and for every key it
    yields exactly the entry of the earliest source of the flat input list
    that has the key (and nothing for a key no source has), however deep the
    tree is. *)
Theorem duplicate_keys_yield_the_earliest_source :
  forall (SrcL : Lawful (I := SrcI)) (ConcatL : Lawful (I := ConcatI))
    (Hord : KeyOrder CompareKeys)
    (iters : list y_Iterator) (rev : bool) (next : ptr),
    iters <> [] -> sources iters next ->
    Forall (fun it =>
              Sorted (key_lt CompareKeys rev)
                (map fst (y_content CompareKeys it))) iters ->
    exists (fuel0 : nat) (out : list (bytes * ValueStruct)),
      (forall fuel : nat,
         (fuel0 <= fuel)%nat ->
         traverse CompareKeys fuel (fst (NewMergeIterator iters rev next))
         = Ok out)
      /\ forall k : bytes,
           filter (same_key CompareKeys k) out
           = match first_entry CompareKeys k
                     (map (y_content CompareKeys) iters) with
             | Some e => [e]
             | None => []
             end.
Proof.
  intros SrcL ConcatL Hord iters rev next Hne Hsrc Hsorted.
  destruct (traverse_built rev
              (fun l c =>
                 Forall (fun it =>
                           Sorted (key_lt CompareKeys rev)
                             (map fst (y_content CompareKeys it))) l ->
                 StronglySorted (entry_lt CompareKeys rev) c
                 /\ forall k : bytes,
                      find (same_key CompareKeys k) c
                      = first_entry CompareKeys k
                          (map (y_content CompareKeys) l)))
    with (iters := iters) (next := next)
    as [fuel0 [out [Hrun Hout]]]; try assumption.
  - intros it _ Hall. inversion Hall as [ | ? ? Hit _]; subst.
    split.
    + apply (sorted_keys_entries (key_lt CompareKeys rev)
               (key_lt_trans rev)). exact Hit.
    + intro k. simpl.
      destruct (find (same_key CompareKeys k) (content CompareKeys it));
        reflexivity.
  - intros l1 l2 c1 c2 _ _ H1 H2 Hall.
    apply Forall_app in Hall. destruct Hall as [Ha1 Ha2].
    destruct (H1 Ha1) as [Hs1 Hf1]. destruct (H2 Ha2) as [Hs2 Hf2].
    split.
    + apply (ms_sorted rev (key_lt CompareKeys rev)
               (key_lt_trans rev) (fun a b Hb => Hb)); assumption.
    + intro k. rewrite (find_ms rev k c1 c2 Hs1), map_app, first_entry_app.
      rewrite Hf1, Hf2. reflexivity.
  - exists fuel0, out. split; [exact Hrun | ].
    destruct (Hout Hsorted) as [Hs Hf]. intro k.
    rewrite (filter_find_sorted rev k out Hs), Hf. reflexivity.
Qed.

(** C6. The loop of [fix] terminates: on a node in step with two children
    that yield finite streams (each [Next] moves a child one entry on), the
    [second.Next()] of a turn of the equal-key branch takes exactly one entry
    off the stream of [second], so the loop is over within one turn more than
    that stream has entries, and [fix] returns. *)
Theorem fix_loop_terminates :
  forall (SrcL : Lawful (I := SrcI)) (ConcatL : Lawful (I := ConcatI))
    (Hord : KeyOrder CompareKeys)
    (mi : MergeIterator) (a b : Iterator) (fuel budget : nat),
    linked CompareKeys mi a b ->
    (weight a <= fuel)%nat -> (weight b <= fuel)%nat ->
    (valid (small mi) = true -> valid (big mi) = true ->
     exists (mi1 : MergeIterator) (a1 b1 : Iterator),
       second_Next (MergeIterator_Next CompareKeys fuel) mi = Ok mi1
       /\ iter (small mi1) = Some a1 /\ iter (big mi1) = Some b1
       /\ second_stream CompareKeys mi1 a1 b1
          = tl (second_stream CompareKeys mi a b))
    /\ ((List.length (second_stream CompareKeys mi a b) < budget)%nat ->
        exists mi' : MergeIterator,
          MergeIterator_fix CompareKeys (MergeIterator_Next CompareKeys fuel)
            budget mi = Ok mi').
Proof.
  intros SrcL ConcatL Hord mi a b fuel budget Hl Hwa Hwb. split.
  - apply second_Next_linked; assumption.
  - intro Hlen.
    destruct (fix_linked (MergeIterator_Next CompareKeys fuel) fuel
                (fun c e s Hw Hc He => placed_Next_at c e s fuel Hw Hc He)
                budget O mi a b Hl Hwa Hwb Hlen) as [mi' [Hf _]].
    exists mi'. exact Hf.
Qed.

(** * Further properties of the code *)

(** ** The end is reported only when both children are at their end *)

Lemma second_Next_valid :
  forall (mNext : MergeIterator -> result MergeIterator)
    (mi mi' : MergeIterator),
    second_Next mNext mi = Ok mi' ->
    second mi' = second mi
    /\ valid (small mi') = valid (small mi)
    /\ valid (big mi') = valid (big mi).
Proof.
  intros mNext mi mi' H. unfold second_Next in H.
  destruct (second mi) eqn:E; [ | discriminate].
  destruct (same_object _ _).
  - inv_bind H. inversion H; subst; simpl. rewrite E. tauto.
  - destruct (same_object _ _).
    + inv_bind H. inversion H; subst; simpl. rewrite E. tauto.
    + inversion H; subst. rewrite E. tauto.
Qed.

Lemma fix_loop_small_valid :
  forall (mNext : MergeIterator -> result MergeIterator) (fuel : nat)
    (mi mi' : MergeIterator),
    valid (big mi) = true ->
    fix_loop CompareKeys mNext fuel mi = Ok mi' ->
    valid (small mi') = true \/ valid (big mi') = false.
Proof.
  intros mNext. induction fuel as [ | fuel IH]; intros mi mi' Hb Hfix;
    simpl in Hfix; [discriminate | ].
  destruct (valid (small mi)) eqn:Hs.
  - destruct (CompareKeys (key (small mi)) (key (big mi)) =? 0).
    + inv_bind Hfix. rename a into mi1.
      destruct (second_Next_valid mNext mi mi1 Ha) as [_ [Hs1 Hb1]].
      inv_bind Hfix. destruct a as [mi2 secondValid].
      destruct (same_object (second mi1) (y_ptr (iter (small mi1)))) eqn:E1.
      * inv_bind Ha0. injection Ha0 as Hmi Hv. subst mi2.
        pose proof (setKey_iter _ _ Ha1) as Hi.
        destruct secondValid; simpl in Hfix.
        -- apply (IH (with_small mi1 a) mi' (eq_trans Hb1 Hb) Hfix).
        -- simpl in Hfix. rewrite Hi, E1, Hb1, Hb in Hfix. simpl in Hfix.
           inversion Hfix; subst. left. simpl. congruence.
      * destruct (same_object (second mi1) (y_ptr (iter (big mi1)))) eqn:E2;
          [ | discriminate].
        inv_bind Ha0. injection Ha0 as Hmi Hv. subst mi2.
        destruct secondValid; simpl in Hfix.
        -- apply (IH (with_big mi1 a) mi' Hv Hfix).
        -- simpl in Hfix. rewrite E1 in Hfix. simpl in Hfix.
           inversion Hfix; subst. right. exact Hv.
    + destruct (reverse mi).
      * destruct (_ <? 0); inversion Hfix; subst; left; simpl; assumption.
      * destruct (_ >? 0); inversion Hfix; subst; left; simpl; assumption.
  - inversion Hfix; subst. left. exact Hb.
Qed.

Lemma fix_small_valid :
  forall (mNext : MergeIterator -> result MergeIterator) (fuel : nat)
    (mi mi' : MergeIterator),
    MergeIterator_fix CompareKeys mNext fuel mi = Ok mi' ->
    valid (small mi') = true \/ valid (big mi') = false.
Proof.
  intros mNext fuel mi mi' H. unfold MergeIterator_fix in H.
  destruct (valid (big mi)) eqn:Hb; simpl in H.
  - apply (fix_loop_small_valid mNext fuel mi mi' Hb H).
  - inversion H; subst. right. exact Hb.
Qed.

(** X4. [fix], and so [Rewind], [Seek] and [Next], never return a state in
    which [small] is invalid while [big] is valid: when [Valid()] answers
    false after any of them, both nodes are at their end. *)
Theorem invalid_means_both_nodes_invalid :
  forall (fuel : nat) (mi mi' : MergeIterator),
    ((exists (mNext : MergeIterator -> result MergeIterator),
        MergeIterator_fix CompareKeys mNext fuel mi = Ok mi')
     \/ MergeIterator_Rewind CompareKeys fuel mi = Ok mi'
     \/ (exists k, MergeIterator_Seek CompareKeys fuel k mi = Ok mi')
     \/ MergeIterator_Next CompareKeys fuel mi = Ok mi') ->
    MergeIterator_Valid mi' = false ->
    valid (small mi') = false /\ valid (big mi') = false.
Proof.
  intros fuel mi mi' Hop Hv. unfold MergeIterator_Valid in Hv.
  split; [exact Hv | ].
  assert (H : valid (small mi') = true \/ valid (big mi') = false).
  { destruct Hop as [[mNext H] | Hop];
      [apply (fix_small_valid mNext fuel mi mi' H) | ].
    destruct fuel as [ | fuel];
      [simpl in Hop; destruct Hop as [H | [[k H] | H]]; discriminate | ].
    destruct Hop as [H | [[k H] | H]]; simpl in H.
    - inv_bind H. inv_bind H. eapply fix_small_valid; eassumption.
    - inv_bind H. inv_bind H. eapply fix_small_valid; eassumption.
    - inv_bind H. eapply fix_small_valid; eassumption. }
  destruct H as [H | H]; [congruence | exact H].
Qed.

Lemma first_error_app : forall l1 l2 : list error,
  first_error (l1 ++ l2)
  = match first_error l1 with
    | Some e => Some e
    | None => first_error l2
    end.
Proof.
  induction l1 as [ | [e | ] l1 IH]; intro l2; simpl;
    [reflexivity | reflexivity | apply IH].
Qed.

Lemma Close_tree : forall (n : nat) (it : Iterator),
  (depth it <= n)%nat ->
  (In None (leaves it) /\ Iterator_Close it = Panic nil_dereference)
  \/ (~ In None (leaves it)
      /\ exists err : error,
           Iterator_Close it = Ok (y_ptrs (leaves it), err)
           /\ match first_error (map leaf_error (leaves it)) with
              | None => err = None
              | Some e =>
                  exists k : nat,
                    (k <= depth it)%nat /\ (k = O <-> depth it = O)
                    /\ err = Some (wraps k e)
              end).
Proof using Type.
  assert (Hleaf : forall (it : Iterator) (p : ptr) (e : error),
            leaves it = [Some it] -> depth it = O -> ptr_of it = p ->
            leaf_error (Some it) = e -> Iterator_Close it = Ok ([p], e) ->
            ~ In None (leaves it)
            /\ exists err : error,
                 Iterator_Close it = Ok (y_ptrs (leaves it), err)
                 /\ match first_error (map leaf_error (leaves it)) with
                    | None => err = None
                    | Some e =>
                        exists k : nat,
                          (k <= depth it)%nat /\ (k = O <-> depth it = O)
                          /\ err = Some (wraps k e)
                    end).
  { intros it p e Hl Hd Hp He Hc. rewrite Hl, Hd. split.
    - intros [H | []]; discriminate.
    - exists e. unfold y_ptrs; cbn [map flat_map app]. rewrite Hp, He.
      split; [exact Hc | ]. cbn [first_error].
      destruct e as [e | ]; [ | reflexivity].
      exists O.
      split; [apply le_n | split; [split; intro; reflexivity | reflexivity]]. }
  induction n as [ | n IH]; intros [p s | p c | p mi] Hd;
    try (right;
         match goal with
         | |- context [Iterator_Close ?t] =>
             apply (Hleaf t p (leaf_error (Some t))); reflexivity
         end);
    simpl in Hd; try lia.
  destruct mi as [[v1 k1 i1] [v2 k2 i2] sec rev]. simpl in *.
  destruct i1 as [a | ];
    [ | left; split; [left; reflexivity | reflexivity]].
  destruct (IH a ltac:(lia)) as [[Ha1 Ha2] | [Ha1 [ea [Ha2 Ha3]]]].
  { left. split; [apply in_or_app; left; exact Ha1 | ].
    rewrite Ha2. reflexivity. }
  rewrite Ha2. cbn [bind].
  destruct i2 as [b | ];
    [ | left; split; [apply in_or_app; right; left; reflexivity
                     | reflexivity]].
  destruct (IH b ltac:(lia)) as [[Hb1 Hb2] | [Hb1 [eb [Hb2 Hb3]]]].
  { left. split; [apply in_or_app; right; exact Hb1 | ].
    rewrite Hb2. reflexivity. }
  rewrite Hb2. cbn [bind]. right. split.
  { intro H. apply in_app_or in H.
    destruct H as [H | H]; [exact (Ha1 H) | exact (Hb1 H)]. }
  assert (Happ : forall l1 l2 : list y_Iterator,
            y_ptrs (l1 ++ l2) = (y_ptrs l1 ++ y_ptrs l2)%list)
    by (intros l1 l2; apply flat_map_app).
  rewrite Happ, map_app, first_error_app.
  destruct (first_error (map leaf_error (leaves a))) as [e | ].
  - destruct Ha3 as [k [Hk [_ Hea]]]. subst ea.
    eexists; split; [reflexivity | ].
    exists (S k). split; [lia | split; [lia | reflexivity]].
  - subst ea. eexists; split; [reflexivity | ].
    destruct (first_error (map leaf_error (leaves b))) as [e | ].
    + destruct Hb3 as [k [Hk [_ Heb]]]. subst eb.
      exists (S k). split; [lia | split; [lia | reflexivity]].
    + subst eb. reflexivity.
Qed.


(** ** The operations keep the tree *)

Lemma same_tree_refl_depth : forall (n : nat) (it : Iterator),
  (depth it <= n)%nat -> same_tree (Some it) (Some it).
Proof.
  induction n as [ | n IH]; intros [p s | p c | p mi] Hd;
    try constructor; simpl in Hd; try lia; try reflexivity.
  - destruct (iter (small mi)) as [a | ];
      [apply IH; lia | constructor].
  - destruct (iter (big mi)) as [b | ];
      [apply IH; lia | constructor].
Qed.

Lemma same_tree_refl : forall it : y_Iterator, same_tree it it.
Proof.
  intros [it | ]; [ | constructor].
  apply (same_tree_refl_depth (depth it)), le_n.
Qed.

Lemma same_tree_trans : forall a b : y_Iterator,
  same_tree a b -> forall c : y_Iterator, same_tree b c -> same_tree a c.
Proof.
  induction 1 as [ | p s s' | p c0 c' | p mi mi' Hs Hr H1 IH1 H2 IH2
                 | p mi mi' Hs Hr H1 IH1 H2 IH2];
    intros c Hc; inversion Hc; subst; try solve [constructor].
  - apply same_kept; [congruence | congruence | apply IH1 | apply IH2];
      assumption.
  - apply same_swapped; [congruence | congruence | apply IH1 | apply IH2];
      assumption.
  - apply same_swapped; [congruence | congruence | apply IH1 | apply IH2];
      assumption.
  - apply same_kept; [congruence | congruence | apply IH1 | apply IH2];
      assumption.
Qed.

Lemma same_tree_facts : forall a b : y_Iterator,
  same_tree a b ->
  y_ptr b = y_ptr a
  /\ y_depth b = y_depth a
  /\ Permutation (map y_ptr (y_leaves a)) (map y_ptr (y_leaves b)).
Proof.
  induction 1 as [ | p s s' | p c0 c' | p mi mi' Hs Hr H1 IH1 H2 IH2
                 | p mi mi' Hs Hr H1 IH1 H2 IH2].
  - repeat split; apply Permutation_refl.
  - repeat split; apply Permutation_refl.
  - repeat split; apply Permutation_refl.
  - destruct IH1 as [_ [Hd1 Hp1]], IH2 as [_ [Hd2 Hp2]].
    split; [reflexivity | split].
    + change (S (Nat.max (y_depth (iter (small mi')))
                   (y_depth (iter (big mi'))))
              = S (Nat.max (y_depth (iter (small mi)))
                     (y_depth (iter (big mi))))).
      rewrite Hd1, Hd2. reflexivity.
    + change (Permutation
                (map y_ptr (y_leaves (iter (small mi))
                            ++ y_leaves (iter (big mi))))
                (map y_ptr (y_leaves (iter (small mi'))
                            ++ y_leaves (iter (big mi'))))).
      rewrite !map_app. apply Permutation_app; assumption.
  - destruct IH1 as [_ [Hd1 Hp1]], IH2 as [_ [Hd2 Hp2]].
    split; [reflexivity | split].
    + change (S (Nat.max (y_depth (iter (small mi')))
                   (y_depth (iter (big mi'))))
              = S (Nat.max (y_depth (iter (small mi)))
                     (y_depth (iter (big mi))))).
      rewrite Hd1, Hd2. f_equal. apply Nat.max_comm.
    + change (Permutation
                (map y_ptr (y_leaves (iter (small mi))
                            ++ y_leaves (iter (big mi))))
                (map y_ptr (y_leaves (iter (small mi'))
                            ++ y_leaves (iter (big mi'))))).
      rewrite !map_app.
      apply Permutation_trans
        with (map y_ptr (y_leaves (iter (big mi')))
              ++ map y_ptr (y_leaves (iter (small mi'))))%list;
        [apply Permutation_app; assumption | apply Permutation_app_comm].
Qed.

Lemma same_tree_node : forall (p q : ptr) (mi mi' : MergeIterator),
  same_tree (Some (PMerge p mi)) (Some (PMerge q mi')) ->
  second mi' = second mi /\ reverse mi' = reverse mi.
Proof. intros p q mi mi' H. inversion H; subst; split; assumption. Qed.

Lemma swap_same : forall (p : ptr) (mi : MergeIterator),
  same_tree (Some (PMerge p mi)) (Some (PMerge p (MergeIterator_swap mi))).
Proof.
  intros p mi.
  apply same_swapped; try reflexivity; apply same_tree_refl.
Qed.

Lemma pair_same : forall (p : ptr) (mi : MergeIterator) (s b : node),
  same_tree (iter (small mi)) (iter s) ->
  same_tree (iter (big mi)) (iter b) ->
  same_tree (Some (PMerge p mi))
    (Some (PMerge p (mkMergeIterator s b (second mi) (reverse mi)))).
Proof. intros p mi s b Hs Hb. apply same_kept; try reflexivity; assumption. Qed.

Lemma with_small_same : forall (p : ptr) (mi : MergeIterator) (n : node),
  same_tree (iter (small mi)) (iter n) ->
  same_tree (Some (PMerge p mi)) (Some (PMerge p (with_small mi n))).
Proof. intros p mi n H. apply pair_same; [exact H | apply same_tree_refl]. Qed.

Lemma with_big_same : forall (p : ptr) (mi : MergeIterator) (n : node),
  same_tree (iter (big mi)) (iter n) ->
  same_tree (Some (PMerge p mi)) (Some (PMerge p (with_big mi n))).
Proof. intros p mi n H. apply pair_same; [apply same_tree_refl | exact H]. Qed.

Lemma call_same :
  forall (m : MergeIterator -> result MergeIterator)
    (f : Src -> Src) (g : ConcatIterator -> ConcatIterator)
    (call : y_Iterator -> result y_Iterator),
    (forall (p : ptr) (mi mi' : MergeIterator),
       m mi = Ok mi' ->
       same_tree (Some (PMerge p mi)) (Some (PMerge p mi'))) ->
    (forall it, call it = match it with
                          | None => Panic nil_dereference
                          | Some (PSource p s) => Ok (Some (PSource p (f s)))
                          | Some (PConcat p c) => Ok (Some (PConcat p (g c)))
                          | Some (PMerge p mi) =>
                              mi' <- m mi ;; Ok (Some (PMerge p mi'))
                          end) ->
    (forall it it' : y_Iterator, call it = Ok it' -> same_tree it it')
    /\ forall n n' : node,
         (it' <- call (iter n) ;; node_setKey (mkNode (valid n) (key n) it'))
         = Ok n' ->
         same_tree (iter n) (iter n').
Proof.
  intros m f g call Hm Hcall.
  assert (Hc : forall it it' : y_Iterator,
            call it = Ok it' -> same_tree it it').
  { intros [[p s | p c | p mi] | ] it' H; rewrite Hcall in H;
      try discriminate.
    - inversion H; constructor.
    - inversion H; constructor.
    - inv_bind H. inversion H; subst. apply Hm. exact Ha. }
  split; [exact Hc | ].
  intros n n' H. inv_bind H. apply setKey_iter in H. rewrite H. simpl.
  apply Hc. exact Ha.
Qed.

Section SameTree.

Variable mNext : MergeIterator -> result MergeIterator.
Hypothesis mNext_same : forall (p : ptr) (mi mi' : MergeIterator),
  mNext mi = Ok mi' -> same_tree (Some (PMerge p mi)) (Some (PMerge p mi')).

Lemma second_Next_same : forall (p : ptr) (mi mi' : MergeIterator),
  second_Next mNext mi = Ok mi' ->
  same_tree (Some (PMerge p mi)) (Some (PMerge p mi')).
Proof.
  intros p mi mi' H. unfold second_Next in H.
  destruct (call_same mNext Next Next (call_Next mNext) mNext_same
              (fun it => eq_refl)) as [Hc _].
  destruct (second mi); [ | discriminate].
  destruct (same_object _ _).
  - inv_bind H. inversion H; subst.
    apply with_small_same. simpl. apply Hc, Ha.
  - destruct (same_object _ _).
    + inv_bind H. inversion H; subst.
      apply with_big_same. simpl. apply Hc, Ha.
    + inversion H; subst. apply same_tree_refl.
Qed.

Lemma fix_loop_same : forall (fuel : nat) (p : ptr) (mi mi' : MergeIterator),
  fix_loop CompareKeys mNext fuel mi = Ok mi' ->
  same_tree (Some (PMerge p mi)) (Some (PMerge p mi')).
Proof.
  induction fuel as [ | fuel IH]; intros p mi mi' H; simpl in H;
    [discriminate | ].
  destruct (valid (small mi));
    [ | inversion H; subst; apply swap_same].
  destruct (CompareKeys (key (small mi)) (key (big mi)) =? 0).
  - inv_bind H. rename a into mi1.
    apply (same_tree_trans _ _ (second_Next_same p mi mi1 Ha)).
    inv_bind H. destruct a as [mi2 sv].
    assert (H12 : same_tree (Some (PMerge p mi1)) (Some (PMerge p mi2))).
    { destruct (same_object _ _).
      - inv_bind Ha0. inversion Ha0; subst.
        apply with_small_same. rewrite (setKey_iter _ _ Ha1).
        apply same_tree_refl.
      - destruct (same_object _ _); [ | discriminate].
        inv_bind Ha0. inversion Ha0; subst.
        apply with_big_same. rewrite (setKey_iter _ _ Ha1).
        apply same_tree_refl. }
    apply (same_tree_trans _ _ H12).
    destruct (negb sv); [ | apply IH, H].
    destruct (_ && _); inversion H; subst;
      [apply swap_same | apply same_tree_refl].
  - destruct (reverse mi).
    + destruct (_ <? 0); inversion H; subst;
        [apply swap_same | apply same_tree_refl].
    + destruct (_ >? 0); inversion H; subst;
        [apply swap_same | apply same_tree_refl].
Qed.

Lemma fix_same : forall (fuel : nat) (p : ptr) (mi mi' : MergeIterator),
  MergeIterator_fix CompareKeys mNext fuel mi = Ok mi' ->
  same_tree (Some (PMerge p mi)) (Some (PMerge p mi')).
Proof.
  intros fuel p mi mi' H. unfold MergeIterator_fix in H.
  destruct (negb (valid (big mi)));
    [inversion H; subst; apply same_tree_refl | ].
  apply (fix_loop_same fuel). exact H.
Qed.

End SameTree.

Lemma Next_same : forall (fuel : nat) (p : ptr) (mi mi' : MergeIterator),
  MergeIterator_Next CompareKeys fuel mi = Ok mi' ->
  same_tree (Some (PMerge p mi)) (Some (PMerge p mi')).
Proof.
  induction fuel as [ | fuel IH]; intros p mi mi' H; simpl in H;
    [discriminate | ].
  rewrite node_next_call in H. inv_bind H.
  destruct (call_same (MergeIterator_Next CompareKeys fuel) Next Next
              (call_Next (MergeIterator_Next CompareKeys fuel))
              (fun q m m' => IH q m m') (fun it => eq_refl)) as [_ Hn].
  apply (same_tree_trans _ (Some (PMerge p (with_small mi a)))).
  - apply with_small_same. apply Hn. exact Ha.
  - apply (fix_same _ (fun q m m' => IH q m m') fuel). exact H.
Qed.

Lemma Rewind_same : forall (fuel : nat) (p : ptr) (mi mi' : MergeIterator),
  MergeIterator_Rewind CompareKeys fuel mi = Ok mi' ->
  same_tree (Some (PMerge p mi)) (Some (PMerge p mi')).
Proof.
  induction fuel as [ | fuel IH]; intros p mi mi' H; simpl in H;
    [discriminate | ].
  unfold node_rewind in H. inv_bind H. inv_bind H.
  destruct (call_same (MergeIterator_Rewind CompareKeys fuel) Rewind Rewind
              (call_Rewind (MergeIterator_Rewind CompareKeys fuel))
              (fun q m m' => IH q m m') (fun it => eq_refl)) as [_ Hn].
  apply (same_tree_trans _
           (Some (PMerge p (mkMergeIterator a a0 (second mi) (reverse mi))))).
  - apply pair_same; apply Hn; assumption.
  - apply (fix_same _ (fun q m m' => Next_same fuel q m m') fuel). exact H.
Qed.

Lemma Seek_same :
  forall (fuel : nat) (k : bytes) (p : ptr) (mi mi' : MergeIterator),
    MergeIterator_Seek CompareKeys fuel k mi = Ok mi' ->
    same_tree (Some (PMerge p mi)) (Some (PMerge p mi')).
Proof.
  induction fuel as [ | fuel IH]; intros k p mi mi' H; simpl in H;
    [discriminate | ].
  unfold node_seek in H. inv_bind H. inv_bind H.
  destruct (call_same (MergeIterator_Seek CompareKeys fuel k)
              (Seek k) (Seek k)
              (call_Seek (MergeIterator_Seek CompareKeys fuel) k)
              (fun q m m' => IH k q m m') (fun it => eq_refl)) as [_ Hn].
  apply (same_tree_trans _
           (Some (PMerge p (mkMergeIterator a a0 (second mi) (reverse mi))))).
  - apply pair_same; apply Hn; assumption.
  - apply (fix_same _ (fun q m m' => Next_same fuel q m m') fuel). exact H.
Qed.

(** X11. [Next], [Rewind] and [Seek] rearrange a tree, they never rebuild
    it: a merge node keeps its [second] and its [reverse]; the leaves under
    it afterwards are the objects that were under it before (the same
    addresses, nil entries included, up to the order the swaps leave them
    in); and the tree is as deep as it was. *)
Theorem operations_keep_the_leaves :
  forall (fuel : nat) (p : ptr) (mi mi' : MergeIterator),
    (MergeIterator_Next CompareKeys fuel mi = Ok mi'
     \/ MergeIterator_Rewind CompareKeys fuel mi = Ok mi'
     \/ exists k : bytes, MergeIterator_Seek CompareKeys fuel k mi = Ok mi') ->
    second mi' = second mi /\ reverse mi' = reverse mi
    /\ Permutation (map y_ptr (leaves (PMerge p mi)))
         (map y_ptr (leaves (PMerge p mi')))
    /\ depth (PMerge p mi') = depth (PMerge p mi).
Proof.
  intros fuel p mi mi' H.
  assert (Hs : same_tree (Some (PMerge p mi)) (Some (PMerge p mi'))).
  { destruct H as [H | [H | [k H]]];
      [apply (Next_same fuel) | apply (Rewind_same fuel)
      | apply (Seek_same fuel k)]; exact H. }
  destruct (same_tree_node _ _ _ _ Hs) as [H1 H2].
  destruct (same_tree_facts _ _ Hs) as [_ [Hd Hp]].
  split; [exact H1 | split; [exact H2 | split; [exact Hp | exact Hd]]].
Qed.

(** ** What [fix] leaves alone *)

Lemma other_node_kept_small :
  forall (mi : MergeIterator) (n x : node),
    n = small mi \/ n = big mi ->
    same_object (second mi) (y_ptr (iter n)) = false ->
    same_object (second mi) (y_ptr (iter (small mi))) = true ->
    n = small (with_small mi x) \/ n = big (with_small mi x).
Proof.
  intros mi n x [Hn | Hn] Hf Ht; [ | right; exact Hn].
  subst n. rewrite Ht in Hf. discriminate.
Qed.

Lemma other_node_kept_big :
  forall (mi : MergeIterator) (n x : node),
    n = small mi \/ n = big mi ->
    same_object (second mi) (y_ptr (iter n)) = false ->
    same_object (second mi) (y_ptr (iter (big mi))) = true ->
    n = small (with_big mi x) \/ n = big (with_big mi x).
Proof.
  intros mi n x [Hn | Hn] Hf Ht; [left; exact Hn | ].
  subst n. rewrite Ht in Hf. discriminate.
Qed.

Lemma other_node_kept_swap : forall (mi : MergeIterator) (n : node),
  n = small mi \/ n = big mi ->
  n = small (MergeIterator_swap mi) \/ n = big (MergeIterator_swap mi).
Proof. intros mi n [Hn | Hn]; [right | left]; exact Hn. Qed.

Lemma second_Next_other_node :
  forall (mNext : MergeIterator -> result MergeIterator)
    (mi mi' : MergeIterator) (n : node),
    second_Next mNext mi = Ok mi' ->
    n = small mi \/ n = big mi ->
    same_object (second mi) (y_ptr (iter n)) = false ->
    second mi' = second mi /\ (n = small mi' \/ n = big mi').
Proof.
  intros mNext mi mi' n H Hn Hf. unfold second_Next in H.
  destruct (second mi) eqn:Es; [ | discriminate]. rewrite <- Es in *.
  destruct (same_object (second mi) (y_ptr (iter (small mi)))) eqn:E1.
  - inv_bind H. inversion H; subst.
    split; [reflexivity | apply other_node_kept_small; assumption].
  - destruct (same_object (second mi) (y_ptr (iter (big mi)))) eqn:E2.
    + inv_bind H. inversion H; subst.
      split; [reflexivity | apply other_node_kept_big; assumption].
    + inversion H; subst. split; [reflexivity | exact Hn].
Qed.

Lemma fix_loop_other_node :
  forall (mNext : MergeIterator -> result MergeIterator) (fuel : nat)
    (mi mi' : MergeIterator) (n : node),
    fix_loop CompareKeys mNext fuel mi = Ok mi' ->
    n = small mi \/ n = big mi ->
    same_object (second mi) (y_ptr (iter n)) = false ->
    second mi' = second mi /\ (n = small mi' \/ n = big mi').
Proof.
  intros mNext.
  induction fuel as [ | fuel IH]; intros mi mi' n H Hn Hf; simpl in H;
    [discriminate | ].
  destruct (valid (small mi));
    [ | inversion H; subst;
        split; [reflexivity | apply other_node_kept_swap, Hn]].
  destruct (CompareKeys (key (small mi)) (key (big mi)) =? 0).
  - inv_bind H. rename a into mi1.
    destruct (second_Next_other_node mNext mi mi1 n Ha Hn Hf) as [Hs1 Hn1].
    rewrite <- Hs1 in Hf. rewrite <- Hs1. clear Ha Hn Hs1.
    inv_bind H. destruct a as [mi2 sv].
    assert (H2 : second mi2 = second mi1
                 /\ (n = small mi2 \/ n = big mi2)).
    { destruct (same_object (second mi1) (y_ptr (iter (small mi1)))) eqn:E1.
      - inv_bind Ha. inversion Ha; subst.
        split; [reflexivity | apply other_node_kept_small; assumption].
      - destruct (same_object (second mi1) (y_ptr (iter (big mi1)))) eqn:E2;
          [ | discriminate].
        inv_bind Ha. inversion Ha; subst.
        split; [reflexivity | apply other_node_kept_big; assumption]. }
    destruct H2 as [Hs2 Hn2]. rewrite <- Hs2 in Hf. rewrite <- Hs2.
    destruct (negb sv); [ | apply IH; assumption].
    destruct (_ && _); inversion H; subst;
      (split; [reflexivity | ]);
      [apply other_node_kept_swap, Hn2 | exact Hn2].
  - destruct (reverse mi).
    + destruct (_ <? 0); inversion H; subst;
        (split; [reflexivity | ]);
        [apply other_node_kept_swap, Hn | exact Hn].
    + destruct (_ >? 0); inversion H; subst;
        (split; [reflexivity | ]);
        [apply other_node_kept_swap, Hn | exact Hn].
Qed.

(** X14. [fix] advances [second] only. Whatever the nested [Next] does and
    however often the loop turns, the node of the child that [second] does
    not point to comes out of [fix] as it went in, its iterator, [valid] and
    [key] untouched, in one of the two places; and [second] itself is not
    reassigned. *)
Theorem fix_advances_only_second :
  forall (mNext : MergeIterator -> result MergeIterator) (fuel : nat)
    (mi mi' : MergeIterator) (n : node),
    MergeIterator_fix CompareKeys mNext fuel mi = Ok mi' ->
    n = small mi \/ n = big mi ->
    same_object (second mi) (y_ptr (iter n)) = false ->
    second mi' = second mi /\ (n = small mi' \/ n = big mi').
Proof.
  intros mNext fuel mi mi' n H Hn Hf. unfold MergeIterator_fix in H.
  destruct (negb (valid (big mi)));
    [inversion H; subst; split; [reflexivity | exact Hn] | ].
  exact (fix_loop_other_node mNext fuel mi mi' n H Hn Hf).
Qed.

(** X15. The builder positions nothing. A tree built of two or more entries
    is not valid, and its key is nil, whatever its sources stand on: the
    nodes are zero values until [Rewind] or [Seek] runs. (One entry is
    returned as it is, and answers for itself.) *)
Theorem fresh_tree_is_not_valid :
  forall (iters : list y_Iterator) (rev : bool) (next : ptr),
    (2 <= List.length iters)%nat ->
    call_Valid (fst (NewMergeIterator iters rev next)) = Ok false
    /\ call_Key (fst (NewMergeIterator iters rev next)) = Ok [].
Proof.
  intros iters rev next Hlen.
  destruct iters as [ | a [ | b [ | c l]]]; simpl in Hlen; try lia.
  - rewrite NewMergeIterator_two. split; reflexivity.
  - rewrite NewMergeIterator_split by (simpl; lia). cbv zeta.
    destruct (NewMergeIterator (firstn _ _) rev next) as [lt next1].
    destruct (NewMergeIterator (skipn _ _) rev next1) as [rt next2].
    rewrite NewMergeIterator_two. split; reflexivity.
Qed.

Section Whole.

Context {SrcL : Lawful (I := SrcI)} {ConcatL : Lawful (I := ConcatI)}.
Context {Hord : KeyOrder CompareKeys}.

Notation entry := (@entry ValueStruct).
Notation ms := (merge_streams CompareKeys).
Notation stream_of := (istream CompareKeys).
Notation placed := (positioned CompareKeys).

(** ** A positioned tree is itself an iterator under the contract *)

(** X3. A positioned merge tree keeps the contract it asks of its sources:
    [Valid] tells whether entries remain, [Key] and [Value] are those of the
    first remaining entry, and [Next] returns (given the budget) a positioned
    tree at the same address that has the rest to yield. *)
Theorem positioned_tree_keeps_the_contract :
  forall it : Iterator,
    positioned CompareKeys it ->
    call_Valid (Some it) = Ok (nonempty (istream CompareKeys it))
    /\ forall (e : entry) (s : list entry),
         istream CompareKeys it = e :: s ->
         call_Key (Some it) = Ok (fst e)
         /\ call_Value (Some it) = Ok (snd e)
         /\ forall fuel : nat,
              (weight it <= fuel)%nat ->
              exists it' : Iterator,
                Next_at CompareKeys fuel (Some it) = Ok (Some it')
                /\ positioned CompareKeys it'
                /\ istream CompareKeys it' = s
                /\ ptr_of it' = ptr_of it.
Proof.
  intros it Hp. destruct (positioned_contract it Hp) as [Hv Hk].
  split; [exact Hv | ].
  intros e s Hs. destruct (Hk e s Hs) as [Hkey Hval].
  split; [exact Hkey | split; [exact Hval | ]].
  intros fuel Hfuel.
  destruct (placed_Next_at it e s fuel Hfuel Hp Hs)
    as [it' [Hn [Hp' [Hs' [Hptr _]]]]].
  exists it'. repeat split; assumption.
Qed.

(** ** The tree the builder makes *)

Lemma built_nonempty : forall (rev : bool) (l : list y_Iterator) (t : Iterator),
  built rev l t -> (1 <= List.length l)%nat.
Proof.
  intros rev l t H. induction H as [it Hs | l1 l2 t1 t2 p H1 IH1 H2 IH2 Hl Hn];
    [simpl; lia | rewrite length_app; lia].
Qed.

Lemma built_shaped : forall (rev : bool) (l : list y_Iterator) (t : Iterator),
  built rev l t -> shaped t.
Proof.
  intros rev l t H. induction H as [it Hs | l1 l2 t1 t2 p H1 IH1 H2 IH2 Hl Hn].
  - apply source_shaped. exact Hs.
  - apply shaped_merge with (a := t1) (b := t2);
      try reflexivity; try assumption. right; reflexivity.
Qed.

Lemma built_leaves : forall (rev : bool) (l : list y_Iterator) (t : Iterator),
  built rev l t -> leaves t = l.
Proof.
  intros rev l t H. induction H as [it Hs | l1 l2 t1 t2 p H1 IH1 H2 IH2 Hl Hn].
  - destruct it; simpl in *; [reflexivity | reflexivity | contradiction].
  - simpl. rewrite IH1, IH2. reflexivity.
Qed.

Lemma built_depth : forall (rev : bool) (l : list y_Iterator) (t : Iterator),
  built rev l t ->
  (List.length l <= 2 ^ depth t /\ 2 ^ depth t < 2 * List.length l)%nat.
Proof.
  intros rev l t H. induction H as [it Hs | l1 l2 t1 t2 p H1 IH1 H2 IH2 Hl Hn].
  - destruct it; simpl in *; try contradiction; lia.
  - pose proof (built_nonempty _ _ _ H1) as Hp1.
    pose proof (built_nonempty _ _ _ H2) as Hp2.
    rewrite length_app in *.
    set (a := List.length l1) in *. set (b := List.length l2) in *.
    assert (Hab : (a <= b <= a + 1)%nat).
    { pose proof (Nat.div_mod_eq (a + b) 2) as Hd.
      pose proof (Nat.mod_upper_bound (a + b) 2 ltac:(lia)) as Hm. lia. }
    change (depth _) with (S (Nat.max (depth t1) (depth t2))).
    set (d1 := depth t1) in *. set (d2 := depth t2) in *.
    assert (Hd : (d1 <= d2)%nat).
    { destruct (Nat.le_gt_cases d1 d2) as [Hle | Hgt]; [exact Hle | ].
      pose proof (Nat.pow_le_mono_r 2 (S d2) d1 ltac:(lia) Hgt) as Hpow.
      rewrite Nat.pow_succ_r' in Hpow. lia. }
    rewrite (Nat.max_r d1 d2 Hd), Nat.pow_succ_r'.
    destruct d2 as [ | d]; [simpl in *; lia | ].
    rewrite Nat.pow_succ_r' in *. lia.
Qed.

Lemma build_built :
  forall (fuel : nat) (iters : list y_Iterator) (rev : bool) (next : ptr),
    (List.length iters <= fuel)%nat -> iters <> [] ->
    sources iters next ->
    exists t : Iterator,
      NewMergeIterator_rec fuel iters rev next
      = (Some t, (next + (List.length iters - 1))%nat)
      /\ (In (ptr_of t) (y_ptrs iters)
          \/ (next <= ptr_of t < next + (List.length iters - 1))%nat)
      /\ built rev iters t.
Proof.
  induction fuel as [ | fuel IH]; intros iters rev next Hlen Hne Hsrc.
  - destruct iters; [congruence | simpl in Hlen; lia].
  - destruct iters as [ | a [ | b [ | c l]]]; [congruence | | | ].
    + destruct Hsrc as [Hs _]. inversion Hs as [ | ? ? Ha _]; subst.
      destruct a as [ia | ]; [ | contradiction].
      exists ia. simpl. rewrite Nat.add_0_r. split; [reflexivity | ].
      split; [left; left; reflexivity | apply built_source; exact Ha].
    + pose proof Hsrc as [Hs [Hnd _]].
      inversion Hs as [ | ? ? Ha Hs']; subst.
      inversion Hs' as [ | ? ? Hb _]; subst.
      destruct a as [ia | ]; [ | contradiction].
      destruct b as [ib | ]; [ | contradiction].
      assert (Hneq : ptr_of ia <> ptr_of ib).
      { simpl in Hnd. inversion Hnd as [ | ? ? Hin _]; subst.
        simpl in Hin. intro Heq. apply Hin. left. congruence. }
      exists (PMerge next
                (mkMergeIterator (mkNode false [] (Some ia))
                   (mkNode false [] (Some ib)) (Some (ptr_of ib)) rev)).
      split; [ | split].
      * simpl. rewrite Nat.add_1_r. reflexivity.
      * right. simpl. lia.
      * change [Some ia; Some ib] with ([Some ia] ++ [Some ib])%list.
        apply built_merge;
          [apply built_source; exact Ha | apply built_source; exact Hb
          | reflexivity | exact Hneq].
    + remember (a :: b :: c :: l) as iters eqn:Ei.
      assert (Hlen3 : (3 <= List.length iters)%nat)
        by (subst iters; simpl; lia).
      assert (E : NewMergeIterator_rec (S fuel) iters rev next
        = let mid := Nat.div (List.length iters) 2 in
          let (l, next1) :=
            NewMergeIterator_rec fuel (firstn mid iters) rev next in
          let (r, next2) :=
            NewMergeIterator_rec fuel (skipn mid iters) rev next1 in
          NewMergeIterator_rec fuel [l; r] rev next2)
        by (subst iters; reflexivity).
      rewrite E. cbv zeta. clear E.
      set (mid := Nat.div (List.length iters) 2).
      assert (Hmid : (mid < List.length iters)%nat)
        by (apply Nat.div_lt; lia).
      assert (Hmid0 : (0 < mid)%nat) by (apply Nat.div_str_pos; lia).
      pose proof (firstn_skipn mid iters) as Hsplit.
      pose proof Hsrc as Hsrc0. rewrite <- Hsplit in Hsrc.
      destruct (sources_app _ _ _ Hsrc) as [Hs1 [Hs2 Hapart]].
      assert (Hlf : List.length (firstn mid iters) = mid)
        by (rewrite length_firstn; lia).
      assert (Hls : List.length (skipn mid iters)
                    = (List.length iters - mid)%nat)
        by (apply length_skipn).
      assert (Hl1 : firstn mid iters <> [])
        by (intro Hnil; rewrite Hnil in Hlf; simpl in Hlf; lia).
      assert (Hl2 : skipn mid iters <> [])
        by (intro Hnil; rewrite Hnil in Hls; simpl in Hls; lia).
      destruct (IH (firstn mid iters) rev next) as [t1 H1];
        [lia | exact Hl1 | exact Hs1 | ].
      destruct H1 as [Hb1 [Hp1 Hbt1]]. rewrite Hb1.
      set (next1 := (next + (List.length (firstn mid iters) - 1))%nat) in *.
      destruct (IH (skipn mid iters) rev next1) as [t2 H2];
        [lia | exact Hl2
        | apply (sources_later _ next); [exact Hs2 | unfold next1; lia] | ].
      destruct H2 as [Hb2 [Hp2 Hbt2]]. rewrite Hb2.
      set (next2 := (next1 + (List.length (skipn mid iters) - 1))%nat) in *.
      assert (Hneq : ptr_of t1 <> ptr_of t2).
      { destruct Hs1 as [_ [_ Hlt1]]. destruct Hs2 as [_ [_ Hlt2]].
        rewrite Forall_forall in Hlt1, Hlt2.
        destruct Hp1 as [Hp1 | Hp1]; destruct Hp2 as [Hp2 | Hp2].
        - intro Heq. rewrite Heq in Hp1. apply (Hapart _ Hp1 Hp2).
        - specialize (Hlt1 _ Hp1). unfold next1 in *. lia.
        - specialize (Hlt2 _ Hp2). lia.
        - unfold next2, next1 in *. lia. }
      exists (PMerge next2
                (mkMergeIterator (mkNode false [] (Some t1))
                   (mkNode false [] (Some t2)) (Some (ptr_of t2)) rev)).
      split; [ | split].
      * replace (next + (List.length iters - 1))%nat with (S next2)
          by (unfold next2, next1; lia).
        destruct fuel; reflexivity.
      * right. simpl. unfold next2, next1. lia.
      * rewrite <- Hsplit.
        apply built_merge; try assumption.
        rewrite Hsplit, Hlf. reflexivity.
Qed.

Lemma build_leaves :
  forall (n : nat) (iters : list y_Iterator) (rev : bool) (next : ptr),
    (List.length iters <= n)%nat -> iters <> [] ->
    snd (NewMergeIterator iters rev next)
    = (next + (List.length iters - 1))%nat
    /\ y_leaves (fst (NewMergeIterator iters rev next))
       = flat_map y_leaves iters.
Proof.
  induction n as [ | n IH]; intros iters rev next Hlen Hne.
  - destruct iters; [congruence | simpl in Hlen; lia].
  - destruct iters as [ | a [ | b [ | c l]]]; [congruence | | | ].
    + unfold NewMergeIterator; simpl. rewrite app_nil_r.
      split; [lia | reflexivity].
    + rewrite NewMergeIterator_two. simpl. rewrite app_nil_r.
      split; [lia | destruct a, b; reflexivity].
    + remember (a :: b :: c :: l) as iters eqn:Ei.
      assert (Hlen3 : (3 <= List.length iters)%nat)
        by (subst iters; simpl; lia).
      rewrite NewMergeIterator_split by lia. cbv zeta.
      set (mid := Nat.div (List.length iters) 2).
      assert (Hmid : (mid < List.length iters)%nat)
        by (apply Nat.div_lt; lia).
      assert (Hmid0 : (0 < mid)%nat) by (apply Nat.div_str_pos; lia).
      assert (Hlf : List.length (firstn mid iters) = mid)
        by (rewrite length_firstn; lia).
      assert (Hls : List.length (skipn mid iters)
                    = (List.length iters - mid)%nat)
        by (apply length_skipn).
      assert (Hl1 : firstn mid iters <> [])
        by (intro E; rewrite E in Hlf; simpl in Hlf; lia).
      assert (Hl2 : skipn mid iters <> [])
        by (intro E; rewrite E in Hls; simpl in Hls; lia).
      destruct (IH (firstn mid iters) rev next ltac:(lia) Hl1) as [Hn1 Hv1].
      destruct (NewMergeIterator (firstn mid iters) rev next) as [lt next1].
      simpl in Hn1, Hv1.
      destruct (IH (skipn mid iters) rev next1 ltac:(lia) Hl2) as [Hn2 Hv2].
      destruct (NewMergeIterator (skipn mid iters) rev next1) as [rt next2].
      simpl in Hn2, Hv2.
      rewrite NewMergeIterator_two. simpl fst. simpl snd. split; [lia | ].
      replace (flat_map y_leaves iters)
        with (flat_map y_leaves (firstn mid iters ++ skipn mid iters))
        by (rewrite firstn_skipn; reflexivity).
      rewrite flat_map_app, <- Hv1, <- Hv2.
      destruct lt, rt; reflexivity.
Qed.

Lemma flat_map_leaves_sources : forall iters : list y_Iterator,
  Forall is_source iters -> flat_map y_leaves iters = iters.
Proof.
  induction 1 as [ | [[p s | p c | p mi] | ] l Ha Hl IH]; simpl;
    try contradiction; try (rewrite IH; reflexivity).
  reflexivity.
Qed.

(** X1. Whatever the [n >= 1] entries of the list are (sources, trees built
    before, nil), the builder allocates [n - 1] merge nodes, and the leaves
    of its tree are the leaves of the entries, in the order of the list: none
    is lost, doubled or moved. Of sources, the leaves are the list itself;
    one iterator is returned as it is. *)
Theorem NewMergeIterator_keeps_the_sources_in_order :
  forall (iters : list y_Iterator) (rev : bool) (next : ptr),
    iters <> [] ->
    snd (NewMergeIterator iters rev next)
    = (next + (List.length iters - 1))%nat
    /\ y_leaves (fst (NewMergeIterator iters rev next))
       = flat_map y_leaves iters
    /\ (Forall is_source iters ->
        y_leaves (fst (NewMergeIterator iters rev next)) = iters)
    /\ (List.length iters = 1%nat ->
        fst (NewMergeIterator iters rev next) = hd None iters).
Proof.
  intros iters rev next Hne.
  destruct (build_leaves (List.length iters) iters rev next (le_n _) Hne)
    as [H1 H2].
  split; [exact H1 | split; [exact H2 | split]].
  - intro Hs. rewrite H2. apply flat_map_leaves_sources, Hs.
  - intro Hl. destruct iters as [ | a [ | b l]]; simpl in Hl; try lia.
    reflexivity.
Qed.

(** X2. The tree built of [n >= 1] sources is balanced: its depth [d] is the
    least with [n <= 2 ^ d]. *)
Theorem NewMergeIterator_builds_a_tree_of_logarithmic_depth :
  forall (iters : list y_Iterator) (rev : bool) (next : ptr),
    iters <> [] -> sources iters next ->
    exists t : Iterator,
      fst (NewMergeIterator iters rev next) = Some t
      /\ (List.length iters <= 2 ^ depth t)%nat
      /\ (2 ^ depth t < 2 * List.length iters)%nat.
Proof.
  intros iters rev next Hne Hsrc.
  destruct (build_built (List.length iters) iters rev next (le_n _) Hne Hsrc)
    as [t [Hb [_ Hbt]]].
  exists t. unfold NewMergeIterator. rewrite Hb.
  split; [reflexivity | apply (built_depth rev); exact Hbt].
Qed.

(** ** What a built tree yields, for any sources *)

Lemma ms_keeps_first : forall (rev : bool) (e : entry) (F R : list entry),
  In e F -> In e (ms rev F R).
Proof.
  intros rev e F. induction F as [ | f F IHF]; intros R H; [contradiction | ].
  induction R as [ | r R IHR]; [rewrite ms_nil_r; exact H | ].
  rewrite ms_cons. destruct (_ =? 0); [exact IHR | ].
  destruct (before _ _).
  - destruct H as [-> | H]; [left; reflexivity | right; apply IHF; exact H].
  - right. exact IHR.
Qed.

Lemma ms_keys_second : forall (rev : bool) (e : entry) (F R : list entry),
  In e R -> exists e', In e' (ms rev F R) /\ fst e' = fst e.
Proof.
  intros rev e F. induction F as [ | f F IHF]; intros R H.
  - rewrite ms_nil_l. exists e. split; [exact H | reflexivity].
  - induction R as [ | r R IHR]; [contradiction | ].
    rewrite ms_cons.
    destruct (CompareKeys (fst f) (fst r) =? 0) eqn:Hc.
    + destruct H as [-> | H]; [ | apply IHR; exact H].
      exists f. split; [apply ms_keeps_first; left; reflexivity | ].
      apply Z.eqb_eq in Hc. apply cmp_eq. exact Hc.
    + destruct (before rev (CompareKeys (fst f) (fst r))).
      * destruct (IHF (r :: R) H) as [e' [He' Hk]].
        exists e'. split; [right; exact He' | exact Hk].
      * destruct H as [-> | H].
        -- exists e. split; [left; reflexivity | reflexivity].
        -- destruct (IHR H) as [e' [He' Hk]].
           exists e'. split; [right; exact He' | exact Hk].
Qed.

Lemma ms_nil : forall (rev : bool) (F R : list entry),
  ms rev F R = [] <-> F = [] /\ R = [].
Proof.
  intros rev F R. split.
  - intro H. destruct F as [ | f F].
    + rewrite ms_nil_l in H. tauto.
    + pose proof (ms_keeps_first rev f (f :: F) R (or_introl eq_refl)) as Hin.
      rewrite H in Hin. contradiction.
  - intros [-> ->]. reflexivity.
Qed.

Section Moved.

Variable f : Src -> Src.
Variable g : ConcatIterator -> ConcatIterator.

Notation moved :=
  (tree_stream CompareKeys (fun s => stream (f s)) (fun c => stream (g c))).
Notation y_mv := (y_moved CompareKeys f g).

Lemma moved_merge :
  forall (rev : bool) (p : ptr) (t1 t2 : Iterator),
    ptr_of t1 <> ptr_of t2 ->
    moved (PMerge p
             (mkMergeIterator (mkNode false [] (Some t1))
                (mkNode false [] (Some t2)) (Some (ptr_of t2)) rev))
    = ms rev (moved t1) (moved t2).
Proof.
  intros rev p t1 t2 Hne. cbn [tree_stream small big iter second reverse].
  rewrite (same_object_ptr_neq (ptr_of t2) (ptr_of t1)) by congruence.
  reflexivity.
Qed.

Lemma built_moved_In :
  forall (rev : bool) (l : list y_Iterator) (t : Iterator),
    built rev l t ->
    forall e : entry,
      In e (moved t) -> exists it, In it l /\ In e (y_mv it).
Proof.
  intros rev l t H.
  induction H as [it Hs | l1 l2 t1 t2 p H1 IH1 H2 IH2 Hl Hn]; intros e He.
  - exists (Some it). split; [left; reflexivity | exact He].
  - rewrite (moved_merge rev p t1 t2 Hn) in He.
    destruct (ms_In rev e _ _ He) as [He' | He'].
    + destruct (IH1 e He') as [it [Hit Hin]].
      exists it. split; [apply in_or_app; left; exact Hit | exact Hin].
    + destruct (IH2 e He') as [it [Hit Hin]].
      exists it. split; [apply in_or_app; right; exact Hit | exact Hin].
Qed.

Lemma built_moved_keys :
  forall (rev : bool) (l : list y_Iterator) (t : Iterator),
    built rev l t ->
    forall (it : y_Iterator) (e : entry),
      In it l -> In e (y_mv it) ->
      exists e', In e' (moved t) /\ fst e' = fst e.
Proof.
  intros rev l t H.
  induction H as [it0 Hs | l1 l2 t1 t2 p H1 IH1 H2 IH2 Hl Hn];
    intros it e Hit He.
  - destruct Hit as [<- | []]. exists e. split; [exact He | reflexivity].
  - rewrite (moved_merge rev p t1 t2 Hn).
    apply in_app_or in Hit. destruct Hit as [Hit | Hit].
    + destruct (IH1 it e Hit He) as [e' [He' Hk]].
      exists e'. split; [apply ms_keeps_first; exact He' | exact Hk].
    + destruct (IH2 it e Hit He) as [e' [He' Hk]].
      destruct (ms_keys_second rev e' (moved t1) (moved t2) He')
        as [e'' [He'' Hk']].
      exists e''. split; [exact He'' | congruence].
Qed.

Lemma built_moved_first :
  forall (rev : bool) (l : list y_Iterator) (t : Iterator),
    built rev l t ->
    forall e : entry, In e (y_mv (hd None l)) -> In e (moved t).
Proof.
  intros rev l t H.
  induction H as [it0 Hs | l1 l2 t1 t2 p H1 IH1 H2 IH2 Hl Hn]; intros e He.
  - exact He.
  - rewrite (moved_merge rev p t1 t2 Hn). apply ms_keeps_first. apply IH1.
    pose proof (built_nonempty _ _ _ H1) as Hlen.
    destruct l1; [simpl in Hlen; lia | exact He].
Qed.

Lemma built_moved_sorted :
  forall (rev : bool) (rel : bytes -> bytes -> Prop),
    (forall a b c : bytes, rel a b -> rel b c -> rel a c) ->
    (forall a b : bytes, before rev (CompareKeys a b) = true -> rel a b) ->
    forall (l : list y_Iterator) (t : Iterator),
      built rev l t ->
      Forall (fun it => Sorted rel (map fst (y_mv it))) l ->
      StronglySorted (fun e1 e2 : entry => rel (fst e1) (fst e2)) (moved t).
Proof.
  intros rev rel Htrans Hbefore l t H.
  induction H as [it0 Hs | l1 l2 t1 t2 p H1 IH1 H2 IH2 Hl Hn]; intro Hall.
  - inversion Hall as [ | ? ? Hit _]; subst.
    apply (sorted_keys_entries rel Htrans). exact Hit.
  - apply Forall_app in Hall. destruct Hall as [Ha1 Ha2].
    rewrite (moved_merge rev p t1 t2 Hn).
    apply (ms_sorted rev rel Htrans Hbefore); auto.
Qed.

Lemma built_moved_find :
  forall (rev : bool) (l : list y_Iterator) (t : Iterator),
    built rev l t ->
    Forall (fun it => Sorted (key_lt CompareKeys rev) (map fst (y_mv it))) l ->
    forall k : bytes,
      find (same_key CompareKeys k) (moved t)
      = first_entry CompareKeys k (map y_mv l).
Proof.
  intros rev l t H.
  induction H as [it0 Hs | l1 l2 t1 t2 p H1 IH1 H2 IH2 Hl Hn];
    intros Hall k.
  - simpl. destruct (find _ _); reflexivity.
  - pose proof Hall as Hall0.
    apply Forall_app in Hall. destruct Hall as [Ha1 Ha2].
    rewrite (moved_merge rev p t1 t2 Hn), map_app, first_entry_app.
    rewrite <- (IH1 Ha1 k), <- (IH2 Ha2 k).
    apply find_ms.
    apply (built_moved_sorted rev (key_lt CompareKeys rev)
             (key_lt_trans rev) (fun a b Hb => Hb) l1 t1 H1 Ha1).
Qed.

Lemma built_moved_nil :
  forall (rev : bool) (l : list y_Iterator) (t : Iterator),
    built rev l t ->
    (moved t = [] <-> forall it, In it l -> y_mv it = []).
Proof.
  intros rev l t H. split.
  - intros Hnil it Hit. destruct (y_mv it) as [ | e s] eqn:E; [reflexivity | ].
    destruct (built_moved_keys rev l t H it e Hit) as [e' [He' _]];
      [rewrite E; left; reflexivity | ].
    rewrite Hnil in He'. contradiction.
  - intro Hall. destruct (moved t) as [ | e s] eqn:E; [reflexivity | ].
    destruct (built_moved_In rev l t H e) as [it [Hit He]];
      [rewrite E; left; reflexivity | ].
    rewrite (Hall it Hit) in He. contradiction.
Qed.

Lemma built_moved_extremal :
  forall (rev : bool) (l : list y_Iterator) (t : Iterator),
    built rev l t ->
    Forall (fun it => Sorted (key_le CompareKeys rev) (map fst (y_mv it))) l ->
    forall (e0 : entry) (s : list entry),
      moved t = e0 :: s ->
      (exists it, In it l /\ In e0 (y_mv it))
      /\ forall (it : y_Iterator) (e : entry),
           In it l -> In e (y_mv it) ->
           key_le CompareKeys rev (fst e0) (fst e).
Proof.
  intros rev l t H Hall e0 s E. split.
  - apply (built_moved_In rev l t H). rewrite E. left. reflexivity.
  - intros it e Hit He.
    pose proof (built_moved_sorted rev (key_le CompareKeys rev)
                  (key_le_trans rev) (fun a b Hb => key_lt_le rev a b Hb)
                  l t H Hall) as Hs.
    rewrite E in Hs. apply StronglySorted_inv in Hs. destruct Hs as [_ Hs].
    destruct (built_moved_keys rev l t H it e Hit He) as [e' [He' Hk]].
    rewrite E in He'. rewrite <- Hk. destruct He' as [<- | He'].
    + unfold key_le. rewrite cmp_refl. destruct rev; lia.
    + rewrite Forall_forall in Hs. apply (Hs e' He').
Qed.

Lemma built_moved_landing :
  forall (rev : bool) (l : list y_Iterator) (t t0 : Iterator),
    built rev l t -> placed t0 -> stream_of t0 = moved t ->
    Forall (fun it => Sorted (key_le CompareKeys rev) (map fst (y_mv it))) l ->
    (call_Valid (Some t0) = Ok false <-> forall it, In it l -> y_mv it = [])
    /\ (call_Valid (Some t0) = Ok true ->
        exists e0 : entry,
          call_Key (Some t0) = Ok (fst e0)
          /\ call_Value (Some t0) = Ok (snd e0)
          /\ (exists it, In it l /\ In e0 (y_mv it))
          /\ forall (it : y_Iterator) (e : entry),
               In it l -> In e (y_mv it) ->
               key_le CompareKeys rev (fst e0) (fst e)).
Proof.
  intros rev l t t0 Hb Hp Hs Hall.
  destruct (positioned_contract t0 Hp) as [Hv Hk].
  rewrite Hv, Hs. split.
  - rewrite <- (built_moved_nil rev l t Hb).
    destruct (moved t); simpl; split; intro H;
      congruence || discriminate.
  - intro Hvalid. destruct (moved t) as [ | e0 s] eqn:E;
      [discriminate | ].
    rewrite Hs in Hk. destruct (Hk e0 s eq_refl) as [Hkey Hval].
    exists e0. split; [exact Hkey | split; [exact Hval | ]].
    apply (built_moved_extremal rev l t Hb Hall e0 s E).
Qed.

End Moved.

Lemma seek_traverse_shaped : forall (k : bytes) (it : Iterator) (fuel : nat),
  shaped it -> (sought_weight k it < fuel)%nat ->
  seek_traverse CompareKeys fuel k (Some it)
  = Ok (tree_stream CompareKeys (fun s => stream (Seek k s))
          (fun c => stream (Seek k c)) it).
Proof.
  intros k it fuel Hs Hfuel. unfold seek_traverse.
  destruct (shaped_reposition (Seek k) (Seek k)
              (fun n => MergeIterator_Seek CompareKeys n k)
              (fun _ _ => eq_refl) it Hs fuel)
    as [it' [Hr [Hp [Hst [_ Hw]]]]]; [unfold sought_weight in Hfuel; lia | ].
  change (Seek_at CompareKeys fuel k (Some it) = Ok (Some it')) in Hr.
  rewrite Hr. cbn [bind]. rewrite <- Hst.
  pose proof (stream_length_weight it' Hp).
  unfold sought_weight in Hfuel.
  apply collect_placed; [exact Hp | lia | lia].
Qed.

(** X5. Whatever the sources hold, sorted or not, the traversal of the tree
    built of them returns; every entry it yields is an entry of one of the
    sources; every key of every source is yielded; and no entry of the first
    source of the list is dropped. *)
Theorem traversal_yields_the_keys_of_the_sources :
  forall (iters : list y_Iterator) (rev : bool) (next : ptr),
    iters <> [] -> sources iters next ->
    exists (fuel0 : nat) (out : list entry),
      (forall fuel : nat,
         (fuel0 <= fuel)%nat ->
         traverse CompareKeys fuel (fst (NewMergeIterator iters rev next))
         = Ok out)
      /\ (forall e : entry,
            In e out ->
            exists it, In it iters /\ In e (y_content CompareKeys it))
      /\ (forall (it : y_Iterator) (e : entry),
            In it iters -> In e (y_content CompareKeys it) ->
            exists e', In e' out /\ fst e' = fst e)
      /\ (forall e : entry,
            In e (y_content CompareKeys (hd None iters)) -> In e out).
Proof.
  intros iters rev next Hne Hsrc.
  destruct (build_built (List.length iters) iters rev next (le_n _) Hne Hsrc)
    as [t [Hb [_ Hbt]]].
  exists (S (content_weight t)), (content CompareKeys t).
  split; [ | split; [ | split]].
  - intros fuel Hfuel. unfold NewMergeIterator. rewrite Hb. simpl fst.
    apply traverse_shaped; [apply (built_shaped rev iters); exact Hbt | lia].
  - exact (built_moved_In Rewind Rewind rev iters t Hbt).
  - exact (built_moved_keys Rewind Rewind rev iters t Hbt).
  - exact (built_moved_first Rewind Rewind rev iters t Hbt).
Qed.

(** X6. [Rewind] on the tree built of sorted sources lands on the extremal
    entry: afterwards [Valid] answers false exactly when every source is
    empty, and else [Key] and [Value] are those of an entry of a source whose
    key stands at or before every key of every source in the direction. *)
Theorem Rewind_lands_on_the_extremal_key :
  forall (iters : list y_Iterator) (rev : bool) (next : ptr),
    iters <> [] -> sources iters next ->
    Forall (fun it =>
              Sorted (key_le CompareKeys rev)
                (map fst (y_content CompareKeys it))) iters ->
    exists fuel0 : nat,
      forall fuel : nat,
        (fuel0 <= fuel)%nat ->
        exists t0 : Iterator,
          Rewind_at CompareKeys fuel (fst (NewMergeIterator iters rev next))
          = Ok (Some t0)
          /\ (call_Valid (Some t0) = Ok false <->
              forall it, In it iters -> y_content CompareKeys it = [])
          /\ (call_Valid (Some t0) = Ok true ->
              exists e0 : entry,
                call_Key (Some t0) = Ok (fst e0)
                /\ call_Value (Some t0) = Ok (snd e0)
                /\ (exists it,
                      In it iters /\ In e0 (y_content CompareKeys it))
                /\ forall (it : y_Iterator) (e : entry),
                     In it iters -> In e (y_content CompareKeys it) ->
                     key_le CompareKeys rev (fst e0) (fst e)).
Proof.
  intros iters rev next Hne Hsrc Hall.
  destruct (build_built (List.length iters) iters rev next (le_n _) Hne Hsrc)
    as [t [Hb [_ Hbt]]].
  exists (content_weight t). intros fuel Hfuel.
  destruct (shaped_Rewind t (built_shaped rev iters t Hbt) fuel Hfuel)
    as [t0 [Hr [Hp [Hs _]]]].
  exists t0. unfold NewMergeIterator. rewrite Hb. simpl fst.
  split; [exact Hr | ].
  exact (built_moved_landing Rewind Rewind rev iters t t0 Hbt Hp Hs Hall).
Qed.

(** X7. [Seek] on the built tree lands on the extremal entry of what the
    sources yield after their own [Seek] to the same key, provided each of
    them yields it in order: [Valid] then answers false exactly when no
    source has an entry left, and else [Key] and [Value] are those of such an
    entry, whose key stands at or before all the others in the direction. *)
Theorem Seek_lands_on_the_extremal_key :
  forall (iters : list y_Iterator) (rev : bool) (next : ptr) (k : bytes),
    iters <> [] -> sources iters next ->
    Forall (fun it =>
              Sorted (key_le CompareKeys rev)
                (map fst (y_sought CompareKeys k it))) iters ->
    exists fuel0 : nat,
      forall fuel : nat,
        (fuel0 <= fuel)%nat ->
        exists t0 : Iterator,
          Seek_at CompareKeys fuel k (fst (NewMergeIterator iters rev next))
          = Ok (Some t0)
          /\ (call_Valid (Some t0) = Ok false <->
              forall it, In it iters -> y_sought CompareKeys k it = [])
          /\ (call_Valid (Some t0) = Ok true ->
              exists e0 : entry,
                call_Key (Some t0) = Ok (fst e0)
                /\ call_Value (Some t0) = Ok (snd e0)
                /\ (exists it,
                      In it iters /\ In e0 (y_sought CompareKeys k it))
                /\ forall (it : y_Iterator) (e : entry),
                     In it iters -> In e (y_sought CompareKeys k it) ->
                     key_le CompareKeys rev (fst e0) (fst e)).
Proof.
  intros iters rev next k Hne Hsrc Hall.
  destruct (build_built (List.length iters) iters rev next (le_n _) Hne Hsrc)
    as [t [Hb [_ Hbt]]].
  exists (sought_weight k t). intros fuel Hfuel.
  destruct (shaped_reposition (Seek k) (Seek k)
              (fun n => MergeIterator_Seek CompareKeys n k)
              (fun _ _ => eq_refl) t (built_shaped rev iters t Hbt)
              fuel Hfuel)
    as [t0 [Hr [Hp [Hs _]]]].
  exists t0. unfold NewMergeIterator. rewrite Hb. simpl fst.
  split; [exact Hr | ].
  exact (built_moved_landing (Seek k) (Seek k) rev iters t t0 Hbt Hp Hs Hall).
Qed.

(** X8. The traversal from [Seek] ([Seek], then [Next] while [Valid]) of the
    built tree returns; it yields entries of what the sources yield after
    their own [Seek], every key of those, and, when each source yields them
    in order, yields them in order. *)
Theorem traversal_from_Seek_is_ordered :
  forall (iters : list y_Iterator) (rev : bool) (next : ptr) (k : bytes),
    iters <> [] -> sources iters next ->
    exists (fuel0 : nat) (out : list entry),
      (forall fuel : nat,
         (fuel0 <= fuel)%nat ->
         seek_traverse CompareKeys fuel k
           (fst (NewMergeIterator iters rev next)) = Ok out)
      /\ (forall e : entry,
            In e out ->
            exists it, In it iters /\ In e (y_sought CompareKeys k it))
      /\ (forall (it : y_Iterator) (e : entry),
            In it iters -> In e (y_sought CompareKeys k it) ->
            exists e', In e' out /\ fst e' = fst e)
      /\ (Forall (fun it =>
                    Sorted (key_le CompareKeys rev)
                      (map fst (y_sought CompareKeys k it))) iters ->
          Sorted (key_le CompareKeys rev) (map fst out)).
Proof.
  intros iters rev next k Hne Hsrc.
  destruct (build_built (List.length iters) iters rev next (le_n _) Hne Hsrc)
    as [t [Hb [_ Hbt]]].
  exists (S (sought_weight k t)),
    (tree_stream CompareKeys (fun s => stream (Seek k s))
       (fun c => stream (Seek k c)) t).
  split; [ | split; [ | split]].
  - intros fuel Hfuel. unfold NewMergeIterator. rewrite Hb. simpl fst.
    apply seek_traverse_shaped;
      [apply (built_shaped rev iters); exact Hbt | lia].
  - exact (built_moved_In (Seek k) (Seek k) rev iters t Hbt).
  - exact (built_moved_keys (Seek k) (Seek k) rev iters t Hbt).
  - intro Hall.
    apply (sorted_entries_keys (key_le CompareKeys rev)).
    exact (built_moved_sorted (Seek k) (Seek k) rev (key_le CompareKeys rev)
             (key_le_trans rev) (fun a b Hb => key_lt_le rev a b Hb)
             iters t Hbt Hall).
Qed.

(** X9. Precedence holds from [Seek] as from [Rewind]: when each source
    yields a key at most once after its own [Seek], in order, the traversal
    from [Seek] yields for every key exactly the entry of the earliest source
    of the list that yields it. *)
Theorem traversal_from_Seek_yields_the_earliest_source :
  forall (iters : list y_Iterator) (rev : bool) (next : ptr) (k : bytes),
    iters <> [] -> sources iters next ->
    Forall (fun it =>
              Sorted (key_lt CompareKeys rev)
                (map fst (y_sought CompareKeys k it))) iters ->
    exists (fuel0 : nat) (out : list entry),
      (forall fuel : nat,
         (fuel0 <= fuel)%nat ->
         seek_traverse CompareKeys fuel k
           (fst (NewMergeIterator iters rev next)) = Ok out)
      /\ forall k' : bytes,
           filter (same_key CompareKeys k') out
           = match first_entry CompareKeys k'
                     (map (y_sought CompareKeys k) iters) with
             | Some e => [e]
             | None => []
             end.
Proof.
  intros iters rev next k Hne Hsrc Hall.
  destruct (build_built (List.length iters) iters rev next (le_n _) Hne Hsrc)
    as [t [Hb [_ Hbt]]].
  exists (S (sought_weight k t)),
    (tree_stream CompareKeys (fun s => stream (Seek k s))
       (fun c => stream (Seek k c)) t).
  split.
  - intros fuel Hfuel. unfold NewMergeIterator. rewrite Hb. simpl fst.
    apply seek_traverse_shaped;
      [apply (built_shaped rev iters); exact Hbt | lia].
  - intro k'.
    rewrite (filter_find_sorted rev k');
      [ | exact (built_moved_sorted (Seek k) (Seek k) rev
                   (key_lt CompareKeys rev) (key_lt_trans rev)
                   (fun a b Hb => Hb) iters t Hbt Hall)].
    rewrite (built_moved_find (Seek k) (Seek k) rev iters t Hbt Hall k').
    reflexivity.
Qed.

(** ** A nil iterator in the list *)

Section Stops.

Variable f : Src -> Src.
Variable g : ConcatIterator -> ConcatIterator.
Variable mOp : nat -> MergeIterator -> result MergeIterator.

Notation callOp fuel :=
  (fun it : y_Iterator =>
     match it with
     | None => Panic nil_dereference
     | Some (PSource p s) => Ok (Some (PSource p (f s)))
     | Some (PConcat p c) => Ok (Some (PConcat p (g c)))
     | Some (PMerge p mi) => mi' <- mOp fuel mi ;; Ok (Some (PMerge p mi'))
     end).

Hypothesis mOp_step : forall (fuel : nat) (mi : MergeIterator),
  mOp (S fuel) mi
  = (s <- (it' <- callOp fuel (iter (small mi)) ;;
           node_setKey (mkNode (valid (small mi)) (key (small mi)) it')) ;;
     b <- (it' <- callOp fuel (iter (big mi)) ;;
           node_setKey (mkNode (valid (big mi)) (key (big mi)) it')) ;;
     MergeIterator_fix CompareKeys (MergeIterator_Next CompareKeys fuel) fuel
       (mkMergeIterator s b (second mi) (reverse mi))).

Lemma reaches_nil_panics : forall it : y_Iterator,
  reaches_nil it ->
  exists fuel0 : nat,
    forall fuel : nat,
      (fuel0 <= fuel)%nat -> callOp fuel it = Panic nil_dereference.
Proof.
  induction 1 as [ | p mi Hs IH | p mi a Hia Ha Hb IH].
  - exists O. reflexivity.
  - destruct IH as [f0 IH]. exists (S f0). intros fuel Hfuel.
    destruct fuel as [ | fuel]; [lia | ].
    rewrite mOp_step, (IH fuel) by lia. reflexivity.
  - destruct IH as [f0 IH].
    exists (S (Nat.max
                 (tree_weight (fun s => stream (f s))
                    (fun c => stream (g c)) a) f0)).
    intros fuel Hfuel. destruct fuel as [ | fuel]; [lia | ].
    destruct (shaped_reposition f g mOp mOp_step a Ha fuel)
      as [a' [Hra [Hpa _]]]; [lia | ].
    rewrite mOp_step, Hia, Hra. cbn [bind].
    destruct (setKey_synced
                (mkNode (valid (small mi)) (key (small mi)) (Some a')) a'
                eq_refl Hpa) as [na [Hna _]].
    rewrite Hna. cbn [bind]. rewrite (IH fuel) by lia. reflexivity.
Qed.

End Stops.

Lemma nil_or_sources : forall iters : list y_Iterator,
  Forall (fun it => it = None \/ is_source it) iters ->
  In None iters \/ Forall is_source iters.
Proof.
  induction 1 as [ | a l [Ha | Ha] Hl [IH | IH]].
  - right. constructor.
  - left. left. exact Ha.
  - left. left. exact Ha.
  - left. right. exact IH.
  - right. constructor; assumption.
Qed.

Lemma sources_no_nil : forall iters : list y_Iterator,
  Forall is_source iters -> ~ In None iters.
Proof.
  intros iters H Hin. rewrite Forall_forall in H. exact (H None Hin).
Qed.

Lemma build_reaches_nil :
  forall (n : nat) (iters : list y_Iterator) (rev : bool) (next : ptr),
    (List.length iters <= n)%nat ->
    Forall (fun it => it = None \/ is_source it) iters ->
    NoDup (y_ptrs iters) ->
    Forall (fun p => (p < next)%nat) (y_ptrs iters) ->
    In None iters ->
    reaches_nil (fst (NewMergeIterator iters rev next)).
Proof.
  induction n as [ | n IH]; intros iters rev next Hlen Hall Hnd Hlt Hin.
  - destruct iters; [contradiction | simpl in Hlen; lia].
  - destruct iters as [ | a [ | b [ | c l]]]; [contradiction | | | ].
    + destruct Hin as [-> | []]. apply reaches_nil_here.
    + rewrite NewMergeIterator_two. simpl fst.
      destruct a as [ia | ].
      * inversion Hall as [ | ? ? [Ha | Ha] _]; subst; [discriminate | ].
        destruct Hin as [Hin | [-> | []]]; [discriminate | ].
        apply reaches_nil_big with (a := ia);
          [reflexivity | apply source_shaped; exact Ha
          | apply reaches_nil_here].
      * apply reaches_nil_small. apply reaches_nil_here.
    + remember (a :: b :: c :: l) as iters eqn:Ei.
      assert (Hlen3 : (3 <= List.length iters)%nat)
        by (subst iters; simpl; lia).
      rewrite NewMergeIterator_split by lia. cbv zeta.
      set (mid := Nat.div (List.length iters) 2).
      assert (Hmid : (mid < List.length iters)%nat)
        by (apply Nat.div_lt; lia).
      assert (Hmid0 : (0 < mid)%nat) by (apply Nat.div_str_pos; lia).
      assert (Hlf : List.length (firstn mid iters) = mid)
        by (rewrite length_firstn; lia).
      assert (Hls : List.length (skipn mid iters)
                    = (List.length iters - mid)%nat)
        by (apply length_skipn).
      assert (Hl1 : firstn mid iters <> [])
        by (intro E; rewrite E in Hlf; simpl in Hlf; lia).
      pose proof (firstn_skipn mid iters) as Hsplit.
      rewrite <- Hsplit in Hall, Hnd, Hlt, Hin.
      rewrite y_ptrs_app in Hnd, Hlt.
      apply Forall_app in Hall. destruct Hall as [Hall1 Hall2].
      apply Forall_app in Hlt. destruct Hlt as [Hlt1 Hlt2].
      pose proof (NoDup_app_remove_r _ _ Hnd) as Hnd1.
      pose proof (NoDup_app_remove_l _ _ Hnd) as Hnd2.
      destruct (nil_or_sources _ Hall1) as [Hin1 | Hsrc1].
      * pose proof (IH (firstn mid iters) rev next ltac:(lia)
                      Hall1 Hnd1 Hlt1 Hin1) as H1.
        destruct (NewMergeIterator (firstn mid iters) rev next)
          as [lt next1].
        destruct (NewMergeIterator (skipn mid iters) rev next1)
          as [rt next2].
        rewrite NewMergeIterator_two. simpl fst. simpl in H1.
        apply reaches_nil_small. exact H1.
      * destruct (build_built (List.length (firstn mid iters))
                    (firstn mid iters) rev next (le_n _) Hl1
                    (conj Hsrc1 (conj Hnd1 Hlt1)))
          as [t [Hb [_ Hbt]]].
        unfold NewMergeIterator at 1. rewrite Hb.
        apply in_app_or in Hin.
        destruct Hin as [Hin | Hin2];
          [exfalso; exact (sources_no_nil _ Hsrc1 Hin) | ].
        assert (Hlt2' : Forall
                  (fun p => (p < next + (List.length (firstn mid iters) - 1))
                            %nat)
                  (y_ptrs (skipn mid iters)))
          by (apply (Forall_impl _ (P := fun p => (p < next)%nat));
              [intros; lia | exact Hlt2]).
        pose proof (IH (skipn mid iters) rev _ ltac:(lia)
                      Hall2 Hnd2 Hlt2' Hin2) as H2.
        destruct (NewMergeIterator (skipn mid iters) rev _) as [rt next2].
        rewrite NewMergeIterator_two. simpl fst. simpl in H2.
        apply reaches_nil_big with (a := t);
          [reflexivity | apply (built_shaped rev _ t Hbt) | exact H2].
Qed.

(** X12. The builder does not look for nil entries: with a nil iterator
    among otherwise distinct sources it builds its tree all the same, and
    the failure comes at the first use. [Close] panics on the nil
    dereference, and so do [Rewind] and [Seek], once the sources ahead of the
    nil entry have been repositioned. *)
Theorem nil_entry_panics_at_first_use :
  forall (iters : list y_Iterator) (rev : bool) (next : ptr),
    Forall (fun it => it = None \/ is_source it) iters ->
    NoDup (y_ptrs iters) ->
    Forall (fun p => (p < next)%nat) (y_ptrs iters) ->
    In None iters ->
    In None (y_leaves (fst (NewMergeIterator iters rev next)))
    /\ call_Close (fst (NewMergeIterator iters rev next))
       = Panic nil_dereference
    /\ (exists fuel0 : nat,
          forall fuel : nat,
            (fuel0 <= fuel)%nat ->
            Rewind_at CompareKeys fuel (fst (NewMergeIterator iters rev next))
            = Panic nil_dereference)
    /\ forall k : bytes,
         exists fuel0 : nat,
           forall fuel : nat,
             (fuel0 <= fuel)%nat ->
             Seek_at CompareKeys fuel k
               (fst (NewMergeIterator iters rev next))
             = Panic nil_dereference.
Proof.
  intros iters rev next Hall Hnd Hlt Hin.
  assert (Hne : iters <> []) by (intro E; subst; contradiction).
  destruct (build_leaves (List.length iters) iters rev next (le_n _) Hne)
    as [_ Hl].
  assert (Hleaf : In None (y_leaves (fst (NewMergeIterator iters rev next)))).
  { rewrite Hl. apply in_flat_map. exists None.
    split; [exact Hin | left; reflexivity]. }
  pose proof (build_reaches_nil (List.length iters) iters rev next (le_n _)
                Hall Hnd Hlt Hin) as Hr.
  split; [exact Hleaf | split; [ | split]].
  - destruct (fst (NewMergeIterator iters rev next)) as [t | ];
      [ | reflexivity].
    destruct (Close_tree (depth t) t (le_n _)) as [[_ H] | [H _]];
      [exact H | contradiction].
  - exact (reaches_nil_panics Rewind Rewind
             (MergeIterator_Rewind CompareKeys) (fun _ _ => eq_refl) _ Hr).
  - intro k.
    exact (reaches_nil_panics (Seek k) (Seek k)
             (fun n => MergeIterator_Seek CompareKeys n k)
             (fun _ _ => eq_refl) _ Hr).
Qed.

(** ** Repositioning at any time *)

Lemma positioned_shaped : forall it : Iterator, placed it -> shaped it.
Proof.
  induction 1 as [p s | p c | p mi a b Hne Hsec Ha IHa Hb IHb Hsa Hsb Hv HI].
  - apply shaped_source.
  - apply shaped_concat.
  - destruct Hsa as [Hia _], Hsb as [Hib _].
    apply shaped_merge with (a := a) (b := b); assumption.
Qed.

(** X13. [Rewind] and [Seek] work from any position, not only on a fresh
    tree: on the tree the builder makes and on every state the operations
    leave, they return a positioned tree at the same address, which has to
    yield the merge of what its leaves yield after their own [Rewind], or
    [Seek] to the same key. *)
Theorem Rewind_and_Seek_work_from_any_position :
  forall it : Iterator,
    shaped it \/ positioned CompareKeys it ->
    (forall fuel : nat,
       (content_weight it <= fuel)%nat ->
       exists it' : Iterator,
         Rewind_at CompareKeys fuel (Some it) = Ok (Some it')
         /\ positioned CompareKeys it'
         /\ istream CompareKeys it' = content CompareKeys it
         /\ ptr_of it' = ptr_of it)
    /\ forall (k : bytes) (fuel : nat),
         (sought_weight k it <= fuel)%nat ->
         exists it' : Iterator,
           Seek_at CompareKeys fuel k (Some it) = Ok (Some it')
           /\ positioned CompareKeys it'
           /\ istream CompareKeys it'
              = tree_stream CompareKeys (fun s => stream (Seek k s))
                  (fun c => stream (Seek k c)) it
           /\ ptr_of it' = ptr_of it.
Proof.
  intros it H.
  assert (Hs : shaped it)
    by (destruct H as [H | H]; [exact H | apply positioned_shaped, H]).
  split.
  - intros fuel Hfuel.
    destruct (shaped_Rewind it Hs fuel Hfuel) as [it' [Hr [Hp [Hst [Hq _]]]]].
    exists it'. repeat split; assumption.
  - intros k fuel Hfuel.
    destruct (shaped_reposition (Seek k) (Seek k)
                (fun n => MergeIterator_Seek CompareKeys n k)
                (fun _ _ => eq_refl) it Hs fuel Hfuel)
      as [it' [Hr [Hp [Hst [Hq _]]]]].
    exists it'. repeat split; assumption.
Qed.

End Whole.

End Theory.

(** * The properties on the concrete instance *)

Lemma byte_to_N_inj : forall x y : byte, Byte.to_N x = Byte.to_N y -> x = y.
Proof.
  intros x y H. pose proof (Byte.of_to_N x) as Hx.
  rewrite H, Byte.of_to_N in Hx. congruence.
Qed.

Lemma bytes_Compare_eq : forall a b : bytes, bytes_Compare a b = 0 <-> a = b.
Proof.
  induction a as [ | x a IH]; intros [ | y b]; simpl;
    try (split; [lia | discriminate]); [tauto | ].
  destruct (N.compare (Byte.to_N x) (Byte.to_N y)) eqn:E.
  - apply N.compare_eq_iff, byte_to_N_inj in E. subst y. rewrite IH.
    split; [congruence | intro H; inversion H; reflexivity].
  - split; [lia | ]. intro H; inversion H; subst.
    rewrite N.compare_refl in E. discriminate.
  - split; [lia | ]. intro H; inversion H; subst.
    rewrite N.compare_refl in E. discriminate.
Qed.

Lemma bytes_Compare_flip : forall a b : bytes,
  bytes_Compare a b < 0 <-> bytes_Compare b a > 0.
Proof.
  induction a as [ | x a IH]; intros [ | y b]; simpl; try lia.
  rewrite (N.compare_antisym (Byte.to_N x) (Byte.to_N y)).
  destruct (N.compare (Byte.to_N x) (Byte.to_N y)); simpl;
    [apply IH | lia | lia].
Qed.

Lemma bytes_Compare_trans : forall a b c : bytes,
  bytes_Compare a b < 0 -> bytes_Compare b c < 0 -> bytes_Compare a c < 0.
Proof.
  induction a as [ | x a IH]; intros [ | y b] [ | z c]; simpl; try lia.
  destruct (N.compare (Byte.to_N x) (Byte.to_N y)) eqn:E1;
    destruct (N.compare (Byte.to_N y) (Byte.to_N z)) eqn:E2;
    try lia; intros H1 H2.
  - apply N.compare_eq_iff in E1. apply N.compare_eq_iff in E2.
    rewrite E1, E2, N.compare_refl. apply (IH b c); assumption.
  - apply N.compare_eq_iff in E1. rewrite E1, E2. lia.
  - apply N.compare_eq_iff in E2. rewrite <- E2, E1. lia.
  - assert (E : N.compare (Byte.to_N x) (Byte.to_N z) = Lt).
    { apply (N.lt_trans _ (Byte.to_N y)); [exact E1 | exact E2]. }
    rewrite E. lia.
Qed.

Lemma bytes_Compare_order : KeyOrder bytes_Compare.
Proof.
  constructor;
    [exact bytes_Compare_eq | exact bytes_Compare_flip
    | exact bytes_Compare_trans].
Qed.

Lemma example_sources :
  sources [example_A; example_B; example_C] 10%nat.
Proof.
  split; [repeat constructor | split].
  - simpl. repeat constructor; simpl; intuition discriminate.
  - simpl. repeat constructor.
Qed.

Lemma example_sorted :
  Forall (fun it =>
            Sorted (key_lt bytes_Compare false)
              (map fst (y_content bytes_Compare it)))
    [example_A; example_B; example_C].
Proof. repeat constructor. Qed.

Lemma key_lt_le_Sorted : forall (rev : bool) (l : list bytes),
  Sorted (key_lt bytes_Compare rev) l -> Sorted (key_le bytes_Compare rev) l.
Proof.
  intros rev l H. induction H as [ | a l Hl IH Hd]; constructor;
    [exact IH | ].
  destruct Hd as [ | b l Hab]; constructor.
  unfold key_lt, key_le, before in *.
  destruct rev; apply Z.ltb_lt in Hab; lia.
Qed.

(** The global order, on the three example sources. *)
Lemma traversal_is_globally_ordered_witness :
  exists (fuel0 : nat) (out : list (bytes * string)),
    (forall fuel : nat,
       (fuel0 <= fuel)%nat ->
       traverse bytes_Compare fuel
         (fst (NewMergeIterator [example_A; example_B; example_C] false
                 10%nat))
       = Ok out)
    /\ Sorted (key_le bytes_Compare false) (map fst out).
Proof.
  apply (traversal_is_globally_ordered bytes_Compare
           Cursor_Lawful Cursor_Lawful bytes_Compare_order
           [example_A; example_B; example_C] false 10%nat).
  - discriminate.
  - exact example_sources.
  - eapply Forall_impl; [ | exact example_sorted].
    intros it. apply key_lt_le_Sorted.
Defined.

(** The precedence of the earliest source, on the three example sources:
    the key "b" is in all of them. *)
Lemma duplicate_keys_yield_the_earliest_source_witness :
  exists (fuel0 : nat) (out : list (bytes * string)),
    (forall fuel : nat,
       (fuel0 <= fuel)%nat ->
       traverse bytes_Compare fuel
         (fst (NewMergeIterator [example_A; example_B; example_C] false
                 10%nat))
       = Ok out)
    /\ forall k : bytes,
         filter (same_key bytes_Compare k) out
         = match first_entry bytes_Compare k
                   (map (y_content bytes_Compare)
                      [example_A; example_B; example_C]) with
           | Some e => [e]
           | None => []
           end.
Proof.
  apply (duplicate_keys_yield_the_earliest_source bytes_Compare
           Cursor_Lawful Cursor_Lawful bytes_Compare_order
           [example_A; example_B; example_C] false 10%nat).
  - discriminate.
  - exact example_sources.
  - exact example_sorted.
Defined.

(** Invariant I1 after [Rewind], on the node built of the first two
    sources. *)
Lemma I1_after_public_operations_witness :
  exists mi',
    MergeIterator_Rewind bytes_Compare 2 example_fresh = Ok mi'
    /\ if reverse mi'
       then bytes_Compare (key (small mi')) (key (big mi')) >= 0
       else bytes_Compare (key (small mi')) (key (big mi')) <= 0.
Proof.
  eexists. split; [vm_compute; reflexivity | ].
  apply (proj1 (I1_after_public_operations bytes_Compare bytes_Compare_order)
           2%nat example_fresh);
    [left; vm_compute; reflexivity | reflexivity | reflexivity].
Defined.

(** The strict order after [fix], on two children standing on the same
    key. *)
Lemma fix_leaves_keys_strictly_ordered_witness :
  exists mi',
    MergeIterator_fix bytes_Compare (MergeIterator_Next bytes_Compare 1) 2
      example_equal = Ok mi'
    /\ (reverse mi' = false ->
        bytes_Compare (key (small mi')) (key (big mi')) < 0)
    /\ (reverse mi' = true ->
        bytes_Compare (key (small mi')) (key (big mi')) > 0).
Proof.
  eexists. split; [vm_compute; reflexivity | ].
  apply (fix_leaves_keys_strictly_ordered bytes_Compare bytes_Compare_order
           (MergeIterator_Next bytes_Compare 1) 2 example_equal);
    [vm_compute; reflexivity | reflexivity | reflexivity].
Defined.

Lemma example_equal_linked :
  linked bytes_Compare example_equal example_left example_right.
Proof.
  refine (conj _ (conj _ (conj _ (conj _ (conj _ _))))).
  - split; [reflexivity | split; [reflexivity | ]].
    intros e s H. vm_compute in H. inversion H; reflexivity.
  - split; [reflexivity | split; [reflexivity | ]].
    intros e s H. vm_compute in H. inversion H; reflexivity.
  - constructor.
  - constructor.
  - discriminate.
  - right; reflexivity.
Qed.

(** Termination of the loop on the same node: the stream of [second] has two
    entries, three turns suffice. *)
Lemma fix_loop_terminates_witness :
  exists mi',
    MergeIterator_fix bytes_Compare (MergeIterator_Next bytes_Compare 2) 3
      example_equal = Ok mi'.
Proof.
  apply (fix_loop_terminates bytes_Compare Cursor_Lawful Cursor_Lawful
           bytes_Compare_order example_equal example_left example_right 2 3).
  - exact example_equal_linked.
  - vm_compute. lia.
  - vm_compute. lia.
  - vm_compute. lia.
Defined.

(** The assertion, on the same two children under a [second] that is neither
    of them. *)
Lemma fix_asserts_second_is_a_child_witness :
  MergeIterator_fix bytes_Compare (MergeIterator_Next bytes_Compare 1) 1
    example_stray = Panic second_invalid.
Proof.
  apply (proj1 (fix_asserts_second_is_a_child bytes_Compare)
           (MergeIterator_Next bytes_Compare 1) 0%nat example_stray);
    reflexivity.
Defined.

(** Both closes run: the close of the first child fails, the second child is
    closed all the same. *)
Lemma Close_closes_both_children_witness :
  exists err : error,
    MergeIterator_Close example_closing = Ok ([1%nat; 2%nat], err)
    /\ (err <> None <-> Some "disk"%string <> None \/ @None string <> None).
Proof.
  apply (Close_closes_both_children example_closing [1%nat] [2%nat]
           (Some "disk"%string) None); reflexivity.
Defined.

(** The tree built of three sources. *)
Lemma NewMergeIterator_builds_balanced_tree_witness :
  NewMergeIterator [example_A; example_B; example_C] false 10%nat
  = (Some (PMerge 11%nat
             (mkMergeIterator (mkNode false [] example_A)
                (mkNode false []
                   (Some (PMerge 10%nat
                            (mkMergeIterator (mkNode false [] example_B)
                               (mkNode false [] example_C)
                               (Some 3%nat) false))))
                (Some 10%nat) false)),
     12%nat).
Proof.
  apply (proj2 (NewMergeIterator_builds_balanced_tree false 10%nat)
           [example_A; example_B; example_C]).
  simpl. lia.
Defined.

(** The empty list, as the specification has it, fails: no iterator comes
    back, and [Valid] through the nil interface panics instead of answering
    false. *)
Lemma empty_list_yields_no_iterator :
  ~ (call_Valid (fst (NewMergeIterator (@nil tree) false 0%nat)) = Ok false
     /\ is_ok (call_Close (fst (NewMergeIterator (@nil tree) false 0%nat)))
        = true).
Proof. intros [H _]. discriminate H. Qed.

(** ** The further properties on the concrete instance *)

Lemma example_sorted_le :
  Forall (fun it =>
            Sorted (key_le bytes_Compare false)
              (map fst (y_content bytes_Compare it)))
    [example_A; example_B; example_C].
Proof.
  eapply Forall_impl; [ | exact example_sorted].
  intros it. apply key_lt_le_Sorted.
Qed.

Lemma example_sought_sorted :
  Forall (fun it =>
            Sorted (key_lt bytes_Compare false)
              (map fst (y_sought bytes_Compare (bs "b") it)))
    [example_A; example_B; example_C].
Proof. repeat constructor. Qed.

Lemma example_sought_sorted_le :
  Forall (fun it =>
            Sorted (key_le bytes_Compare false)
              (map fst (y_sought bytes_Compare (bs "b") it)))
    [example_A; example_B; example_C].
Proof.
  eapply Forall_impl; [ | exact example_sought_sorted].
  intros it. apply key_lt_le_Sorted.
Qed.

Lemma example_placed_positioned : positioned bytes_Compare example_placed.
Proof.
  eapply positioned_merge
    with (a := PSource 1%nat
                 (mkCursor [(bs "a", "A"%string); (bs "b", "A"%string);
                            (bs "d", "A"%string)] 0%nat false None))
         (b := example_right).
  - discriminate.
  - right; reflexivity.
  - constructor.
  - constructor.
  - split; [reflexivity | split; [reflexivity | ]].
    intros e s H. vm_compute in H. inversion H; reflexivity.
  - split; [reflexivity | split; [reflexivity | ]].
    intros e s H. vm_compute in H. inversion H; reflexivity.
  - discriminate.
  - intros _ _. vm_compute. reflexivity.
Qed.

Lemma example_tree_shaped : shaped example_tree.
Proof.
  eapply shaped_merge; [reflexivity | reflexivity | | | | ].
  - discriminate.
  - right; reflexivity.
  - constructor.
  - constructor.
Qed.

(** The three example sources make a tree of two nodes over the three of
    them, in their order. *)
Lemma NewMergeIterator_keeps_the_sources_in_order_witness :
  snd (NewMergeIterator [example_A; example_B; example_C] false 10%nat)
  = (10 + (List.length [example_A; example_B; example_C] - 1))%nat
  /\ y_leaves (fst (NewMergeIterator [example_A; example_B; example_C] false
                      10%nat))
     = flat_map y_leaves [example_A; example_B; example_C]
  /\ (Forall is_source [example_A; example_B; example_C] ->
      y_leaves (fst (NewMergeIterator [example_A; example_B; example_C] false
                       10%nat))
      = [example_A; example_B; example_C])
  /\ (List.length [example_A; example_B; example_C] = 1%nat ->
      fst (NewMergeIterator [example_A; example_B; example_C] false 10%nat)
      = hd None [example_A; example_B; example_C]).
Proof.
  apply (NewMergeIterator_keeps_the_sources_in_order
           [example_A; example_B; example_C] false 10%nat).
  discriminate.
Defined.

(** Three sources: depth two. *)
Lemma NewMergeIterator_builds_a_tree_of_logarithmic_depth_witness :
  exists t : Iterator,
    fst (NewMergeIterator [example_A; example_B; example_C] false 10%nat)
    = Some t
    /\ (List.length [example_A; example_B; example_C] <= 2 ^ depth t)%nat
    /\ (2 ^ depth t
        < 2 * List.length [example_A; example_B; example_C])%nat.
Proof.
  apply (NewMergeIterator_builds_a_tree_of_logarithmic_depth
           [example_A; example_B; example_C] false 10%nat).
  - discriminate.
  - exact example_sources.
Defined.

(** The node of the two sources after [Rewind] stands on "a". *)
Lemma positioned_tree_keeps_the_contract_witness :
  call_Valid (Some example_placed)
  = Ok (nonempty (istream bytes_Compare example_placed))
  /\ forall (e : bytes * string) (s : list (bytes * string)),
       istream bytes_Compare example_placed = e :: s ->
       call_Key (Some example_placed) = Ok (fst e)
       /\ call_Value (Some example_placed) = Ok (snd e)
       /\ forall fuel : nat,
            (weight example_placed <= fuel)%nat ->
            exists it' : Iterator,
              Next_at bytes_Compare fuel (Some example_placed)
              = Ok (Some it')
              /\ positioned bytes_Compare it'
              /\ istream bytes_Compare it' = s
              /\ ptr_of it' = ptr_of example_placed.
Proof.
  apply (positioned_tree_keeps_the_contract bytes_Compare
           (Hord := bytes_Compare_order) example_placed).
  exact example_placed_positioned.
Defined.

(** [Rewind] over two empty sources leaves both nodes invalid. *)
Lemma invalid_means_both_nodes_invalid_witness :
  exists mi',
    MergeIterator_Rewind bytes_Compare 2 example_closing = Ok mi'
    /\ valid (small mi') = false /\ valid (big mi') = false.
Proof.
  eexists. split; [vm_compute; reflexivity | ].
  apply (invalid_means_both_nodes_invalid bytes_Compare 2%nat
           example_closing);
    [right; left; vm_compute; reflexivity | reflexivity].
Defined.

(** Membership and completeness, on the three example sources. *)
Lemma traversal_yields_the_keys_of_the_sources_witness :
  exists (fuel0 : nat) (out : list (bytes * string)),
    (forall fuel : nat,
       (fuel0 <= fuel)%nat ->
       traverse bytes_Compare fuel
         (fst (NewMergeIterator [example_A; example_B; example_C] false
                 10%nat))
       = Ok out)
    /\ (forall e : bytes * string,
          In e out ->
          exists it,
            In it [example_A; example_B; example_C]
            /\ In e (y_content bytes_Compare it))
    /\ (forall (it : tree) (e : bytes * string),
          In it [example_A; example_B; example_C] ->
          In e (y_content bytes_Compare it) ->
          exists e', In e' out /\ fst e' = fst e)
    /\ (forall e : bytes * string,
          In e (y_content bytes_Compare
                  (hd None [example_A; example_B; example_C])) ->
          In e out).
Proof.
  apply (traversal_yields_the_keys_of_the_sources bytes_Compare
           (Hord := bytes_Compare_order)
           [example_A; example_B; example_C] false 10%nat).
  - discriminate.
  - exact example_sources.
Defined.

(** [Rewind] on the tree of the three example sources. *)
Lemma Rewind_lands_on_the_extremal_key_witness :
  exists fuel0 : nat,
    forall fuel : nat,
      (fuel0 <= fuel)%nat ->
      exists t0 : Iterator,
        Rewind_at bytes_Compare fuel
          (fst (NewMergeIterator [example_A; example_B; example_C] false
                  10%nat))
        = Ok (Some t0)
        /\ (call_Valid (Some t0) = Ok false <->
            forall it,
              In it [example_A; example_B; example_C] ->
              y_content bytes_Compare it = [])
        /\ (call_Valid (Some t0) = Ok true ->
            exists e0 : bytes * string,
              call_Key (Some t0) = Ok (fst e0)
              /\ call_Value (Some t0) = Ok (snd e0)
              /\ (exists it,
                    In it [example_A; example_B; example_C]
                    /\ In e0 (y_content bytes_Compare it))
              /\ forall (it : tree) (e : bytes * string),
                   In it [example_A; example_B; example_C] ->
                   In e (y_content bytes_Compare it) ->
                   key_le bytes_Compare false (fst e0) (fst e)).
Proof.
  apply (Rewind_lands_on_the_extremal_key bytes_Compare
           (Hord := bytes_Compare_order)
           [example_A; example_B; example_C] false 10%nat).
  - discriminate.
  - exact example_sources.
  - exact example_sorted_le.
Defined.

(** [Seek] to "b" on the tree of the three example sources. *)
Lemma Seek_lands_on_the_extremal_key_witness :
  exists fuel0 : nat,
    forall fuel : nat,
      (fuel0 <= fuel)%nat ->
      exists t0 : Iterator,
        Seek_at bytes_Compare fuel (bs "b")
          (fst (NewMergeIterator [example_A; example_B; example_C] false
                  10%nat))
        = Ok (Some t0)
        /\ (call_Valid (Some t0) = Ok false <->
            forall it,
              In it [example_A; example_B; example_C] ->
              y_sought bytes_Compare (bs "b") it = [])
        /\ (call_Valid (Some t0) = Ok true ->
            exists e0 : bytes * string,
              call_Key (Some t0) = Ok (fst e0)
              /\ call_Value (Some t0) = Ok (snd e0)
              /\ (exists it,
                    In it [example_A; example_B; example_C]
                    /\ In e0 (y_sought bytes_Compare (bs "b") it))
              /\ forall (it : tree) (e : bytes * string),
                   In it [example_A; example_B; example_C] ->
                   In e (y_sought bytes_Compare (bs "b") it) ->
                   key_le bytes_Compare false (fst e0) (fst e)).
Proof.
  apply (Seek_lands_on_the_extremal_key bytes_Compare
           (Hord := bytes_Compare_order)
           [example_A; example_B; example_C] false 10%nat (bs "b")).
  - discriminate.
  - exact example_sources.
  - exact example_sought_sorted_le.
Defined.

(** The traversal from [Seek] to "b", on the three example sources. *)
Lemma traversal_from_Seek_is_ordered_witness :
  exists (fuel0 : nat) (out : list (bytes * string)),
    (forall fuel : nat,
       (fuel0 <= fuel)%nat ->
       seek_traverse bytes_Compare fuel (bs "b")
         (fst (NewMergeIterator [example_A; example_B; example_C] false
                 10%nat))
       = Ok out)
    /\ (forall e : bytes * string,
          In e out ->
          exists it,
            In it [example_A; example_B; example_C]
            /\ In e (y_sought bytes_Compare (bs "b") it))
    /\ (forall (it : tree) (e : bytes * string),
          In it [example_A; example_B; example_C] ->
          In e (y_sought bytes_Compare (bs "b") it) ->
          exists e', In e' out /\ fst e' = fst e)
    /\ (Forall (fun it =>
                  Sorted (key_le bytes_Compare false)
                    (map fst (y_sought bytes_Compare (bs "b") it)))
          [example_A; example_B; example_C] ->
        Sorted (key_le bytes_Compare false) (map fst out)).
Proof.
  apply (traversal_from_Seek_is_ordered bytes_Compare
           (Hord := bytes_Compare_order)
           [example_A; example_B; example_C] false 10%nat (bs "b")).
  - discriminate.
  - exact example_sources.
Defined.

(** The precedence from [Seek] to "b": the key "b" is in all three. *)
Lemma traversal_from_Seek_yields_the_earliest_source_witness :
  exists (fuel0 : nat) (out : list (bytes * string)),
    (forall fuel : nat,
       (fuel0 <= fuel)%nat ->
       seek_traverse bytes_Compare fuel (bs "b")
         (fst (NewMergeIterator [example_A; example_B; example_C] false
                 10%nat))
       = Ok out)
    /\ forall k' : bytes,
         filter (same_key bytes_Compare k') out
         = match first_entry bytes_Compare k'
                   (map (y_sought bytes_Compare (bs "b"))
                      [example_A; example_B; example_C]) with
           | Some e => [e]
           | None => []
           end.
Proof.
  apply (traversal_from_Seek_yields_the_earliest_source bytes_Compare
           (Hord := bytes_Compare_order)
           [example_A; example_B; example_C] false 10%nat (bs "b")).
  - discriminate.
  - exact example_sources.
  - exact example_sought_sorted.
Defined.


(** [Rewind] on the fresh node of the two sources keeps both. *)
Lemma operations_keep_the_leaves_witness :
  exists mi',
    MergeIterator_Rewind bytes_Compare 2 example_fresh = Ok mi'
    /\ second mi' = second example_fresh
    /\ reverse mi' = reverse example_fresh
    /\ Permutation (map y_ptr (leaves (PMerge 10%nat example_fresh)))
         (map y_ptr (leaves (PMerge 10%nat mi')))
    /\ depth (PMerge 10%nat mi') = depth (PMerge 10%nat example_fresh).
Proof.
  eexists. split; [vm_compute; reflexivity | ].
  apply (operations_keep_the_leaves bytes_Compare 2%nat 10%nat
           example_fresh).
  right; left; vm_compute; reflexivity.
Defined.

(** A nil iterator between two sources. *)
Lemma nil_entry_panics_at_first_use_witness :
  In None (y_leaves (fst (NewMergeIterator example_holed false 10%nat)))
  /\ call_Close (fst (NewMergeIterator example_holed false 10%nat))
     = Panic nil_dereference
  /\ (exists fuel0 : nat,
        forall fuel : nat,
          (fuel0 <= fuel)%nat ->
          Rewind_at bytes_Compare fuel
            (fst (NewMergeIterator example_holed false 10%nat))
          = Panic nil_dereference)
  /\ forall k : bytes,
       exists fuel0 : nat,
         forall fuel : nat,
           (fuel0 <= fuel)%nat ->
           Seek_at bytes_Compare fuel k
             (fst (NewMergeIterator example_holed false 10%nat))
           = Panic nil_dereference.
Proof.
  apply (nil_entry_panics_at_first_use bytes_Compare
           (Hord := bytes_Compare_order) example_holed false 10%nat).
  - repeat constructor; right; exact I.
  - simpl. repeat constructor; simpl; intuition discriminate.
  - simpl. repeat constructor.
  - right; left; reflexivity.
Defined.

(** [Rewind] and [Seek] on the fresh node of the two sources. *)
Lemma Rewind_and_Seek_work_from_any_position_witness :
  (forall fuel : nat,
     (content_weight example_tree <= fuel)%nat ->
     exists it' : Iterator,
       Rewind_at bytes_Compare fuel (Some example_tree) = Ok (Some it')
       /\ positioned bytes_Compare it'
       /\ istream bytes_Compare it' = content bytes_Compare example_tree
       /\ ptr_of it' = ptr_of example_tree)
  /\ forall (k : bytes) (fuel : nat),
       (sought_weight k example_tree <= fuel)%nat ->
       exists it' : Iterator,
         Seek_at bytes_Compare fuel k (Some example_tree) = Ok (Some it')
         /\ positioned bytes_Compare it'
         /\ istream bytes_Compare it'
            = tree_stream bytes_Compare (fun s => stream (Seek k s))
                (fun c => stream (Seek k c)) example_tree
         /\ ptr_of it' = ptr_of example_tree.
Proof.
  apply (Rewind_and_Seek_work_from_any_position bytes_Compare
           (Hord := bytes_Compare_order) example_tree).
  left. exact example_tree_shaped.
Defined.

(** Two children on the same key: [fix] advances the second, the node of the
    first comes out as it went in. *)
Lemma fix_advances_only_second_witness :
  exists mi',
    MergeIterator_fix bytes_Compare (MergeIterator_Next bytes_Compare 1) 2
      example_equal = Ok mi'
    /\ second mi' = second example_equal
    /\ (small example_equal = small mi' \/ small example_equal = big mi').
Proof.
  eexists. split; [vm_compute; reflexivity | ].
  apply (fix_advances_only_second bytes_Compare
           (MergeIterator_Next bytes_Compare 1) 2%nat example_equal);
    [vm_compute; reflexivity | left; reflexivity | reflexivity].
Defined.

(** The tree of the three example sources, each of which stands on a key. *)
Lemma fresh_tree_is_not_valid_witness :
  call_Valid (fst (NewMergeIterator [example_A; example_B; example_C] false
                     10%nat)) = Ok false
  /\ call_Key (fst (NewMergeIterator [example_A; example_B; example_C] false
                      10%nat)) = Ok [].
Proof.
  apply (fresh_tree_is_not_valid [example_A; example_B; example_C] false
           10%nat).
  simpl. lia.
Defined.
